(** * The Solidity grammar of tree-sitter-solidity, embedded in Rocq

    [grammar.js] is a declarative program: a table of named rules written
    with the combinators of the tree-sitter grammar DSL ([seq], [choice],
    [repeat], [optional], [prec.left], [field], ...).  This development
    embeds the table rule by rule, gives the combinators their meaning
    (derivations, the syntax tree they build, and the resolution of
    conflicts by precedence and associativity), and proves properties of
    the language and of the trees the grammar describes. *)

From Stdlib Require Import List String Ascii Bool NArith ZArith Lia.
From Stdlib Require Import DecimalString.
Import ListNotations.
Local Open Scope string_scope.

(** ** Regular expressions

    The patterns of the grammar ([/\d+/], [/.*/], ...) are regular
    expressions over code points.  They are matched by Brzozowski
    derivatives. *)

Module Regex.

Definition char := N.

Inductive regex : Type :=
| Void                                        (* matches nothing *)
| Eps                                         (* the empty word *)
| Cls (negated : bool) (ranges : list (N * N))  (* [a-z...] and [^a-z...] *)
| Cat (r1 r2 : regex)
| Alt (r1 r2 : regex)
| Star (r : regex).

Definition in_range (c : char) (rg : N * N) : bool :=
  (N.leb (fst rg) c && N.leb c (snd rg))%bool.

Definition in_class (negated : bool) (ranges : list (N * N)) (c : char) : bool :=
  xorb negated (existsb (in_range c) ranges).

Fixpoint nullable (r : regex) : bool :=
  match r with
  | Void => false
  | Eps => true
  | Cls _ _ => false
  | Cat r1 r2 => nullable r1 && nullable r2
  | Alt r1 r2 => nullable r1 || nullable r2
  | Star _ => true
  end.

Fixpoint deriv (c : char) (r : regex) : regex :=
  match r with
  | Void => Void
  | Eps => Void
  | Cls neg rs => if in_class neg rs c then Eps else Void
  | Cat r1 r2 =>
      if nullable r1 then Alt (Cat (deriv c r1) r2) (deriv c r2)
      else Cat (deriv c r1) r2
  | Alt r1 r2 => Alt (deriv c r1) (deriv c r2)
  | Star r1 => Cat (deriv c r1) (Star r1)
  end.

Fixpoint matches_codes (r : regex) (w : list char) : bool :=
  match w with
  | [] => nullable r
  | c :: w' => matches_codes (deriv c r) w'
  end.

(** The language of a regular expression, as a relation. *)
Inductive lang : regex -> list char -> Prop :=
| lang_eps : lang Eps []
| lang_cls neg rs c : in_class neg rs c = true -> lang (Cls neg rs) [c]
| lang_cat r1 r2 w1 w2 : lang r1 w1 -> lang r2 w2 -> lang (Cat r1 r2) (w1 ++ w2)
| lang_alt_l r1 r2 w : lang r1 w -> lang (Alt r1 r2) w
| lang_alt_r r1 r2 w : lang r2 w -> lang (Alt r1 r2) w
| lang_star_nil r : lang (Star r) []
| lang_star_cons r w1 w2 : lang r w1 -> lang (Star r) w2 -> lang (Star r) (w1 ++ w2).

(** Code points of a string whose characters are below 256. *)
Definition codes (s : string) : list char :=
  map N_of_ascii (list_ascii_of_string s).

Definition matches (r : regex) (s : string) : bool := matches_codes r (codes s).

(** Derived forms. *)
Definition chr (c : char) : regex := Cls false [(c, c)].
Definition plus (r : regex) : regex := Cat r (Star r).
Definition opt (r : regex) : regex := Alt r Eps.
Definition cats (rs : list regex) : regex := fold_right Cat Eps rs.
Definition lit (s : string) : regex := cats (map chr (codes s)).
Fixpoint times (n : nat) (r : regex) : regex :=
  match n with O => Eps | S n' => Cat r (times n' r) end.
(* r{lo,lo+extra} *)
Fixpoint upto (extra : nat) (r : regex) : regex :=
  match extra with O => Eps | S n' => opt (Cat r (upto n' r)) end.

(** [.]: any character except a line feed. *)
Definition dot : regex := Cls true [(10, 10)]%N.
(** [\d] *)
Definition digit_ranges : list (N * N) := [(48, 57)]%N.
Definition digit : regex := Cls false digit_ranges.
(** [\s]: the white space characters of ECMAScript. *)
Definition space_ranges : list (N * N) :=
  [(9, 13); (32, 32); (160, 160); (5760, 5760); (8192, 8202); (8232, 8233);
   (8239, 8239); (8287, 8287); (12288, 12288); (65279, 65279)]%N.
(** [a-fA-F0-9] *)
Definition hex_ranges : list (N * N) := [(97, 102); (65, 70); (48, 57)]%N.
Definition hex : regex := Cls false hex_ranges.

End Regex.
Import Regex.

(** ** The grammar DSL *)

#[local] Set Warnings "-register-all".

(** The names of the rules of [grammar.js], in the order of the source. *)
Inductive sym : Set :=
| source_file | _source_unit | _directive | pragma_directive
| _pragma_version_constraint | _solidity_version
| _solidity_version_comparison_operator | import_directive | _source_import
| _import_clause | _from_clause | _single_import | _multiple_import
| _import_declaration | _declaration | contract_declaration
| interface_declaration | library_declaration | class_heritage
| _inheritance_specifier | contract_body | struct_declaration | struct_member
| enum_declaration | event_definition | _event_parameter_list
| using_directive | _statement | assembly_statement | block_statement
| variable_declaration_statement | variable_declaration
| variable_declaration_tuple | expression_statement | if_statement
| for_statement | while_statement | do_while_statement | continue_statement
| break_statement | try_statement | catch_clause | return_statement
| emit_statement | state_variable_declaration | constant | visibility
| state_mutability | immutable | _override | override_specifier
| modifier_definition | constructor_definition | fallback_receive_definition
| function_definition | virtual | modifier_invocation | _call_arguments
| function_body | _expression | primary_expression | type_cast_expression
| ternary_expression | new_expression | tuple_expression
| inline_array_expression | binary_expression | unary_expression
| update_expression | member_expression | array_access | slice_access
| struct_expression | _lhs_expression | parenthesized_expression
| assignment_expression | augmented_assignment_expression | call_expresion
| payable_conversion_expression | meta_type_expression | type_name
| _array_type | _function_type | _parameter_list | _return_parameters
| _nameless_parameter | _parameter | _storage_location | _user_defined_type
| _mapping | _mapping_key | _primitive_type | _int | _uint | _bytes | _fixed
| _ufixed | _semicolon | identifier | number | literal | string_literal
| number_literal | decimal_number | hex_number | _hex_digit | number_unit
| boolean_literal | hex_string_literal | _escape_sequence
| _single_quoted_unicode_char | _double_quoted_unicode_char
| unicode_string_literal | string | escape_sequence | comment.

(** A rule whose name starts with an underscore is hidden: it builds no
    node of its own in the syntax tree. *)
Definition hidden (n : sym) : bool :=
  match n with
  | _source_unit | _directive | _pragma_version_constraint | _solidity_version
  | _solidity_version_comparison_operator | _source_import | _import_clause
  | _from_clause | _single_import | _multiple_import | _import_declaration
  | _declaration | _inheritance_specifier | _event_parameter_list | _statement
  | _override | _call_arguments | _expression | _lhs_expression | _array_type
  | _function_type | _parameter_list | _return_parameters | _nameless_parameter
  | _parameter | _storage_location | _user_defined_type | _mapping
  | _mapping_key | _primitive_type | _int | _uint | _bytes | _fixed | _ufixed
  | _semicolon | _hex_digit | _escape_sequence | _single_quoted_unicode_char
  | _double_quoted_unicode_char => true
  | _ => false
  end.

Inductive assoc : Set := NoAssoc | LeftAssoc | RightAssoc.

Inductive rule : Type :=
| BLANK
| STRING (s : String.string)
| PATTERN (re : regex)
| SYMBOL (n : sym)
| SEQ (members : list rule)
| CHOICE (members : list rule)
| REPEAT (content : rule)
| REPEAT1 (content : rule)
| PRECEDENCE (a : assoc) (value : Z) (content : rule)
| FIELD (name : String.string) (content : rule)
| ALIAS (content : rule) (name : String.string)
| TOKEN (content : rule)
| IMMEDIATE_TOKEN (content : rule).

Module DSL.
Definition seq := SEQ.
Definition choice := CHOICE.
Definition repeat := REPEAT.
Definition repeat1 := REPEAT1.
Definition optional (r : rule) : rule := CHOICE [r; BLANK].
Definition prec := PRECEDENCE NoAssoc.
Definition prec_left := PRECEDENCE LeftAssoc.
Definition prec_right := PRECEDENCE RightAssoc.
Definition field := FIELD.
Definition alias := ALIAS.
Definition token := TOKEN.
Definition token_immediate := IMMEDIATE_TOKEN.
Notation "$ n" := (SYMBOL n) (at level 1, n at level 0, format "$ n").
Notation "` s" := (STRING s) (at level 1, s at level 0, format "` s").
End DSL.
Import DSL.

(** The helper functions at the end of [grammar.js]. *)
Definition commaSep1 (r : rule) : rule :=
  seq [r; repeat (seq [`","; r]); optional `","].

Definition commaSep (r : rule) : rule := optional (commaSep1 r).

Definition optionalDashSeparation (r : rule) : rule :=
  seq [r; repeat (seq [optional `"_"; r])].

Module PREC.
Definition COMMENT : Z := 1.
Definition STRING : Z := 2.
Definition COMMA : Z := -1.
Definition OBJECT : Z := -1.
Definition USER_TYPE : Z := 1.
Definition DECLARATION : Z := 1.
Definition ASSIGN : Z := 0.
Definition TERNARY : Z := 1.
Definition OR : Z := 2.
Definition AND : Z := 3.
Definition REL : Z := 4.
Definition PLUS : Z := 5.
Definition TIMES : Z := 6.
Definition EXP : Z := 7.
Definition TYPEOF : Z := 8.
Definition DELETE : Z := 8.
Definition VOID : Z := 8.
Definition NOT : Z := 9.
Definition NEG : Z := 10.
Definition INC : Z := 11.
Definition CALL : Z := 12.
Definition NEW : Z := 13.
Definition MEMBER : Z := 14.
End PREC.

(** Characters that a Rocq string literal cannot hold directly. *)
Definition dquote : String.string := String (ascii_of_nat 34) EmptyString.
Definition squote : String.string := String (ascii_of_nat 39) EmptyString.
Definition backslash : String.string := String (ascii_of_nat 92) EmptyString.

(** ** The rules of [grammar.js] *)

Module Solidity.

(** The operator tables that [binary_expression] and [unary_expression] map
  over. *)
Definition binary_operators : list (String.string * Z) :=
  [("&&", PREC.AND); ("||", PREC.OR); (">>", PREC.TIMES); (">>>", PREC.TIMES);
   ("<<", PREC.TIMES); ("&", PREC.AND); ("^", PREC.OR); ("|", PREC.OR);
   ("+", PREC.PLUS); ("-", PREC.PLUS); ("*", PREC.TIMES); ("/", PREC.TIMES);
   ("%", PREC.TIMES); ("**", PREC.EXP); ("<", PREC.REL); ("<=", PREC.REL);
   ("==", PREC.REL); ("!=", PREC.REL); ("!==", PREC.REL); (">=", PREC.REL);
   (">", PREC.REL)].

Definition unary_operators : list (String.string * Z) :=
  [("!", PREC.NOT); ("~", PREC.NOT); ("-", PREC.NEG); ("+", PREC.NEG);
   ("delete", PREC.DELETE)].

Definition augmented_operators : list String.string :=
  ["+="; "-="; "*="; "/="; "%="; "^="; "&="; "|="; ">>="; ">>>="; "<<="].

Definition int_names : list String.string :=
  ["int"; "int8"; "int16"; "int24"; "int32"; "int40"; "int48"; "int56";
   "int64"; "int72"; "int80"; "int88"; "int96"; "int104"; "int112"; "int120";
   "int128"; "int136"; "int144"; "int152"; "int160"; "int168"; "int176";
   "int184"; "int192"; "int200"; "int208"; "int216"; "int224"; "int232";
   "int240"; "int248"; "int256"].

Definition uint_names : list String.string :=
  ["uint"; "uint8"; "uint16"; "uint24"; "uint32"; "uint40"; "uint48";
   "uint56"; "uint64"; "uint72"; "uint80"; "uint88"; "uint96"; "uint104";
   "uint112"; "uint120"; "uint128"; "uint136"; "uint144"; "uint152";
   "uint160"; "uint168"; "uint176"; "uint184"; "uint192"; "uint200";
   "uint208"; "uint216"; "uint224"; "uint232"; "uint240"; "uint248";
   "uint256"].

Definition bytes_names : list String.string :=
  ["byte"; "bytes"; "bytes1"; "bytes2"; "bytes3"; "bytes4"; "bytes5";
   "bytes6"; "bytes7"; "bytes8"; "bytes9"; "bytes10"; "bytes11"; "bytes12";
   "bytes13"; "bytes14"; "bytes15"; "bytes16"; "bytes17"; "bytes18";
   "bytes19"; "bytes20"; "bytes21"; "bytes22"; "bytes23"; "bytes24";
   "bytes25"; "bytes26"; "bytes27"; "bytes28"; "bytes29"; "bytes30";
   "bytes31"; "bytes32"].

Definition unit_names : list String.string :=
  ["wei"; "szabo"; "finney"; "gwei"; "ether"; "seconds"; "minutes"; "hours";
   "days"; "weeks"; "years"].

(** The regular expressions of the source. *)
Module Re.
Local Open Scope N_scope.
(* /\d+(.\d+(.\d+)?)?/ *)
Definition solidity_version : regex :=
  Cat (plus digit)
      (opt (Cat dot (Cat (plus digit) (opt (Cat dot (plus digit)))))).
(* /[a-zA-Z$_][a-zA-Z0-9$_]*/ *)
Definition identifier : regex :=
  Cat (Cls false [(97, 122); (65, 90); (36, 36); (95, 95)]%N)
      (Star (Cls false [(97, 122); (65, 90); (48, 57); (36, 36); (95, 95)]%N)).
(* /\d+/ *)
Definition number : regex := plus digit.
(* /\d+(.\d+)?/ *)
Definition decimal_mantissa : regex :=
  Cat (plus digit) (opt (Cat dot (plus digit))).
(* /[eE](-)?d+/ *)
Definition decimal_exponent : regex :=
  Cat (Cls false [(101, 101); (69, 69)]%N)
      (Cat (opt (chr 45)) (plus (chr 100))).
(* /([a-fA-F0-9][a-fA-F0-9])/ *)
Definition hex_digit : regex := Cat hex hex.
(* /fixed([0-9]+)x([0-9]+)/ and /ufixed([0-9]+)x([0-9]+)/ *)
Definition fixed : regex :=
  cats [lit "fixed"; plus digit; chr 120; plus digit].
Definition ufixed : regex :=
  cats [lit "ufixed"; plus digit; chr 120; plus digit].
(* /Q'\\bfnrtv\n\r/ with Q the double quote: a sequence, not a class *)
Definition escape_letters : regex :=
  cats [chr 34; chr 39; chr 92; lit "bfnrtv"; chr 10; chr 13].
(* /u([a-fA-F0-9]{4})/ and /x([a-fA-F0-9]{2})/ *)
Definition escape_u4 : regex := Cat (chr 117) (times 4%nat hex).
Definition escape_x2 : regex := Cat (chr 120) (times 2%nat hex).
(* /[^'\r\n\\]/ and /[^Q\r\n\\]/ *)
Definition single_quoted_char : regex :=
  Cls true [(39, 39); (13, 13); (10, 10); (92, 92)]%N.
Definition double_quoted_char : regex :=
  Cls true [(34, 34); (13, 13); (10, 10); (92, 92)]%N.
(* /[^Q\\\n]+|\\\r?\n/ and /[^'\\\n]+|\\\r?\n/ *)
Definition double_quoted_chunk : regex :=
  Alt (plus (Cls true [(34, 34); (92, 92); (10, 10)]%N))
      (cats [chr 92; opt (chr 13); chr 10]).
Definition single_quoted_chunk : regex :=
  Alt (plus (Cls true [(39, 39); (92, 92); (10, 10)]%N))
      (cats [chr 92; opt (chr 13); chr 10]).
(* /[^xu0-7]/, /[0-7]{1,3}/, /x[0-9a-fA-F]{2}/, /u[0-9a-fA-F]{4}/,
   /u{[0-9a-fA-F]+}/ *)
Definition escape_other : regex :=
  Cls true [(120, 120); (117, 117); (48, 55)]%N.
Definition escape_octal : regex :=
  Cat (Cls false [(48, 55)]%N) (upto 2%nat (Cls false [(48, 55)]%N)).
Definition escape_braced : regex :=
  cats [chr 117; chr 123; plus hex; chr 125].
(* /.*/ *)
Definition rest_of_line : regex := Star dot.
(* /[\s\uFEFF\u2060\u200B\u00A0]/ *)
Definition blank_char : regex :=
  Cls false (space_ranges ++
             [(65279, 65279); (8288, 8288); (8203, 8203); (160, 160)]%N).
End Re.

Definition name : String.string := "Solidity".

Definition word : rule := $identifier.

Definition extras : list rule := [$comment; PATTERN Re.blank_char].

Definition conflicts : list (list sym) :=
  [[primary_expression; type_name];
   [_parameter_list; fallback_receive_definition];
   [primary_expression; type_cast_expression]].

Definition rules (n : sym) : rule :=
  match n with
  (* -- [ Program ] -- *)
  | source_file => seq [repeat $_source_unit]
  (* -- [ Source Element ] -- *)
  | _source_unit => choice [$_directive; $_declaration]
  (* -- [ Directives ] -- *)
  | _directive => choice [$pragma_directive; $import_directive]
  | pragma_directive =>
      seq [`"pragma"; `"solidity";
           repeat (field "version_constraint" $_pragma_version_constraint);
           $_semicolon]
  | _pragma_version_constraint =>
      seq [optional $_solidity_version_comparison_operator; $_solidity_version]
  | _solidity_version => PATTERN Re.solidity_version
  | _solidity_version_comparison_operator =>
      choice [`"<="; `"<"; `"^"; `">"; `">="; `"~"; `"="]
  | import_directive =>
      seq [`"import";
           choice [$_source_import; seq [$_import_clause; $_from_clause]];
           $_semicolon]
  | _source_import =>
      seq [field "source" $string; optional (seq [`"as"; $identifier])]
  | _import_clause => choice [$_single_import; $_multiple_import]
  | _from_clause => seq [`"from"; field "source" $string]
  | _single_import =>
      seq [`"*"; optional (seq [`"as"; field "import_alias" $identifier])]
  | _multiple_import => seq [`"{"; commaSep $_import_declaration; `"}"]
  | _import_declaration =>
      seq [field "import_origin" $identifier;
           optional (seq [`"as"; field "import_alias" $identifier])]
  (* -- [ Declarations ] -- *)
  | _declaration =>
      choice [$contract_declaration; $interface_declaration;
              $library_declaration; $struct_declaration; $enum_declaration;
              $function_definition]
  | contract_declaration =>
      seq [optional `"abstract"; `"contract"; field "name" $identifier;
           optional $class_heritage; field "body" $contract_body]
  | interface_declaration =>
      seq [`"interface"; field "name" $identifier; optional $class_heritage;
           field "body" $contract_body]
  | library_declaration =>
      seq [`"library"; field "name" $identifier; field "body" $contract_body]
  | class_heritage => seq [`"is"; commaSep1 $_inheritance_specifier]
  | _inheritance_specifier =>
      seq [field "ancestor" $_user_defined_type;
           optional (field "ancestor_arguments" $_call_arguments)]
  | contract_body =>
      seq [`"{";
           repeat (choice [$function_definition; $modifier_definition;
                           $state_variable_declaration; $struct_declaration;
                           $enum_declaration; $event_definition;
                           $using_directive; $constructor_definition;
                           $fallback_receive_definition]);
           `"}"]
  | struct_declaration =>
      seq [`"struct"; $identifier; `"{"; repeat1 $struct_member; `"}"]
  | struct_member => seq [$type_name; $identifier; $_semicolon]
  | enum_declaration =>
      seq [`"enum"; field "enum_type_name" $identifier; `"{";
           commaSep (field "enum_value" $identifier); `"}"]
  | event_definition =>
      seq [`"event"; field "name" $identifier; $_event_parameter_list;
           optional `"anonymous"; $_semicolon]
  | _event_parameter_list =>
      seq [`"(";
           commaSep (seq [field "type" $type_name; optional `"indexed";
                          optional (field "name" $identifier)]);
           `")"]
  | using_directive =>
      seq [`"using"; field "alias" $_user_defined_type; `"for";
           field "source" (choice [`"*"; $type_name]); $_semicolon]
  (* -- [ Statements ] -- *)
  | _statement =>
      choice [$block_statement; $expression_statement;
              $variable_declaration_statement; $if_statement; $for_statement;
              $while_statement; $do_while_statement; $continue_statement;
              $break_statement; $try_statement; $return_statement;
              $emit_statement]
  | assembly_statement =>
      seq [`"assembly"; optional (STRING (dquote ++ "evmasm" ++ dquote));
           `"{"; `"}"]
  | block_statement => seq [`"{"; repeat $_statement; `"}"]
  | variable_declaration_statement =>
      seq [choice [seq [$variable_declaration;
                        optional (seq [`"="; $_expression])];
                   seq [$variable_declaration_tuple; `"="; $_expression]];
           $_semicolon]
  | variable_declaration =>
      seq [$type_name; optional (choice [`"memory"; `"storage"; `"calldata"]);
           field "name" $identifier]
  | variable_declaration_tuple =>
      seq [`"("; commaSep $variable_declaration; `")"]
  | expression_statement => seq [$_expression; $_semicolon]
  | if_statement =>
      prec_left 0
        (seq [`"if"; `"("; $_expression; `")"; $_statement;
              optional (seq [`"else"; $_statement])])
  | for_statement =>
      seq [`"for"; `"(";
           choice [$variable_declaration_statement; $expression_statement;
                   $_semicolon];
           choice [$expression_statement; $_semicolon];
           optional $_expression; `")"; $_statement]
  | while_statement =>
      seq [`"while"; `"("; $_expression; `")"; $_statement]
  | do_while_statement =>
      seq [`"do"; $_statement; `"while"; `"("; $_expression; `")"]
  | continue_statement => seq [`"continue"; $_semicolon]
  | break_statement => seq [`"break"; $_semicolon]
  | try_statement =>
      seq [`"try"; $_expression;
           optional (seq [`"returns"; $_parameter_list]); $block_statement;
           repeat1 $catch_clause]
  | catch_clause =>
      seq [`"catch";
           optional (seq [optional $identifier; $_parameter_list]);
           $block_statement]
  | return_statement => seq [`"return"; optional $_expression; $_semicolon]
  | emit_statement =>
      seq [`"emit"; $_expression; $_call_arguments; $_semicolon]
  (* -- [ Definitions ] -- *)
  | state_variable_declaration =>
      seq [field "type" $type_name;
           repeat (choice [field "visibility" $visibility; $constant;
                           $override_specifier; $immutable]);
           field "name" $identifier;
           optional (seq [`"="; field "value" $_expression]);
           $_semicolon]
  | constant => `"constant"
  | visibility => choice [`"public"; `"internal"; `"private"; `"external"]
  | state_mutability => choice [`"pure"; `"view"; `"payable"]
  | immutable => `"immutable"
  | _override => `"override"
  | override_specifier =>
      seq [`"override";
           optional (seq [`"("; commaSep1 $_user_defined_type; `")"])]
  | modifier_definition =>
      seq [`"modifier"; field "name" $identifier; optional $_parameter_list;
           repeat (choice [$virtual; $override_specifier]);
           choice [$_semicolon; field "body" $function_body]]
  | constructor_definition =>
      seq [`"constructor"; $_parameter_list;
           repeat (choice [$modifier_invocation; `"payable";
                           choice [`"internal"; `"public"]]);
           field "body" $function_body]
  | fallback_receive_definition =>
      seq [choice [seq [optional `"function";
                        choice [`"fallback"; `"receive"]];
                   `"function"];
           `"("; `")";
           repeat (choice [$visibility; $modifier_invocation;
                           $state_mutability; $virtual; $override_specifier]);
           choice [$_semicolon; field "body" $function_body]]
  | function_definition =>
      seq [`"function"; field "function_name" $identifier; $_parameter_list;
           repeat (choice [$modifier_invocation; $visibility;
                           $state_mutability; $virtual; $override_specifier]);
           optional (seq [`"returns"; $_parameter_list]);
           choice [$_semicolon; field "body" $function_body]]
  | virtual => `"virtual"
  | modifier_invocation => seq [$identifier; optional $_call_arguments]
  | _call_arguments =>
      choice
        [seq [`"(";
              commaSep
                (choice [$_expression;
                         (* commaSep is given three arguments here and
                            takes the first *)
                         seq [`"{"; commaSep $identifier; `"}"]]);
              `")"]]
  | function_body => seq [`"{"; repeat $_statement; `"}"]
  (* -- [ Expressions ] -- *)
  | _expression =>
      choice [$binary_expression; $unary_expression; $update_expression;
              $call_expresion; $payable_conversion_expression;
              $meta_type_expression; $primary_expression; $struct_expression;
              $ternary_expression; $type_cast_expression]
  | primary_expression =>
      choice [$parenthesized_expression; $member_expression; $array_access;
              $slice_access; $_primitive_type; $assignment_expression;
              $augmented_assignment_expression; $_user_defined_type;
              $tuple_expression; $inline_array_expression; $identifier;
              $literal; $new_expression]
  | type_cast_expression =>
      prec_left 0 (seq [$_primitive_type; `"("; $_expression; `")"])
  | ternary_expression =>
      prec_left 0 (seq [$_expression; `"?"; $_expression; `":"; $_expression])
  | new_expression => prec_left 0 (seq [`"new"; $type_name])
  | tuple_expression => prec 1 (seq [`"("; commaSep $_expression; `")"])
  | inline_array_expression => seq [`"["; commaSep $_expression; `"]"]
  | binary_expression =>
      choice
        (map (fun '(operator, precedence) =>
                prec_left precedence
                  (seq [field "left" $_expression;
                        field "operator" (STRING operator);
                        field "right" $_expression]))
             binary_operators)
  | unary_expression =>
      choice
        (map (fun '(operator, precedence) =>
                prec_left precedence
                  (seq [field "operator" (STRING operator);
                        field "argument" $_expression]))
             unary_operators)
  | update_expression =>
      prec_left PREC.INC
        (choice [seq [field "argument" $_expression;
                      field "operator" (choice [`"++"; `"--"])];
                 seq [field "operator" (choice [`"++"; `"--"]);
                      field "argument" $_expression]])
  | member_expression =>
      prec PREC.MEMBER
        (seq [field "object" (choice [$_expression; $identifier]); `".";
              field "property" (alias $identifier "property_identifier")])
  | array_access =>
      prec_right 14
        (seq [field "base" $_expression; `"["; field "index" $_expression;
              `"]"])
  | slice_access =>
      prec PREC.MEMBER
        (seq [field "base" $_expression; `"["; field "from" $_expression;
              `":"; field "to" $_expression; `"]"])
  | struct_expression =>
      seq [$_expression; `"{";
           commaSep (seq [$identifier; `":"; $_expression]); `"}"]
  | _lhs_expression =>
      choice [$member_expression; $tuple_expression; $array_access;
              $identifier]
  | parenthesized_expression => prec 2 (seq [`"("; $_expression; `")"])
  | assignment_expression =>
      prec_right PREC.ASSIGN
        (seq [field "left" (choice [$parenthesized_expression;
                                    $_lhs_expression]);
              `"="; field "right" $_expression])
  | augmented_assignment_expression =>
      prec_right PREC.ASSIGN
        (seq [field "left" $_lhs_expression;
              choice (map STRING augmented_operators);
              field "right" $_expression])
  | call_expresion => choice [seq [$identifier; $_call_arguments]]
  | payable_conversion_expression => seq [`"payable"; $_call_arguments]
  | meta_type_expression => seq [`"type"; `"("; $type_name; `")"]
  | type_name =>
      prec 0 (choice [$_primitive_type; $_user_defined_type; $_mapping;
                      $_array_type; $_function_type])
  | _array_type => seq [$type_name; `"["; optional $_expression; `"]"]
  | _function_type =>
      prec_right 0
        (seq [`"function"; $_parameter_list; optional $_return_parameters])
  | _parameter_list => seq [`"("; commaSep $_parameter; `")"]
  | _return_parameters => seq [`"("; commaSep1 $_nameless_parameter; `")"]
  | _nameless_parameter => seq [$type_name; optional $_storage_location]
  | _parameter =>
      seq [field "type" $type_name;
           optional (field "storage_location" $_storage_location);
           optional (field "name" $identifier)]
  | _storage_location => choice [`"memory"; `"storage"; `"calldata"]
  | _user_defined_type =>
      prec_left PREC.USER_TYPE
        (seq [$identifier; repeat (seq [`"."; $identifier])])
  | _mapping =>
      seq [`"mapping"; `"("; $_mapping_key; `"=>"; $type_name; `")"]
  | _mapping_key => choice [$_primitive_type; $_user_defined_type]
  | _primitive_type =>
      prec_left 0
        (choice [seq [`"address"; optional `"payable"]; `"bool"; `"string";
                 `"var"; $_int; $_uint; $_bytes; $_fixed; $_ufixed])
  | _int => choice (map STRING int_names)
  | _uint => choice (map STRING uint_names)
  | _bytes => choice (map STRING bytes_names)
  | _fixed => choice [`"fixed"; PATTERN Re.fixed]
  | _ufixed => choice [`"ufixed"; PATTERN Re.ufixed]
  | _semicolon => `";"
  | identifier => PATTERN Re.identifier
  | number => PATTERN Re.number
  | literal =>
      choice [$string_literal; $number_literal; $boolean_literal;
              $hex_string_literal; $unicode_string_literal]
  | string_literal => prec_left 0 (repeat1 $string)
  | number_literal =>
      seq [choice [$decimal_number; $hex_number]; optional $number_unit]
  | decimal_number =>
      seq [PATTERN Re.decimal_mantissa; optional (PATTERN Re.decimal_exponent)]
  | hex_number => seq [`"0x"; optional (optionalDashSeparation $_hex_digit)]
  | _hex_digit => PATTERN Re.hex_digit
  | number_unit => choice (map STRING unit_names)
  | boolean_literal => choice [`"true"; `"false"]
  | hex_string_literal =>
      prec_left 0
        (repeat1
           (seq [`"hex";
                 choice
                   [seq [STRING dquote;
                         optional (optionalDashSeparation $_hex_digit);
                         STRING dquote];
                    seq [STRING squote;
                         optional (optionalDashSeparation $_hex_digit);
                         STRING squote]]]))
  | _escape_sequence =>
      seq [STRING backslash;
           choice [PATTERN Re.escape_letters; PATTERN Re.escape_u4;
                   PATTERN Re.escape_x2]]
  | _single_quoted_unicode_char =>
      choice [PATTERN Re.single_quoted_char; $_escape_sequence]
  | _double_quoted_unicode_char =>
      choice [PATTERN Re.double_quoted_char; $_escape_sequence]
  | unicode_string_literal =>
      prec_left 0
        (repeat1
           (seq [`"unicode";
                 choice
                   [seq [STRING dquote; repeat $_double_quoted_unicode_char;
                         STRING dquote];
                    seq [STRING squote; repeat $_single_quoted_unicode_char;
                         STRING squote]]]))
  | string =>
      choice
        [seq [STRING dquote;
              repeat (choice [token_immediate
                                (prec PREC.STRING
                                      (PATTERN Re.double_quoted_chunk));
                              $escape_sequence]);
              STRING dquote];
         seq [STRING squote;
              repeat (choice [token_immediate
                                (prec PREC.STRING
                                      (PATTERN Re.single_quoted_chunk));
                              $escape_sequence]);
              STRING squote]]
  | escape_sequence =>
      token_immediate
        (seq [STRING backslash;
              choice [PATTERN Re.escape_other; PATTERN Re.escape_octal;
                      PATTERN Re.escape_x2; PATTERN Re.escape_u4;
                      PATTERN Re.escape_braced]])
  | comment =>
      token
        (prec PREC.COMMENT
              (choice [seq [`"//"; PATTERN Re.rest_of_line];
                       seq [`"/*"; PATTERN Re.rest_of_line; `"*/"]]))
  end.

End Solidity.

(** ** Derivations

    The parser reads a sequence of tokens: the lexer has already dropped
    the extras.  A token is the text it spans.  A [derivation] records how
    a rule derives a token sequence: which member of each [choice] was
    taken, how often each [repeat] iterated, and the tokens matched.

    The lexer is not part of the embedding.  Any text that a pattern
    matches may stand as a token, a reserved word as an [identifier], and
    a text may be cut into tokens at will, where the lexer takes the
    longest match.  So the token sequences a rule derives here include all
    those the parser reads for it: what no derivation yields the parser
    rejects, and what holds of every derivation holds of the parser's. *)

Definition token := String.string.

Inductive derivation : Type :=
| DBlank
| DTok (w : token)
| DSym (body : derivation)
| DSeq (members : list derivation)
| DAlt (index : nat) (member : derivation)
| DRep (iterations : list derivation)
| DWrap (content : derivation).

(** The regular expression of the content of [token(...)]. *)
Fixpoint lexical (r : rule) : option regex :=
  match r with
  | BLANK => Some Eps
  | STRING s => Some (lit s)
  | PATTERN re => Some re
  | SEQ rs =>
      (fix go (rs : list rule) : option regex :=
         match rs with
         | [] => Some Eps
         | r1 :: rs' =>
             match lexical r1, go rs' with
             | Some e1, Some e2 => Some (Cat e1 e2)
             | _, _ => None
             end
         end) rs
  | CHOICE rs =>
      (fix go (rs : list rule) : option regex :=
         match rs with
         | [] => Some Void
         | r1 :: rs' =>
             match lexical r1, go rs' with
             | Some e1, Some e2 => Some (Alt e1 e2)
             | _, _ => None
             end
         end) rs
  | REPEAT c => option_map Star (lexical c)
  | REPEAT1 c => option_map plus (lexical c)
  | PRECEDENCE _ _ c => lexical c
  | TOKEN c | IMMEDIATE_TOKEN c => lexical c
  | SYMBOL _ | FIELD _ _ | ALIAS _ _ => None
  end.

Definition token_matches (content : rule) (w : token) : bool :=
  match lexical content with
  | Some re => matches re w
  | None => false
  end.

Definition is_nil {A : Type} (l : list A) : bool :=
  match l with [] => true | _ => false end.

(** [valid r d]: [d] is a derivation of the rule [r]. *)
Fixpoint valid (r : rule) (d : derivation) {struct d} : bool :=
  match d, r with
  | DBlank, BLANK => true
  | DTok w, STRING s => String.eqb s w
  | DTok w, PATTERN re => matches re w
  | DTok w, TOKEN c => token_matches c w
  | DTok w, IMMEDIATE_TOKEN c => token_matches c w
  | DSym d', SYMBOL n => valid (Solidity.rules n) d'
  | DSeq ds, SEQ rs =>
      (fix go (rs : list rule) (ds : list derivation) {struct ds} : bool :=
         match ds, rs with
         | [], [] => true
         | d1 :: ds', r1 :: rs' => valid r1 d1 && go rs' ds'
         | _, _ => false
         end) rs ds
  | DAlt i d', CHOICE rs =>
      match nth_error rs i with
      | Some r' => valid r' d'
      | None => false
      end
  | DRep ds, REPEAT c => forallb (valid c) ds
  | DRep ds, REPEAT1 c => negb (is_nil ds) && forallb (valid c) ds
  | DWrap d', PRECEDENCE _ _ c => valid c d'
  | DWrap d', FIELD _ c => valid c d'
  | DWrap d', ALIAS c _ => valid c d'
  | _, _ => false
  end.

(** The tokens a derivation spans, in order. *)
Fixpoint yield (d : derivation) : list token :=
  match d with
  | DBlank => []
  | DTok w => [w]
  | DSym d' => yield d'
  | DSeq ds => flat_map yield ds
  | DAlt _ d' => yield d'
  | DRep ds => flat_map yield ds
  | DWrap d' => yield d'
  end.

(** ** Syntax trees

    A visible rule builds a node named after it, and a hidden rule passes
    the nodes of its body to its parent.  A token written as a string is a
    leaf.  A rule that is a single token is a terminal: a visible one
    ([identifier], [comment], ...) builds a node that holds its text, a
    hidden one ([_semicolon], [_solidity_version], [_hex_digit]) leaves
    nothing in the tree, and neither does a pattern written inside a rule.
    [field] labels the nodes of its content and [alias] renames them. *)

Inductive kind : Set :=
| Rule (n : sym)
| Alias (name : String.string).

Inductive node : Type :=
| Leaf (text : token)
| Node (k : kind) (children : list (option String.string * node)).

Definition child : Type := option String.string * node.

Definition with_field (f : String.string) (c : child) : child :=
  match fst c with
  | None => (Some f, snd c)
  | Some _ => c
  end.

Definition renamed (a : String.string) (c : child) : child :=
  match snd c with
  | Leaf _ => c
  | Node _ cs => (fst c, Node (Alias a) cs)
  end.

(** A rule that is a single token is a terminal of the parser. *)
Definition terminal (n : sym) : bool :=
  match Solidity.rules n with
  | STRING _ | PATTERN _ | TOKEN _ | IMMEDIATE_TOKEN _ => true
  | _ => false
  end.

Fixpoint cst (r : rule) (d : derivation) {struct d} : list child :=
  match d, r with
  | DTok w, STRING _ => [(None, Leaf w)]
  | DSym d', SYMBOL n =>
      if terminal n then
        if hidden n then []
        else [(None, Node (Rule n) (map (fun w => (None, Leaf w)) (yield d')))]
      else if hidden n then cst (Solidity.rules n) d'
      else [(None, Node (Rule n) (cst (Solidity.rules n) d'))]
  | DSeq ds, SEQ rs =>
      (fix go (rs : list rule) (ds : list derivation) {struct ds}
         : list child :=
         match ds, rs with
         | d1 :: ds', r1 :: rs' => (cst r1 d1 ++ go rs' ds')%list
         | _, _ => []
         end) rs ds
  | DAlt i d', CHOICE rs =>
      match nth_error rs i with
      | Some r' => cst r' d'
      | None => []
      end
  | DRep ds, REPEAT c => flat_map (cst c) ds
  | DRep ds, REPEAT1 c => flat_map (cst c) ds
  | DWrap d', PRECEDENCE _ _ c => cst c d'
  | DWrap d', FIELD f c => map (with_field f) (cst c d')
  | DWrap d', ALIAS c a => map (renamed a) (cst c d')
  | _, _ => []
  end.

(** The children of a node carrying a given field name. *)
Definition has_field (f : String.string) (c : child) : bool :=
  match fst c with
  | Some g => String.eqb f g
  | None => false
  end.

Definition field_of (f : String.string) (t : node) : list node :=
  match t with
  | Leaf _ => []
  | Node _ cs => map snd (filter (has_field f) cs)
  end.

(** The children of a node that are nodes themselves (not bare tokens). *)
Definition is_node (c : child) : bool :=
  match snd c with Leaf _ => false | Node _ _ => true end.

Definition node_children (t : node) : list node :=
  match t with
  | Leaf _ => []
  | Node _ cs => map snd (filter is_node cs)
  end.

(** ** Precedence and associativity

    [prec], [prec.left] and [prec.right] do not change the language of a
    rule; they tell the parser generator how to settle a conflict between
    reducing a production and shifting the next token.  With [P] the
    production that could be reduced and [Q] the production the token
    belongs to:
    - the higher precedence wins;
    - at equal precedence a left-associative [P] is reduced, a
      right-associative [P] lets the token be shifted, and without
      associativity nothing is settled: both trees stand.
    A parse tree is the trace of these decisions, so a tree is the
    parser's only if no production in it stands where the other decision
    was due.

    Only these decisions are modelled.  Where the parser chooses between
    two reductions (a name as [identifier] or as a user-defined type,
    [parenthesized_expression] or [tuple_expression]), more than one
    derivation of the same tokens passes the test. *)

Definition info : Set := assoc * Z.

(** The precedence and associativity of the production a derivation of a
    rule body uses.  The grammar wraps whole alternatives, so the first
    wrapper met decides; without a wrapper the precedence is 0. *)
Fixpoint prod_prec (r : rule) (d : derivation) {struct d} : info :=
  match d, r with
  | DWrap _, PRECEDENCE a p _ => (a, p)
  | DWrap d', FIELD _ c => prod_prec c d'
  | DWrap d', ALIAS c _ => prod_prec c d'
  | DAlt i d', CHOICE rs =>
      match nth_error rs i with
      | Some r' => prod_prec r' d'
      | None => (NoAssoc, 0%Z)
      end
  | _, _ => (NoAssoc, 0%Z)
  end.

(** The parse tree over productions: every nonterminal, hidden or not, is
    a node annotated with the production's precedence and associativity;
    its items are the tokens and nonterminals of the production. *)
Inductive ptree : Type :=
| PTok (w : token)
| PNode (n : sym) (a : assoc) (p : Z) (items : list ptree).

Fixpoint items (r : rule) (d : derivation) {struct d} : list ptree :=
  match d, r with
  | DTok w, _ => [PTok w]
  | DSym d', SYMBOL n =>
      if terminal n then items (Solidity.rules n) d'
      else [PNode n (fst (prod_prec (Solidity.rules n) d'))
                  (snd (prod_prec (Solidity.rules n) d'))
                  (items (Solidity.rules n) d')]
  | DSeq ds, SEQ rs =>
      (fix go (rs : list rule) (ds : list derivation) {struct ds}
         : list ptree :=
         match ds, rs with
         | d1 :: ds', r1 :: rs' => (items r1 d1 ++ go rs' ds')%list
         | _, _ => []
         end) rs ds
  | DAlt i d', CHOICE rs =>
      match nth_error rs i with
      | Some r' => items r' d'
      | None => []
      end
  | DRep ds, REPEAT c => flat_map (items c) ds
  | DRep ds, REPEAT1 c => flat_map (items c) ds
  | DWrap d', PRECEDENCE _ _ c => items c d'
  | DWrap d', FIELD _ c => items c d'
  | DWrap d', ALIAS c _ => items c d'
  | _, _ => []
  end.

Definition is_pnode (t : ptree) : bool :=
  match t with PTok _ => false | PNode _ _ _ _ => true end.

Definition starts_with_node (its : list ptree) : bool :=
  match its with t :: _ => is_pnode t | [] => false end.

Definition ends_with_node (its : list ptree) : bool :=
  match rev its with t :: _ => is_pnode t | [] => false end.

(** The tree [P (... Q (e t ...))], with [Q] down the left edge of the
    last operand of [P]: after [e] the parser shifted [t] although [P]
    could be reduced. *)
Definition shift_allowed (Q P : info) : bool :=
  (snd P <? snd Q)%Z ||
  ((snd P =? snd Q)%Z &&
   match fst P with LeftAssoc => false | _ => true end).

(** The tree [Q (P (...) t ...)], with [P] down the right edge of the
    first operand of [Q]: the parser reduced [P] although [t] could be
    shifted. *)
Definition reduce_allowed (Q P : info) : bool :=
  (snd Q <? snd P)%Z ||
  ((snd P =? snd Q)%Z &&
   match fst P with RightAssoc => false | _ => true end).

(** [resolved above_left above_right t]: no production of [t] contradicts
    the parser's decisions.  [above_right] lists the productions whose
    last operand has [t] on its left edge, [above_left] those whose first
    operand has [t] on its right edge. *)
Fixpoint resolved (above_left above_right : list info) (t : ptree)
  {struct t} : bool :=
  match t with
  | PTok _ => true
  | PNode _ a p its =>
      match its with
      | [PNode _ _ _ _ as u] => resolved above_left above_right u
      | _ =>
          (if starts_with_node its
           then forallb (shift_allowed (a, p)) above_right else true) &&
          (if ends_with_node its
           then forallb (fun Q => reduce_allowed Q (a, p)) above_left
           else true) &&
          (fix walk (is_first : bool) (its : list ptree) {struct its}
             : bool :=
             match its with
             | [] => true
             | u :: rest =>
                 resolved
                   (if is_nil rest then above_left
                    else if is_first then [(a, p)] else [])
                   (if is_first then above_right
                    else if is_nil rest then [(a, p)] else [])
                   u
                 && walk false rest
             end) true its
      end
  end.

Definition conflict_free (r : rule) (d : derivation) : bool :=
  forallb (resolved [] []) (items r d).

(** [parses r ts d]: [d] derives the tokens [ts] from [r], and no
    precedence or associativity of the grammar speaks against it. *)
Definition parses (r : rule) (ts : list token) (d : derivation) : Prop :=
  valid r d = true /\ yield d = ts /\ conflict_free r d = true.

(** [accepts r ts]: the language of [r] holds [ts]. *)
Definition accepts (r : rule) (ts : list token) : Prop :=
  exists d, valid r d = true /\ yield d = ts.

(** ** The lexer's extras

    A lexeme is an extra when a member of [extras] matches it: the
    [comment] token or one blank character. *)

Definition extra (w : token) : bool :=
  existsb (fun r =>
             match r with
             | SYMBOL _ => valid r (DSym (DTok w))
             | _ => valid r (DTok w)
             end) Solidity.extras.

Definition blank_code (c : char) : bool :=
  matches_codes Solidity.Re.blank_char [c].

Definition line_feed : String.string := String (ascii_of_nat 10) EmptyString.


(** ** Building derivations *)

Module Build.
(* optional(r): present or absent *)
Definition some (d : derivation) : derivation := DAlt 0 d.
Definition none : derivation := DAlt 1 DBlank.
(* commaSep1(r) and commaSep(r), without trailing comma *)
Definition sep1 (d1 : derivation) (ds : list derivation) : derivation :=
  DSeq [d1; DRep (map (fun d => DSeq [DTok ","; d]) ds); none].
Definition sep (ds : list derivation) : derivation :=
  match ds with
  | [] => none
  | d1 :: ds' => some (sep1 d1 ds')
  end.
Definition ident (w : token) : derivation := DSym (DTok w).
Definition semicolon : derivation := DSym (DTok ";").
(* _expression, through its i-th member *)
Definition expr (i : nat) (d : derivation) : derivation := DSym (DAlt i d).
(* primary_expression, through its i-th member *)
Definition primary (i : nat) (d : derivation) : derivation :=
  expr 6 (DSym (DAlt i d)).
Definition var (w : token) : derivation := primary 10 (ident w).
(* binary_expression with the i-th operator of the table *)
Definition binary (i : nat) (l r : derivation) : derivation :=
  expr 0
    (DSym (DAlt i
       (DWrap
          (DSeq [DWrap l;
                 DWrap (DTok (fst (nth i Solidity.binary_operators
                                       ("", 0%Z))));
                 DWrap r])))).
Definition ternary (c t e : derivation) : derivation :=
  expr 8 (DSym (DWrap (DSeq [c; DTok "?"; t; DTok ":"; e]))).
(* type_name and _primitive_type, through their i-th member *)
Definition type (i : nat) (d : derivation) : derivation :=
  DSym (DWrap (DAlt i d)).
Definition primitive (i : nat) (d : derivation) : derivation :=
  DSym (DWrap (DAlt i d)).
Definition t_address : derivation :=
  type 0 (primitive 0 (DSeq [DTok "address"; none])).
Definition t_bool : derivation := type 0 (primitive 1 (DTok "bool")).
Definition t_string : derivation := type 0 (primitive 2 (DTok "string")).
Definition t_uint : derivation :=
  type 0 (primitive 5 (DSym (DAlt 0 (DTok "uint")))).
Definition t_uint256 : derivation :=
  type 0 (primitive 5 (DSym (DAlt 32 (DTok "uint256")))).
Definition t_bytes : derivation :=
  type 0 (primitive 6 (DSym (DAlt 1 (DTok "bytes")))).
(* _mapping_key *)
Definition k_address : derivation :=
  DSym (DAlt 0 (primitive 0 (DSeq [DTok "address"; none]))).
Definition k_uint : derivation :=
  DSym (DAlt 0 (primitive 5 (DSym (DAlt 0 (DTok "uint"))))).
Definition mapping (key value : derivation) : derivation :=
  type 2
    (DSym (DSeq [DTok "mapping"; DTok "("; key; DTok "=>"; value;
                 DTok ")"])).
(* _parameter: type, storage location "memory", name *)
Definition parameter (ty : derivation) (name : token) : derivation :=
  DSym (DSeq [DWrap ty; some (DWrap (DSym (DAlt 0 (DTok "memory"))));
              some (DWrap (ident name))]).
Definition parameter_list (ps : list derivation) : derivation :=
  DSym (DSeq [DTok "("; sep ps; DTok ")"]).
Definition empty_block : derivation :=
  DSym (DSeq [DTok "{"; DRep []; DTok "}"]).
Definition variable_declaration (ty : derivation) (name : token)
  : derivation :=
  DSym (DSeq [ty; none; DWrap (ident name)]).
End Build.

(** ** The inputs of the properties below *)

Module Example.
Import Build.

(* a ** b ** c *)
Definition pow_tokens : list token := ["a"; "**"; "b"; "**"; "c"].
Definition pow_left : derivation :=
  binary 13 (binary 13 (var "a") (var "b")) (var "c").
(* the same, with a derived as a user-defined type *)
Definition name_as_type (w : token) : derivation :=
  primary 7 (DSym (DWrap (DSeq [ident w; DRep []]))).
Definition pow_left_alt : derivation :=
  binary 13 (binary 13 (name_as_type "a") (var "b")) (var "c").
Definition pow_right : derivation :=
  binary 13 (var "a") (binary 13 (var "b") (var "c")).

(* a ? b : c ? d : e *)
Definition cond_tokens : list token :=
  ["a"; "?"; "b"; ":"; "c"; "?"; "d"; ":"; "e"].
Definition cond_left : derivation :=
  ternary (ternary (var "a") (var "b") (var "c")) (var "d") (var "e").
Definition cond_left_alt : derivation :=
  ternary (ternary (name_as_type "a") (var "b") (var "c")) (var "d")
          (var "e").
Definition cond_right : derivation :=
  ternary (var "a") (var "b") (ternary (var "c") (var "d") (var "e")).

(* catch { }, catch (bytes memory data) { },
   catch Error (string memory reason) { }, catch Error { } *)
Definition catch_bare_tokens : list token := ["catch"; "{"; "}"].
Definition catch_bare : derivation :=
  DSym (DSeq [DTok "catch"; none; empty_block]).
Definition catch_params_tokens : list token :=
  ["catch"; "("; "bytes"; "memory"; "data"; ")"; "{"; "}"].
Definition catch_params : derivation :=
  DSym (DSeq [DTok "catch";
              some (DSeq [none; parameter_list [parameter t_bytes "data"]]);
              empty_block]).
Definition catch_named_tokens : list token :=
  ["catch"; "Error"; "("; "string"; "memory"; "reason"; ")"; "{"; "}"].
Definition catch_named : derivation :=
  DSym (DSeq [DTok "catch";
              some (DSeq [some (ident "Error");
                          parameter_list [parameter t_string "reason"]]);
              empty_block]).
Definition catch_name_only_tokens : list token :=
  ["catch"; "Error"; "{"; "}"].

(* enum E { }, struct S { }, struct S { uint a; } *)
Definition enum_empty_tokens : list token := ["enum"; "E"; "{"; "}"].
Definition enum_empty : derivation :=
  DSym (DSeq [DTok "enum"; DWrap (ident "E"); DTok "{"; none; DTok "}"]).
Definition struct_empty_tokens : list token := ["struct"; "S"; "{"; "}"].
Definition struct_one : derivation :=
  DSym (DSeq [DTok "struct"; ident "S"; DTok "{";
              DRep [DSym (DSeq [t_uint; ident "a"; semicolon])];
              DTok "}"]).


(* (1 + 2) = c *)
Definition number (w : token) : derivation :=
  primary 11 (DSym (DAlt 1 (DSym (DSeq [DAlt 0 (DSym (DSeq [DTok w; none]));
                                        none])))).

(* uint a; and (uint a, uint b) = f; and (uint a, uint b); *)
Definition single_declaration_tokens : list token := ["uint"; "a"; ";"].
Definition single_declaration : derivation :=
  DSym (DSeq [DAlt 0 (DSeq [variable_declaration t_uint "a"; none]);
              semicolon]).
Definition tuple_declaration : derivation :=
  DSym (DSeq [DAlt 1
                (DSeq [DSym (DSeq [DTok "(";
                                   sep [variable_declaration t_uint "a";
                                        variable_declaration t_uint "b"];
                                   DTok ")"]);
                       DTok "="; var "f"]);
              semicolon]).
Definition bare_tuple_tokens : list token :=
  ["("; "uint"; "a"; ","; "uint"; "b"; ")"; ";"].

(* mapping(address => uint256),
   mapping(address => mapping(uint => bool)) *)
Definition mapping_tokens : list token :=
  ["mapping"; "("; "address"; "=>"; "uint256"; ")"].
Definition mapping_simple : derivation := mapping k_address t_uint256.
Definition mapping_body : derivation :=
  DSym (DSeq [DTok "mapping"; DTok "("; k_address; DTok "=>"; t_uint256;
              DTok ")"]).
Definition nested_tokens : list token :=
  ["mapping"; "("; "address"; "=>";
   "mapping"; "("; "uint"; "=>"; "bool"; ")"; ")"].
Definition mapping_nested : derivation :=
  mapping k_address (mapping k_uint t_bool).

(* mapping(mapping(a => b) => c) *)
Definition mapping_keyed_tokens : list token :=
  ["mapping"; "("; "mapping"; "("; "a"; "=>"; "b"; ")"; "=>"; "c"; ")"].

(* pragma solidity; and pragma experimental ABIEncoderV2; *)
Definition pragma_tokens : list token := ["pragma"; "solidity"; ";"].
Definition pragma_plain : derivation :=
  DSym (DSeq [DTok "pragma"; DTok "solidity"; DRep []; semicolon]).
Definition experimental_tokens : list token :=
  ["pragma"; "experimental"; "ABIEncoderV2"; ";"].

(* a block comment over two lines *)
Definition two_line_comment : token :=
  "/* a" ++ line_feed ++ " b */".
End Example.

(** ** Predicates on trees, rules and token sequences *)

(** The regular expression of the [comment] token. *)
Definition comment_regex : regex :=
  Alt (Cat (lit "//") (Cat Solidity.Re.rest_of_line Eps))
      (Alt (Cat (lit "/*") (Cat Solidity.Re.rest_of_line
                                (Cat (lit "*/") Eps))) Void).

Definition named (p : sym -> bool) (t : node) : bool :=
  match t with
  | Node (Rule n) _ => p n
  | _ => false
  end.

Definition is_struct_member (n : sym) : bool :=
  match n with struct_member => true | _ => false end.

Definition is_declaration_tuple (n : sym) : bool :=
  match n with variable_declaration_tuple => true | _ => false end.

(** [mentions p r]: the rule [r] refers to a symbol satisfying [p]. *)
Fixpoint mentions (p : sym -> bool) (r : rule) : bool :=
  match r with
  | SYMBOL n => p n
  | SEQ rs | CHOICE rs => existsb (mentions p) rs
  | REPEAT c | REPEAT1 c | PRECEDENCE _ _ c | FIELD _ c | ALIAS c _
  | TOKEN c | IMMEDIATE_TOKEN c => mentions p c
  | BLANK | STRING _ | PATTERN _ => false
  end.

(** The node kinds an expression can have. *)
Definition expression_kinds : list sym :=
  [binary_expression; unary_expression; update_expression; call_expresion;
   payable_conversion_expression; meta_type_expression; primary_expression;
   struct_expression; ternary_expression; type_cast_expression].

(** Groups of two hex digits, the later ones optionally preceded by [_]. *)
Fixpoint hex_tail (ts : list token) : bool :=
  match ts with
  | [] => true
  | t :: ts' =>
      if String.eqb t "_" then
        match ts' with
        | h :: ts'' => matches Solidity.Re.hex_digit h && hex_tail ts''
        | [] => false
        end
      else matches Solidity.Re.hex_digit t && hex_tail ts'
  end.

Definition hex_groups (ts : list token) : bool :=
  match ts with
  | [] => true
  | h :: ts' => matches Solidity.Re.hex_digit h && hex_tail ts'
  end.

Definition decimal_shape (body : list token) : Prop :=
  exists m, matches Solidity.Re.decimal_mantissa m = true /\
    (body = [m] \/
     exists e, body = [m; e] /\ matches Solidity.Re.decimal_exponent e = true).

Definition hex_shape (body : list token) : Prop :=
  exists groups, body = "0x" :: groups /\ hex_groups groups = true.

Definition unit_suffix (suffix : list token) : Prop :=
  suffix = [] \/ exists u, suffix = [u] /\ In u Solidity.unit_names.




(** The members of [binary_expression], one per operator of the table. *)
Definition binary_rule (entry : String.string * Z) : rule :=
  prec_left (snd entry)
    (seq [field "left" $_expression; field "operator" (STRING (fst entry));
          field "right" $_expression]).

(** The derivation of [l op r] as an expression, [op] the [i]-th operator. *)
Definition binary_derivation (i : nat) (op : token) (l r : derivation)
  : derivation :=
  DSym (DAlt 0 (DSym (DAlt i (DWrap (DSeq [DWrap l; DWrap (DTok op);
                                          DWrap r]))))).

Definition ternary_derivation (c t e : derivation) : derivation :=
  DSym (DAlt 8 (DSym (DWrap (DSeq [c; DTok "?"; t; DTok ":"; e])))).

Definition is_binary (t : node) : bool := named
  (fun n => match n with binary_expression => true | _ => false end) t.

Definition is_ternary (t : node) : bool := named
  (fun n => match n with ternary_expression => true | _ => false end) t.

(** The tokens of the inputs [a ** b ** c] and [a ? b : c ? d : e]. *)
Definition plain (t : token) : bool :=
  existsb (String.eqb t) ["a"; "b"; "c"; "d"; "e"; "**"; "?"; ":"].

(** The tree of a one-token expression that is a name. *)
Definition name_node (w : token) : list child :=
  [(None, Node (Rule primary_expression)
      [(None, Node (Rule identifier) [(None, Leaf w)])])].

(** ** Analyses of the rule table *)

(** The position of a rule in the table. *)
Definition sym_index (n : sym) : nat :=
  match n with
  | source_file => 0 | _source_unit => 1 | _directive => 2
  | pragma_directive => 3 | _pragma_version_constraint => 4
  | _solidity_version => 5 | _solidity_version_comparison_operator => 6
  | import_directive => 7 | _source_import => 8 | _import_clause => 9
  | _from_clause => 10 | _single_import => 11 | _multiple_import => 12
  | _import_declaration => 13 | _declaration => 14
  | contract_declaration => 15 | interface_declaration => 16
  | library_declaration => 17 | class_heritage => 18
  | _inheritance_specifier => 19 | contract_body => 20
  | struct_declaration => 21 | struct_member => 22 | enum_declaration => 23
  | event_definition => 24 | _event_parameter_list => 25
  | using_directive => 26 | _statement => 27 | assembly_statement => 28
  | block_statement => 29 | variable_declaration_statement => 30
  | variable_declaration => 31 | variable_declaration_tuple => 32
  | expression_statement => 33 | if_statement => 34 | for_statement => 35
  | while_statement => 36 | do_while_statement => 37
  | continue_statement => 38 | break_statement => 39 | try_statement => 40
  | catch_clause => 41 | return_statement => 42 | emit_statement => 43
  | state_variable_declaration => 44 | constant => 45 | visibility => 46
  | state_mutability => 47 | immutable => 48 | _override => 49
  | override_specifier => 50 | modifier_definition => 51
  | constructor_definition => 52 | fallback_receive_definition => 53
  | function_definition => 54 | virtual => 55 | modifier_invocation => 56
  | _call_arguments => 57 | function_body => 58 | _expression => 59
  | primary_expression => 60 | type_cast_expression => 61
  | ternary_expression => 62 | new_expression => 63 | tuple_expression => 64
  | inline_array_expression => 65 | binary_expression => 66
  | unary_expression => 67 | update_expression => 68
  | member_expression => 69 | array_access => 70 | slice_access => 71
  | struct_expression => 72 | _lhs_expression => 73
  | parenthesized_expression => 74 | assignment_expression => 75
  | augmented_assignment_expression => 76 | call_expresion => 77
  | payable_conversion_expression => 78 | meta_type_expression => 79
  | type_name => 80 | _array_type => 81 | _function_type => 82
  | _parameter_list => 83 | _return_parameters => 84
  | _nameless_parameter => 85 | _parameter => 86 | _storage_location => 87
  | _user_defined_type => 88 | _mapping => 89 | _mapping_key => 90
  | _primitive_type => 91 | _int => 92 | _uint => 93 | _bytes => 94
  | _fixed => 95 | _ufixed => 96 | _semicolon => 97 | identifier => 98
  | number => 99 | literal => 100 | string_literal => 101
  | number_literal => 102 | decimal_number => 103 | hex_number => 104
  | _hex_digit => 105 | number_unit => 106 | boolean_literal => 107
  | hex_string_literal => 108 | _escape_sequence => 109
  | _single_quoted_unicode_char => 110 | _double_quoted_unicode_char => 111
  | unicode_string_literal => 112 | string => 113 | escape_sequence => 114
  | comment => 115
  end.

Definition sym_eqb (a b : sym) : bool := Nat.eqb (sym_index a) (sym_index b).

(** The symbols a rule refers to. *)
Fixpoint symbols (r : rule) : list sym :=
  match r with
  | SYMBOL n => [n]
  | SEQ rs | CHOICE rs => flat_map symbols rs
  | REPEAT c | REPEAT1 c | PRECEDENCE _ _ c | FIELD _ c | ALIAS c _
  | TOKEN c | IMMEDIATE_TOKEN c => symbols c
  | BLANK | STRING _ | PATTERN _ => []
  end.

(** The symbols the parser starts from: the start rule, and the rules the
    extras and the word token name. *)
Definition roots : list sym :=
  (source_file :: flat_map symbols Solidity.extras ++
   symbols Solidity.word)%list.

(** The symbols a walk over the rule table meets from [todo], given the
    ones it has [seen]. *)
Fixpoint reach (fuel : nat) (seen todo : list sym) : list sym :=
  match fuel with
  | O => seen
  | S fuel' =>
      match todo with
      | [] => seen
      | n :: todo' =>
          if existsb (sym_eqb n) seen then reach fuel' seen todo'
          else reach fuel' (n :: seen)
                     (symbols (Solidity.rules n) ++ todo')%list
      end
  end.

(** [used n]: the rule [n] is met on a walk from the roots. *)
Definition used (n : sym) : bool :=
  existsb (sym_eqb n) (reach 1000 [] roots).

(** The kinds of the nodes of a tree. *)
Fixpoint node_kinds (t : node) : list kind :=
  match t with
  | Leaf _ => []
  | Node k cs => k :: flat_map (fun c => node_kinds (snd c)) cs
  end.

Definition kinds (cs : list child) : list kind :=
  flat_map (fun c => node_kinds (snd c)) cs.

(** A node kind is within [U] when it is the name of a rule of [U], or an
    alias. *)
Definition kind_within (U : sym -> bool) (k : kind) : bool :=
  match k with
  | Rule n => U n
  | Alias _ => true
  end.

(** [derives_empty N r]: the rule [r] may derive the empty token sequence,
    when [N] tells which symbols may. *)
Fixpoint derives_empty (N : sym -> bool) (r : rule) : bool :=
  match r with
  | BLANK => true
  | STRING _ | PATTERN _ | TOKEN _ | IMMEDIATE_TOKEN _ => false
  | SYMBOL n => N n
  | SEQ rs => forallb (derives_empty N) rs
  | CHOICE rs => existsb (derives_empty N) rs
  | REPEAT _ => true
  | REPEAT1 c | PRECEDENCE _ _ c | FIELD _ c | ALIAS c _ => derives_empty N c
  end.

(** [starts N F r t]: a token sequence that [r] derives may begin with the
    token [t], when [N] tells which symbols may derive the empty sequence
    and [F] with which tokens the derivations of a symbol may begin. *)
Fixpoint starts (N : sym -> bool) (F : sym -> token -> bool) (r : rule)
  (t : token) : bool :=
  match r with
  | BLANK => false
  | STRING s => String.eqb s t
  | PATTERN re => matches re t
  | TOKEN c | IMMEDIATE_TOKEN c => token_matches c t
  | SYMBOL n => F n t
  | SEQ rs =>
      (fix go (rs : list rule) : bool :=
         match rs with
         | [] => false
         | r1 :: rs' => starts N F r1 t || (derives_empty N r1 && go rs')
         end) rs
  | CHOICE rs => existsb (fun r' => starts N F r' t) rs
  | REPEAT c | REPEAT1 c | PRECEDENCE _ _ c | FIELD _ c | ALIAS c _ =>
      starts N F c t
  end.

(** The start rule alone may derive the empty sequence. *)
Definition may_be_empty (n : sym) : bool :=
  match n with source_file => true | _ => false end.

(** The tokens an expression or a type name may begin with: a name or a
    keyword, a number, a sized fixed-point type, or one of eleven marks. *)
Definition expression_start (t : token) : bool :=
  matches Solidity.Re.identifier t ||
  matches Solidity.Re.decimal_mantissa t ||
  matches Solidity.Re.fixed t || matches Solidity.Re.ufixed t ||
  existsb (String.eqb t)
    ["("; "["; "!"; "~"; "-"; "+"; "++"; "--"; dquote; squote; "0x"].

(** A statement may also begin with the brace of a block. *)
Definition statement_start (t : token) : bool :=
  expression_start t || String.eqb t "{".

(** The tokens the derivations of a symbol may begin with; the symbols
    that no expression or statement begins with are left open. *)
Definition first_tokens (n : sym) (t : token) : bool :=
  match n with
  | _statement | block_statement => statement_start t
  | expression_statement | variable_declaration_statement
  | variable_declaration | variable_declaration_tuple | if_statement
  | for_statement | while_statement | do_while_statement
  | continue_statement | break_statement | try_statement | return_statement
  | emit_statement
  | _expression | primary_expression | type_cast_expression
  | ternary_expression | new_expression | tuple_expression
  | inline_array_expression | binary_expression | unary_expression
  | update_expression | member_expression | array_access | slice_access
  | struct_expression | _lhs_expression | parenthesized_expression
  | assignment_expression | augmented_assignment_expression | call_expresion
  | payable_conversion_expression | meta_type_expression | type_name
  | _array_type | _function_type | _user_defined_type | _mapping
  | _primitive_type | _int | _uint | _bytes | _fixed | _ufixed | identifier
  | literal | string_literal | number_literal | decimal_number | hex_number
  | boolean_literal | hex_string_literal | unicode_string_literal | string =>
      expression_start t
  | _ => true
  end.

(** ** Operators *)

(** The members of [unary_expression], one per operator of the table. *)
Definition unary_rule (entry : String.string * Z) : rule :=
  prec_left (snd entry)
    (seq [field "operator" (STRING (fst entry));
          field "argument" $_expression]).

(** The derivation of [op e] as an expression, [op] the [i]-th unary
    operator. *)
Definition unary_derivation (i : nat) (op : token) (e : derivation)
  : derivation :=
  DSym (DAlt 1 (DSym (DAlt i (DWrap (DSeq [DWrap (DTok op); DWrap e]))))).

Definition is_unary (t : node) : bool := named
  (fun n => match n with unary_expression => true | _ => false end) t.

(** ** Classes of characters *)

Definition letter (c : char) : bool :=
  ((97 <=? c) && (c <=? 122) || (65 <=? c) && (c <=? 90))%N.

Definition digit_code (c : char) : bool := ((48 <=? c) && (c <=? 57))%N.

Definition hex_code (c : char) : bool :=
  (digit_code c || (97 <=? c) && (c <=? 102) || (65 <=? c) && (c <=? 70))%N.

(** The characters a name begins with, and those it goes on with. *)
Definition name_start (c : char) : bool :=
  (letter c || (c =? 36) || (c =? 95))%N.

Definition name_part (c : char) : bool := name_start c || digit_code c.

(** One or more decimal digits. *)
Definition digits (l : list char) : bool :=
  negb (is_nil l) && forallb digit_code l.

(** The decimal numeral of a number. *)
Definition decimal (n : nat) : String.string :=
  NilZero.string_of_uint (Nat.to_uint n).

(** ** Strings *)

(** The text of a quote character. *)
Definition quote_text (q : char) : String.string :=
  String (ascii_of_N q) EmptyString.

(** A character that stands for itself in a string quoted by [q]: not
    the quote, not a backslash, not a line feed. *)
Definition plain_char (q c : char) : bool :=
  (negb (c =? q) && negb (c =? 92) && negb (c =? 10))%N.

(** A token between the quotes: it begins with a backslash, or all its
    characters stand for themselves. *)
Definition fragment (q : char) (t : token) : bool :=
  match codes t with
  | [] => false
  | c :: cs => (c =? 92)%N || forallb (plain_char q) (c :: cs)
  end.

(** ** Definitions and statements *)

(** The keywords that may stand between the type and the name of a state
    variable. *)
Definition state_variable_keywords : list token :=
  ["public"; "internal"; "private"; "external"; "constant"; "immutable";
   "override"].

(** One argument of a call: the rule that [_call_arguments] hands to
    [commaSep]. *)
Definition call_argument : rule :=
  choice [$_expression; seq [STRING "{"; commaSep $identifier; STRING "}"]].

(** The keywords that may follow the parameter list of a function, and
    the node each of them builds. *)
Definition function_keywords : list token :=
  ["public"; "internal"; "private"; "external"; "pure"; "view"; "payable";
   "virtual"; "override"].

Definition keyword_kind (s : token) : sym :=
  if existsb (String.eqb s) ["public"; "internal"; "private"; "external"]
  then visibility
  else if existsb (String.eqb s) ["pure"; "view"; "payable"]
  then state_mutability
  else if String.eqb s "virtual" then virtual
  else override_specifier.

Definition node_kind (t : node) : option kind :=
  match t with
  | Leaf _ => None
  | Node k _ => Some k
  end.

(** The heads of a fallback or receive function. *)
Definition fallback_heads : list (list token) :=
  [["fallback"]; ["receive"]; ["function"; "fallback"];
   ["function"; "receive"]; ["function"]].

Definition is_catch_clause (n : sym) : bool :=
  match n with catch_clause => true | _ => false end.

(** [ends_with x l]: the last token of [l] is [x]. *)
Definition ends_with (x : token) (l : list token) : Prop :=
  exists p, l = (p ++ [x])%list.

(** ** The matcher decides the language of a regular expression *)

Lemma nullable_lang r : nullable r = true -> lang r [].
Proof.
  induction r as [| | |r1 IH1 r2 IH2|r1 IH1 r2 IH2|r IH]; simpl;
    try discriminate; intros H.
  - constructor.
  - apply andb_prop in H. destruct H as [H1 H2].
    apply (lang_cat r1 r2 [] []); auto.
  - apply orb_prop in H. destruct H as [H|H].
    + apply lang_alt_l; auto.
    + apply lang_alt_r; auto.
  - constructor.
Qed.

Lemma deriv_lang c r : forall w, lang (deriv c r) w -> lang r (c :: w).
Proof.
  induction r as [| |neg rs|r1 IH1 r2 IH2|r1 IH1 r2 IH2|r IH];
    simpl; intros w H.
  - inversion H.
  - inversion H.
  - destruct (in_class neg rs c) eqn:E; inversion H; subst.
    now constructor.
  - assert (K : forall w, lang (Cat (deriv c r1) r2) w ->
                          lang (Cat r1 r2) (c :: w)).
    { intros w' H'. inversion H'; subst.
      apply (lang_cat r1 r2 (c :: w1) w2); auto. }
    destruct (nullable r1) eqn:N; [|now apply K].
    inversion H; subst; [now apply K|].
    apply (lang_cat r1 r2 [] (c :: w)); auto using nullable_lang.
  - inversion H; subst.
    + apply lang_alt_l; auto.
    + apply lang_alt_r; auto.
  - inversion H; subst.
    apply (lang_star_cons r (c :: w1) w2); auto.
Qed.

Lemma matches_codes_sound w : forall r, matches_codes r w = true -> lang r w.
Proof.
  induction w as [|c w IH]; simpl; intros r H.
  - now apply nullable_lang.
  - apply deriv_lang. now apply IH.
Qed.

Lemma lang_nullable r w : lang r w -> w = [] -> nullable r = true.
Proof.
  induction 1; simpl; intros E; try reflexivity; try discriminate.
  - apply app_eq_nil in E. destruct E. now rewrite IHlang1, IHlang2.
  - now rewrite IHlang.
  - rewrite IHlang; auto using orb_true_r.
Qed.

Lemma lang_deriv r x :
  lang r x -> forall c w, x = c :: w -> lang (deriv c r) w.
Proof.
  induction 1 as [|neg rs c0 E|r1 r2 w1 w2 H1 IH1 H2 IH2|r1 r2 w0 H IH
                 |r1 r2 w0 H IH| |r w1 w2 H1 IH1 H2 IH2];
    intros c w X; simpl.
  - discriminate.
  - injection X as -> <-. rewrite E. constructor.
  - destruct w1 as [|c1 w1]; simpl in X.
    + rewrite (lang_nullable r1 [] H1 eq_refl).
      apply lang_alt_r. now apply IH2.
    + injection X as -> <-.
      assert (K : lang (Cat (deriv c r1) r2) (w1 ++ w2))
        by (constructor; auto).
      destruct (nullable r1); [now apply lang_alt_l | exact K].
  - apply lang_alt_l. now apply IH.
  - apply lang_alt_r. now apply IH.
  - discriminate.
  - destruct w1 as [|c1 w1]; simpl in X.
    + now apply IH2.
    + injection X as -> <-. constructor; auto.
Qed.

Lemma matches_codes_complete r w : lang r w -> matches_codes r w = true.
Proof.
  revert r. induction w as [|c w IH]; simpl; intros r H.
  - exact (lang_nullable r [] H eq_refl).
  - apply IH. exact (lang_deriv r (c :: w) H c w eq_refl).
Qed.

Theorem matches_codes_spec r w : matches_codes r w = true <-> lang r w.
Proof.
  split; [apply matches_codes_sound | apply matches_codes_complete].
Qed.

(** ** Inversion of derivations *)

Lemma valid_blank_inv d : valid BLANK d = true -> d = DBlank.
Proof. destruct d; simpl; congruence. Qed.

Lemma valid_string_inv s d : valid (STRING s) d = true -> d = DTok s.
Proof.
  destruct d; simpl; try discriminate.
  intros H. apply String.eqb_eq in H. now subst.
Qed.

Lemma valid_pattern_inv re d :
  valid (PATTERN re) d = true -> exists w, d = DTok w /\ matches re w = true.
Proof. destruct d; simpl; try discriminate. eauto. Qed.

Lemma valid_token_inv c d :
  valid (TOKEN c) d = true -> exists w, d = DTok w /\ token_matches c w = true.
Proof. destruct d; simpl; try discriminate. eauto. Qed.

Lemma valid_symbol_inv n d :
  valid (SYMBOL n) d = true ->
  exists d', d = DSym d' /\ valid (Solidity.rules n) d' = true.
Proof. destruct d; simpl; try discriminate. eauto. Qed.

Lemma valid_seq_nil_inv d : valid (SEQ []) d = true -> d = DSeq [].
Proof.
  destruct d as [| | |ds| | |]; simpl; try discriminate.
  destruct ds; congruence.
Qed.

Lemma valid_seq_cons_inv r rs d :
  valid (SEQ (r :: rs)) d = true ->
  exists d1 ds,
    d = DSeq (d1 :: ds) /\ valid r d1 = true /\ valid (SEQ rs) (DSeq ds) = true.
Proof.
  destruct d as [| | |ds| | |]; simpl; try discriminate.
  destruct ds as [|d1 ds]; try discriminate.
  intros H. apply andb_prop in H. destruct H as [H1 H2].
  exists d1, ds. auto.
Qed.

Lemma valid_choice_inv rs d :
  valid (CHOICE rs) d = true ->
  exists i d' r',
    d = DAlt i d' /\ nth_error rs i = Some r' /\ valid r' d' = true.
Proof.
  destruct d as [| | | |i d'| |]; simpl; try discriminate.
  destruct (nth_error rs i) as [r'|] eqn:E; try discriminate.
  intros H. exists i, d', r'. auto.
Qed.

Lemma valid_repeat_inv c d :
  valid (REPEAT c) d = true ->
  exists ds, d = DRep ds /\ forallb (valid c) ds = true.
Proof. destruct d; simpl; try discriminate. eauto. Qed.

Lemma valid_repeat1_inv c d :
  valid (REPEAT1 c) d = true ->
  exists d1 ds,
    d = DRep (d1 :: ds) /\ valid c d1 = true /\ forallb (valid c) ds = true.
Proof.
  destruct d as [| | | | |ds|]; simpl; try discriminate.
  destruct ds as [|d1 ds]; simpl; try discriminate.
  intros H. apply andb_prop in H. destruct H. eauto.
Qed.

Lemma valid_prec_inv a p c d :
  valid (PRECEDENCE a p c) d = true ->
  exists d', d = DWrap d' /\ valid c d' = true.
Proof. destruct d; simpl; try discriminate. eauto. Qed.

Lemma valid_field_inv f c d :
  valid (FIELD f c) d = true -> exists d', d = DWrap d' /\ valid c d' = true.
Proof. destruct d; simpl; try discriminate. eauto. Qed.

Lemma valid_alias_inv a c d :
  valid (ALIAS c a) d = true -> exists d', d = DWrap d' /\ valid c d' = true.
Proof. destruct d; simpl; try discriminate. eauto. Qed.

(** [norm_rule H] evaluates the rule of [H : valid r d = true]. *)
Ltac norm_rule H :=
  match type of H with
  | valid ?r ?d = true =>
      let r' := eval cbv in r in change (valid r' d = true) in H
  end.

(** The members of a [choice], one case per member. *)
Ltac choice_cases i E :=
  repeat (destruct i as [|i]; simpl in E;
          [ injection E as <- | ]);
  try (destruct i; discriminate E).

(** One inversion step on [H : valid r d = true], by the shape of [r]. *)
Ltac inv1 H :=
  norm_rule H;
  lazymatch type of H with
  | valid BLANK _ = true => apply valid_blank_inv in H; subst
  | valid (STRING _) _ = true => apply valid_string_inv in H; subst
  | valid (PATTERN _) _ = true =>
      let w := fresh "w" in
      apply valid_pattern_inv in H; destruct H as (w & -> & H)
  | valid (TOKEN _) _ = true =>
      let w := fresh "w" in
      apply valid_token_inv in H; destruct H as (w & -> & H)
  | valid (SYMBOL _) _ = true =>
      let d := fresh "d" in
      apply valid_symbol_inv in H; destruct H as (d & -> & H)
  | valid (SEQ []) _ = true =>
      apply valid_seq_nil_inv in H; first [ injection H as -> | subst ]
  | valid (SEQ (_ :: _)) (DSeq _) = true =>
      let d := fresh "d" in let ds := fresh "ds" in
      let H1 := fresh "V" in let Hd := fresh "Hd" in
      apply valid_seq_cons_inv in H; destruct H as (d & ds & Hd & H1 & H);
      injection Hd as ->
  | valid (SEQ (_ :: _)) _ = true =>
      let d := fresh "d" in let ds := fresh "ds" in
      let H1 := fresh "V" in
      apply valid_seq_cons_inv in H; destruct H as (d & ds & -> & H1 & H)
  | valid (CHOICE _) _ = true =>
      let i := fresh "i" in let d := fresh "d" in
      let r := fresh "r" in let E := fresh "E" in
      apply valid_choice_inv in H; destruct H as (i & d & r & -> & E & H);
      choice_cases i E
  | valid (REPEAT _) _ = true =>
      let ds := fresh "ds" in
      apply valid_repeat_inv in H; destruct H as (ds & -> & H)
  | valid (REPEAT1 _) _ = true =>
      let d := fresh "d" in let ds := fresh "ds" in
      let H1 := fresh "V" in
      apply valid_repeat1_inv in H; destruct H as (d & ds & -> & H1 & H)
  | valid (PRECEDENCE _ _ _) _ = true =>
      let d := fresh "d" in
      apply valid_prec_inv in H; destruct H as (d & -> & H)
  | valid (FIELD _ _) _ = true =>
      let d := fresh "d" in
      apply valid_field_inv in H; destruct H as (d & -> & H)
  | valid (ALIAS _ _) _ = true =>
      let d := fresh "d" in
      apply valid_alias_inv in H; destruct H as (d & -> & H)
  end.

(** Inversion of everything but symbols, patterns and repetitions. *)
Ltac inv_body :=
  repeat match goal with
    | H : valid ?r _ = true |- _ =>
        lazymatch r with
        | SYMBOL _ => fail
        | PATTERN _ => fail
        | REPEAT _ => fail
        | TOKEN _ => fail
        | IMMEDIATE_TOKEN _ => fail
        | _ => inv1 H
        end
    end.

(** Inversion of the rule a symbol names. *)
Ltac inv_sym H := inv1 H; inv_body.

(** Act on the hypothesis that a symbol derives something. *)
Ltac on_sym n tac :=
  match goal with
  | H : valid (SYMBOL n) _ = true |- _ => tac H
  end.

(** ** Token sequences *)

Lemma cons_eq_inv {A : Type} (a b : A) (l m : list A) :
  a :: l = b :: m -> a = b /\ l = m.
Proof. intros H. injection H. auto. Qed.

(** A disjunct that holds by reflexivity. *)
Ltac find_disjunct :=
  solve [ reflexivity | assumption | left; find_disjunct
        | right; find_disjunct ].

(** A token that stands in a concatenation by name. *)
Ltac find_in :=
  repeat (progress (rewrite ?in_app_iff; simpl)); find_disjunct.

(** [Y] says that a yield holding the token [T] is a list without [T]. *)
Ltac absent T Y :=
  let K := fresh "K" in
  match type of Y with
  | _ = ?ts => assert (K : In T ts) by (rewrite <- Y; find_in)
  end;
  simpl in K; intuition discriminate.

(** [l ++ x = ts] with [ts] known leaves one case per prefix [l] of [ts]. *)
Ltac split_prefix l Y :=
  repeat (destruct l as [|?t l]; simpl in Y;
          [ | first [ discriminate Y | injection Y as -> Y ] ]).



Ltac validate :=
  simpl;
  repeat match goal with
    | H : valid _ _ = true |- _ => rewrite H
    end;
  reflexivity.

(** ** Shapes of some rules *)

Lemma identifier_inv d :
  valid $identifier d = true ->
  exists w, d = DSym (DTok w) /\ matches Solidity.Re.identifier w = true.
Proof. intros H. inv_sym H. eauto. Qed.

Ltac use_identifier :=
  match goal with
  | H : valid $identifier _ = true |- _ =>
      let w := fresh "w" in let Hw := fresh "Hw" in
      apply identifier_inv in H; destruct H as (w & -> & Hw)
  end.

Lemma semicolon_inv d : valid $_semicolon d = true -> d = DSym (DTok ";").
Proof. intros H. inv_sym H. reflexivity. Qed.

Lemma parameter_list_first d :
  valid $_parameter_list d = true -> exists rest, yield d = "(" :: rest.
Proof. intros H. inv_sym H; simpl; eauto. Qed.

Lemma block_statement_first d :
  valid $block_statement d = true -> exists rest, yield d = "{" :: rest.
Proof. intros H. inv_sym H; simpl; eauto. Qed.

Lemma expression_node d :
  valid $_expression d = true ->
  exists n d',
    In n expression_kinds /\
    cst $_expression d = [(None, Node (Rule n) (cst (Solidity.rules n) d'))].
Proof.
  intros H. inv_sym H;
    match goal with V : valid (SYMBOL ?n) _ = true |- _ =>
      inv1 V; exists n; eexists; split; [simpl; tauto | reflexivity]
    end.
Qed.

(** An expression is one node of the parse tree. *)
Lemma expression_items d :
  valid $_expression d = true ->
  exists a p its, items $_expression d = [PNode _expression a p its].
Proof. intros H. inv1 H. simpl. eauto. Qed.

Lemma primitive_type_yield d :
  valid $_primitive_type d = true ->
  exists w, yield d = [w] \/ yield d = [w; "payable"].
Proof.
  intros H. inv_sym H;
    try match goal with V : valid (SYMBOL _) _ = true |- _ => inv_sym V end;
    try match goal with V : valid (PATTERN _) _ = true |- _ => inv1 V end;
    simpl; eauto.
Qed.

Lemma user_defined_type_yield d :
  valid $_user_defined_type d = true ->
  exists w, yield d = [w] \/ exists rest, yield d = w :: "." :: rest.
Proof.
  intros H. inv_sym H. use_identifier.
  match goal with V : valid (REPEAT _) _ = true |- _ =>
    inv1 V; rename V into R end.
  exists w.
  match type of R with forallb _ ?l = true =>
    destruct l as [|r1 l]; [now left|] end.
  right. simpl in R. apply andb_prop in R. destruct R as [R _].
  inv_body. simpl. eauto.
Qed.

(** ** Comments and blanks *)

Lemma lang_lit_inv s w : lang (lit s) w -> w = codes s.
Proof.
  unfold lit. generalize (codes s) as cs. intros cs. revert w.
  induction cs as [|c cs IH]; simpl; intros w H.
  - now inversion H.
  - inversion H as [| |r1 r2 w1 w2 H1 H2| | | |]; subst.
    inversion H1 as [|neg rs c0 E| | | | |]; subst.
    unfold in_class, in_range in E. simpl in E.
    rewrite orb_false_r in E. apply andb_prop in E. destruct E as [E1 E2].
    apply N.leb_le in E1, E2. assert (c0 = c) by lia. subst.
    simpl. f_equal. now apply IH.
Qed.

Lemma rest_of_line_no_line_feed w :
  lang Solidity.Re.rest_of_line w -> ~ In 10%N w.
Proof.
  unfold Solidity.Re.rest_of_line.
  remember (Star dot) as r eqn:R. induction 1; try discriminate.
  - intros [].
  - inversion R; subst. specialize (IHlang2 eq_refl).
    intros I. apply in_app_or in I. destruct I as [I|I]; [|auto].
    inversion H as [|neg rs c E| | | | |]; subst.
    destruct I as [->|[]]. discriminate E.
Qed.

Lemma comment_lexical :
  lexical (Solidity.rules comment) = Some comment_regex.
Proof. reflexivity. Qed.

(** No comment token holds a line feed. *)
Lemma comment_on_one_line w :
  valid $comment (DSym (DTok w)) = true -> ~ In 10%N (codes w).
Proof.
  simpl. unfold token_matches.
  change (lexical _) with (lexical (Solidity.rules comment)).
  rewrite comment_lexical. unfold matches.
  intros H. apply matches_codes_sound in H. unfold comment_regex in H.
  inversion H as [| | |r1 r2 w0 H1|r1 r2 w0 H1| |]; subst; clear H.
  - inversion H1 as [| |r1 r2 w1 w2 L R| | | |]; subst.
    apply lang_lit_inv in L. subst.
    inversion R as [| |r1 r2 w3 w4 R1 R2| | | |]; subst.
    inversion R2; subst. apply rest_of_line_no_line_feed in R1.
    intros I. apply in_app_or in I. destruct I as [I|I].
    + simpl in I. intuition discriminate.
    + rewrite app_nil_r in I. auto.
  - inversion H1 as [| | |r1 r2 w0' K|r1 r2 w0' K| |]; subst;
      [|inversion K].
    inversion K as [| |r1 r2 w1 w2 L R| | | |]; subst.
    apply lang_lit_inv in L. subst.
    inversion R as [| |r1 r2 w3 w4 R1 R2| | | |]; subst.
    inversion R2 as [| |r1 r2 w5 w6 R3 R4| | | |]; subst.
    apply lang_lit_inv in R3. inversion R4; subst.
    apply rest_of_line_no_line_feed in R1.
    intros I. apply in_app_or in I. destruct I as [I|I].
    + simpl in I. intuition discriminate.
    + apply in_app_or in I. destruct I as [I|I]; [auto|].
      simpl in I. intuition discriminate.
Qed.

(** C9: a block comment whose body spans two lines is not matched by the
    [comment] token, so it is no extra; comments on one line and the
    blank characters are. *)
Theorem multi_line_block_comment_not_extra :
  extra Example.two_line_comment = false /\
  (forall w, valid $comment (DSym (DTok w)) = true ->
             ~ In 10%N (codes w)) /\
  extra "// a" = true /\ extra "/* a */" = true /\ extra " " = true /\
  forallb blank_code [65279; 8288; 8203; 160]%N = true.
Proof.
  split; [reflexivity|]. split; [exact comment_on_one_line|].
  repeat split.
Qed.

(** ** Pragma directives *)

Lemma pragma_directive_shape d :
  valid $pragma_directive d = true ->
  exists rest, yield d = "pragma" :: "solidity" :: rest.
Proof. intros H. inv_sym H. simpl. eauto. Qed.

(** C10: every pragma directive begins with the tokens [pragma]
    [solidity]; [pragma solidity;], with no version constraint, parses,
    and [pragma experimental ABIEncoderV2;] is not a pragma directive. *)
Theorem pragma_directive_is_solidity :
  (forall d, valid $pragma_directive d = true ->
             exists rest, yield d = "pragma" :: "solidity" :: rest) /\
  parses $pragma_directive Example.pragma_tokens Example.pragma_plain /\
  ~ accepts $pragma_directive Example.experimental_tokens.
Proof.
  split; [exact pragma_directive_shape|]. split.
  - repeat split.
  - intros (d & V & Y). apply pragma_directive_shape in V.
    destruct V as (rest & E). rewrite E in Y. discriminate Y.
Qed.

Lemma pragma_directive_is_solidity_witness :
  valid $pragma_directive Example.pragma_plain = true /\
  exists rest, yield Example.pragma_plain = "pragma" :: "solidity" :: rest.
Proof.
  split; [reflexivity|].
  apply (proj1 pragma_directive_is_solidity). reflexivity.
Defined.

(** ** Catch clauses *)

Lemma catch_clause_shape d :
  valid $catch_clause d = true ->
  exists rest,
    yield d = "catch" :: "{" :: rest \/
    yield d = "catch" :: "(" :: rest \/
    exists w, matches Solidity.Re.identifier w = true /\
              yield d = "catch" :: w :: "(" :: rest.
Proof.
  intros H. inv_sym H.
  - apply identifier_inv in V2. destruct V2 as (w & -> & Hw).
    apply parameter_list_first in V3. destruct V3 as (r1 & E1).
    simpl. rewrite E1. simpl. eauto 6.
  - apply parameter_list_first in V3. destruct V3 as (r1 & E1).
    simpl. rewrite E1. simpl. eauto.
  - apply block_statement_first in V1. destruct V1 as (r1 & E1).
    simpl. rewrite E1. simpl. eauto.
Qed.

(** C3, as the claim states it: a catch clause that names an error and
    takes no parameter list is not accepted. *)
Lemma catch_name_without_parameters_rejected :
  ~ accepts $catch_clause Example.catch_name_only_tokens.
Proof.
  intros (d & V & Y). apply catch_clause_shape in V.
  destruct V as (rest & [E | [E | (w & _ & E)]]);
    rewrite E in Y; discriminate Y.
Qed.

(** C3, amended: a catch clause is [catch], an optional parameter list
    that alone may be preceded by an error name, and a block.  The forms
    [catch {..}], [catch (params) {..}] and [catch Name (params) {..}]
    parse; after [catch] comes the block, the parameter list, or a name
    followed by the parameter list. *)
Theorem catch_clause_forms :
  parses $catch_clause Example.catch_bare_tokens Example.catch_bare /\
  parses $catch_clause Example.catch_params_tokens Example.catch_params /\
  parses $catch_clause Example.catch_named_tokens Example.catch_named /\
  (forall d, valid $catch_clause d = true ->
     exists rest,
       yield d = "catch" :: "{" :: rest \/
       yield d = "catch" :: "(" :: rest \/
       exists w, matches Solidity.Re.identifier w = true /\
                 yield d = "catch" :: w :: "(" :: rest).
Proof.
  repeat split; try reflexivity. exact catch_clause_shape.
Qed.

Lemma catch_clause_forms_witness :
  valid $catch_clause Example.catch_named = true /\
  exists rest,
    yield Example.catch_named = "catch" :: "{" :: rest \/
    yield Example.catch_named = "catch" :: "(" :: rest \/
    exists w, matches Solidity.Re.identifier w = true /\
              yield Example.catch_named = "catch" :: w :: "(" :: rest.
Proof.
  split; [reflexivity|].
  apply (proj2 (proj2 (proj2 catch_clause_forms))). reflexivity.
Defined.

(** ** Struct and enum bodies *)

Lemma struct_member_nonempty d :
  valid $struct_member d = true -> yield d <> [].
Proof.
  intros H. inv_sym H. on_sym _semicolon ltac:(fun V => apply semicolon_inv in V; subst).
  simpl.
  intros E. apply app_eq_nil in E. destruct E as [_ E].
  apply app_eq_nil in E. destruct E as [_ E]. discriminate E.
Qed.

Lemma struct_declaration_members d :
  valid $struct_declaration d = true ->
  exists root m ms,
    cst $struct_declaration d = [(None, root)] /\
    filter (named is_struct_member) (node_children root) = m :: ms.
Proof.
  intros H. inv_sym H. use_identifier.
  on_sym struct_member ltac:(fun V => inv1 V). eexists. simpl. do 2 eexists. split; reflexivity.
Qed.

Lemma struct_without_members_rejected :
  ~ accepts $struct_declaration Example.struct_empty_tokens.
Proof.
  intros (d & V & Y). inv_sym V. use_identifier.
  on_sym struct_member ltac:(fun V => apply struct_member_nonempty in V; rename V into N).
  simpl in Y. injection Y as _ Y.
  match type of N with yield ?m <> [] =>
    destruct (yield m) as [|t ts]; [now apply N|] end.
  simpl in Y. injection Y as _ Y.
  apply app_eq_nil in Y. destruct Y as [_ Y]. discriminate Y.
Qed.

(** C4, as the claim states it: an enum declaration with zero values is
    accepted, and its node has no [enum_value]. *)
Lemma enum_without_values_accepted :
  exists d root,
    parses $enum_declaration Example.enum_empty_tokens d /\
    cst $enum_declaration d = [(None, root)] /\
    field_of "enum_value" root = [].
Proof.
  exists Example.enum_empty. eexists. repeat split.
Qed.

(** C4, amended: every struct declaration has at least one member, and a
    struct with zero members is rejected; an enum declaration may have
    zero values. *)
Theorem struct_body_nonempty_enum_body_may_be_empty :
  (forall d, valid $struct_declaration d = true ->
     exists root m ms,
       cst $struct_declaration d = [(None, root)] /\
       filter (named is_struct_member) (node_children root) = m :: ms) /\
  ~ accepts $struct_declaration Example.struct_empty_tokens /\
  parses $enum_declaration Example.enum_empty_tokens Example.enum_empty.
Proof.
  split; [exact struct_declaration_members|].
  split; [exact struct_without_members_rejected|].
  repeat split.
Qed.

Lemma struct_body_nonempty_enum_body_may_be_empty_witness :
  valid $struct_declaration Example.struct_one = true /\
  exists root m ms,
    cst $struct_declaration Example.struct_one = [(None, root)] /\
    filter (named is_struct_member) (node_children root) = m :: ms.
Proof.
  split; [reflexivity|].
  apply (proj1 struct_body_nonempty_enum_body_may_be_empty). reflexivity.
Defined.

(** ** Variable declaration statements *)

Lemma declaration_tuple_sole_use n :
  mentions is_declaration_tuple (Solidity.rules n) = true ->
  n = variable_declaration_statement.
Proof. destruct n; vm_compute; congruence. Qed.

Lemma declaration_tuple_initialized d root :
  valid $variable_declaration_statement d = true ->
  cst $variable_declaration_statement d = [(None, root)] ->
  existsb (named is_declaration_tuple) (node_children root) = true ->
  exists t e,
    yield d = (t ++ "=" :: e ++ [";"])%list /\
    accepts $variable_declaration_tuple t /\ accepts $_expression e.
Proof.
  intros H C T. inv_sym H;
    on_sym _semicolon ltac:(fun V => apply semicolon_inv in V; subst).
  - (* a single declaration with an initializer *)
    exfalso.
    on_sym variable_declaration ltac:(fun V => inv1 V).
    on_sym _expression ltac:(fun V =>
      destruct (expression_node _ V) as (n & d' & K & E)).
    simpl in C. rewrite E in C. simpl in C. injection C as <-.
    simpl in K. simpl in T.
    repeat (destruct K as [<-|K]; [discriminate T|]). exact K.
  - (* a single declaration without initializer *)
    exfalso.
    on_sym variable_declaration ltac:(fun V => inv1 V).
    simpl in C. injection C as <-. discriminate T.
  - (* a tuple of declarations *)
    match goal with
    | V1 : valid $variable_declaration_tuple ?dt = true,
      V2 : valid $_expression ?de = true |- _ =>
        exists (yield dt), (yield de); split; [|split];
        [ simpl; now rewrite !app_nil_r, <- app_assoc
        | exists dt; auto | exists de; auto ]
    end.
Qed.

Lemma bare_declaration_tuple_rejected :
  ~ accepts $variable_declaration_statement Example.bare_tuple_tokens.
Proof.
  assert (N : ~ In "=" Example.bare_tuple_tokens)
    by (simpl; intuition discriminate).
  intros (d & V & Y). inv_sym V;
    on_sym _semicolon ltac:(fun V => apply semicolon_inv in V; subst).
  - apply N. rewrite <- Y. simpl. rewrite !in_app_iff. simpl. tauto.
  - on_sym variable_declaration ltac:(fun V => inv_sym V); use_identifier;
      simpl in Y; apply (f_equal (@rev token)) in Y;
      rewrite ?rev_app_distr in Y; simpl in Y;
      injection Y as -> _; discriminate Hw.
  - apply N. rewrite <- Y. simpl. rewrite !in_app_iff. simpl. tauto.
Qed.

(** C7: a [variable_declaration_tuple] occurs only in a variable
    declaration statement, where [=] and an expression follow it; the
    statement [(uint a, uint b);] is rejected, and the single declaration
    [uint a;] parses without initializer. *)
Theorem variable_declaration_tuple_requires_initializer :
  (forall d root,
     valid $variable_declaration_statement d = true ->
     cst $variable_declaration_statement d = [(None, root)] ->
     existsb (named is_declaration_tuple) (node_children root) = true ->
     exists t e,
       yield d = (t ++ "=" :: e ++ [";"])%list /\
       accepts $variable_declaration_tuple t /\ accepts $_expression e) /\
  (forall n, mentions is_declaration_tuple (Solidity.rules n) = true ->
             n = variable_declaration_statement) /\
  ~ accepts $variable_declaration_statement Example.bare_tuple_tokens /\
  parses $variable_declaration_statement Example.single_declaration_tokens
         Example.single_declaration.
Proof.
  split; [exact declaration_tuple_initialized|].
  split; [exact declaration_tuple_sole_use|].
  split; [exact bare_declaration_tuple_rejected|].
  repeat split.
Qed.

Lemma variable_declaration_tuple_requires_initializer_witness :
  exists t e,
    yield Example.tuple_declaration = (t ++ "=" :: e ++ [";"])%list /\
    accepts $variable_declaration_tuple t /\ accepts $_expression e.
Proof.
  eapply (proj1 variable_declaration_tuple_requires_initializer);
    reflexivity.
Defined.

(** ** Mapping types *)

Lemma mapping_key_kinds d :
  valid $_mapping_key d = true ->
  accepts $_primitive_type (yield d) \/ accepts $_user_defined_type (yield d).
Proof.
  intros H. inv_sym H;
    match goal with
    | V : valid $_primitive_type ?k = true |- _ => left; exists k; auto
    | V : valid $_user_defined_type ?k = true |- _ => right; exists k; auto
    end.
Qed.

Lemma mapping_shape d :
  valid $_mapping d = true ->
  exists k v,
    yield d = ("mapping" :: "(" :: k ++ "=>" :: v ++ [")"])%list /\
    (accepts $_primitive_type k \/ accepts $_user_defined_type k) /\
    accepts $type_name v.
Proof.
  intros H. inv_sym H.
  match goal with
  | V1 : valid $_mapping_key ?dk = true,
    V2 : valid $type_name ?dv = true |- _ =>
      exists (yield dk), (yield dv); split; [|split];
      [ reflexivity | now apply mapping_key_kinds | exists dv; auto ]
  end.
Qed.

Lemma mapping_built k v :
  accepts $_primitive_type k \/ accepts $_user_defined_type k ->
  accepts $type_name v ->
  accepts $_mapping ("mapping" :: "(" :: k ++ "=>" :: v ++ [")"])%list.
Proof.
  intros [(dk & Vk & <-) | (dk & Vk & <-)] (dv & Vv & <-).
  - exists (DSym (DSeq [DTok "mapping"; DTok "("; DSym (DAlt 0 dk);
                        DTok "=>"; dv; DTok ")"])).
    split; [|reflexivity]. simpl in *. now rewrite Vk, Vv.
  - exists (DSym (DSeq [DTok "mapping"; DTok "("; DSym (DAlt 1 dk);
                        DTok "=>"; dv; DTok ")"])).
    split; [|reflexivity]. simpl in *. now rewrite Vk, Vv.
Qed.

(** A mapping is no key of a mapping. *)
Lemma mapping_key_not_mapping :
  ~ accepts $_mapping Example.mapping_keyed_tokens.
Proof.
  intros (d & V & Y). apply mapping_shape in V.
  destruct V as (k & v & E & K & _). rewrite E in Y. clear E d.
  unfold Example.mapping_keyed_tokens in Y. injection Y as Y.
  assert (L : exists t1 t2 t3 rest,
             k = t1 :: t2 :: t3 :: rest /\ t2 = "(").
  { split_prefix k Y; try discriminate Y; eauto 8. }
  destruct L as (t1 & t2 & t3 & rest & -> & ->).
  destruct K as [(dk & Vk & Yk) | (dk & Vk & Yk)].
  - apply primitive_type_yield in Vk. destruct Vk as (w & [Ew | Ew]);
      rewrite Ew in Yk; discriminate Yk.
  - apply user_defined_type_yield in Vk.
    destruct Vk as (w & [Ew | (r & Ew)]); rewrite Ew in Yk;
      discriminate Yk.
Qed.

(** C8: the key of a mapping is a primitive or a user-defined type, its
    value any type name, and nothing else is a mapping (a mapping is no
    key); [mapping(address => uint256)] parses with key [address] and
    value [uint256], and in [mapping(address => mapping(uint => bool))]
    the inner mapping is the value type. *)
Theorem mapping_key_restricted_value_arbitrary :
  (forall d, valid $_mapping d = true ->
     exists k v,
       yield d = ("mapping" :: "(" :: k ++ "=>" :: v ++ [")"])%list /\
       (accepts $_primitive_type k \/ accepts $_user_defined_type k) /\
       accepts $type_name v) /\
  (forall k v,
     accepts $_primitive_type k \/ accepts $_user_defined_type k ->
     accepts $type_name v ->
     accepts $_mapping ("mapping" :: "(" :: k ++ "=>" :: v ++ [")"])%list) /\
  ~ accepts $_mapping Example.mapping_keyed_tokens /\
  (parses $type_name Example.mapping_tokens Example.mapping_simple /\
   cst $type_name Example.mapping_simple =
     [(None, Node (Rule type_name)
        [(None, Leaf "mapping"); (None, Leaf "("); (None, Leaf "address");
         (None, Leaf "=>");
         (None, Node (Rule type_name) [(None, Leaf "uint256")]);
         (None, Leaf ")")])]) /\
  (parses $type_name Example.nested_tokens Example.mapping_nested /\
   cst $type_name Example.mapping_nested =
     [(None, Node (Rule type_name)
        [(None, Leaf "mapping"); (None, Leaf "("); (None, Leaf "address");
         (None, Leaf "=>");
         (None, Node (Rule type_name)
            [(None, Leaf "mapping"); (None, Leaf "("); (None, Leaf "uint");
             (None, Leaf "=>");
             (None, Node (Rule type_name) [(None, Leaf "bool")]);
             (None, Leaf ")")]);
         (None, Leaf ")")])]).
Proof.
  split; [exact mapping_shape|].
  split; [exact mapping_built|].
  split; [exact mapping_key_not_mapping|].
  repeat split.
Qed.

Lemma mapping_key_restricted_value_arbitrary_witness :
  exists k v,
    yield Example.mapping_body =
      ("mapping" :: "(" :: k ++ "=>" :: v ++ [")"])%list /\
    (accepts $_primitive_type k \/ accepts $_user_defined_type k) /\
    accepts $type_name v.
Proof.
  apply (proj1 mapping_key_restricted_value_arbitrary). reflexivity.
Defined.

(** ** Number literals *)

Lemma hex_digit_inv d :
  valid $_hex_digit d = true ->
  exists h, d = DSym (DTok h) /\ matches Solidity.Re.hex_digit h = true.
Proof. intros H. inv_sym H. eauto. Qed.

Lemma hex_tail_repeat ds :
  forallb (valid (SEQ [CHOICE [STRING "_"; BLANK]; $_hex_digit])) ds = true ->
  hex_tail (flat_map yield ds) = true.
Proof.
  induction ds as [|d ds IH]; simpl; [reflexivity|].
  intros H. apply andb_prop in H. destruct H as [V H].
  specialize (IH H). inv_body;
    on_sym _hex_digit ltac:(fun V =>
      apply hex_digit_inv in V; destruct V as (h & -> & Hh)).
  - simpl. now rewrite Hh, IH.
  - simpl. destruct (String.eqb h "_") eqn:E.
    + apply String.eqb_eq in E. subst h. discriminate Hh.
    + now rewrite Hh, IH.
Qed.

Lemma number_unit_inv d :
  valid $number_unit d = true ->
  exists u, yield d = [u] /\ In u Solidity.unit_names.
Proof.
  intros H. inv_sym H; eexists; (split; [reflexivity|]); simpl; tauto.
Qed.

Lemma number_literal_shape d :
  valid $number_literal d = true ->
  exists body suffix,
    yield d = (body ++ suffix)%list /\
    (decimal_shape body \/ hex_shape body) /\ unit_suffix suffix.
Proof.
  intros H. inv_sym H;
    try on_sym number_unit ltac:(fun V =>
      apply number_unit_inv in V; destruct V as (u & Yu & Hu));
    try on_sym decimal_number ltac:(fun V => inv_sym V);
    try on_sym hex_number ltac:(fun V => inv_sym V);
    repeat match goal with V : valid (PATTERN _) _ = true |- _ => inv1 V end;
    try on_sym _hex_digit ltac:(fun V =>
      apply hex_digit_inv in V; destruct V as (h & -> & Hh));
    try match goal with V : valid (REPEAT _) _ = true |- _ =>
      inv1 V; apply hex_tail_repeat in V end;
    simpl; rewrite ?Yu, ?app_nil_r.
  - exists [w0; w], [u]. split; [reflexivity|]. split.
    + left. exists w0. split; [exact V0|]. right. exists w. auto.
    + right. eauto.
  - exists [w], [u]. split; [reflexivity|]. split.
    + left. exists w. split; [exact V0|]. now left.
    + right. eauto.
  - exists ("0x" :: h :: flat_map yield ds), [u]. split; [reflexivity|]. split.
    + right. eexists. split; [reflexivity|]. simpl. now rewrite Hh.
    + right. eauto.
  - exists ["0x"], [u]. split; [reflexivity|]. split.
    + right. exists []. auto.
    + right. eauto.
  - exists [w0; w], []. split; [reflexivity|]. split.
    + left. exists w0. split; [exact V0|]. right. exists w. auto.
    + now left.
  - exists [w], []. split; [reflexivity|]. split.
    + left. exists w. split; [exact V0|]. now left.
    + now left.
  - exists ("0x" :: h :: flat_map yield ds), [].
    split; [now rewrite app_nil_r|]. split.
    + right. eexists. split; [reflexivity|]. simpl. now rewrite Hh.
    + now left.
  - exists ["0x"], []. split; [reflexivity|]. split.
    + right. exists []. auto.
    + now left.
Qed.





(** ** Left-hand sides of assignments *)












(** ** Resolution of conflicts in productions of three and five items *)

Lemma resolved_unit al ar n a p m b q its :
  resolved al ar (PNode n a p [PNode m b q its]) =
  resolved al ar (PNode m b q its).
Proof. reflexivity. Qed.

Lemma resolved_three al ar n a p l op r :
  is_pnode l = true -> is_pnode r = true ->
  resolved al ar (PNode n a p [l; PTok op; r]) = true ->
  forallb (shift_allowed (a, p)) ar = true /\
  forallb (fun Q => reduce_allowed Q (a, p)) al = true /\
  resolved [(a, p)] ar l = true /\ resolved al [(a, p)] r = true.
Proof.
  destruct l, r; try discriminate. intros _ _ H.
  cbn [resolved starts_with_node ends_with_node is_pnode rev app is_nil] in H.
  repeat (apply andb_prop in H; destruct H as [H ?]).
  repeat match goal with
    | K : _ && _ = true |- _ => apply andb_prop in K; destruct K
    end.
  auto.
Qed.

Lemma resolved_five al ar n a p c q1 t q2 e :
  is_pnode c = true -> is_pnode e = true ->
  resolved al ar (PNode n a p [c; PTok q1; t; PTok q2; e]) = true ->
  forallb (shift_allowed (a, p)) ar = true /\
  forallb (fun Q => reduce_allowed Q (a, p)) al = true /\
  resolved [(a, p)] ar c = true /\ resolved al [(a, p)] e = true.
Proof.
  destruct c, e; try discriminate. intros _ _ H.
  cbn [resolved starts_with_node ends_with_node is_pnode rev app is_nil] in H.
  repeat (apply andb_prop in H; destruct H as [H ?]).
  repeat match goal with
    | K : _ && _ = true |- _ => apply andb_prop in K; destruct K
    end.
  auto.
Qed.

(** ** Binary expressions *)

Lemma binary_rules :
  Solidity.rules binary_expression =
  CHOICE (map binary_rule Solidity.binary_operators).
Proof. reflexivity. Qed.

Lemma binary_inv d :
  valid $binary_expression d = true ->
  exists i op p l r,
    nth_error Solidity.binary_operators i = Some (op, p) /\
    d = DSym (DAlt i (DWrap (DSeq [DWrap l; DWrap (DTok op); DWrap r]))) /\
    valid $_expression l = true /\ valid $_expression r = true.
Proof.
  intros H. apply valid_symbol_inv in H. destruct H as (d0 & -> & H).
  rewrite binary_rules in H. apply valid_choice_inv in H.
  destruct H as (i & d1 & r1 & -> & E & H).
  rewrite nth_error_map in E.
  destruct (nth_error Solidity.binary_operators i) as [[op p]|] eqn:O;
    try discriminate E.
  simpl in E. injection E as <-. inv_body.
  exists i, op, p. eauto 8.
Qed.

(** The expression [d] is a binary expression when its node is one. *)
Lemma expression_binary_inv d t :
  valid $_expression d = true ->
  cst $_expression d = [(None, t)] -> is_binary t = true ->
  exists i op p l r,
    nth_error Solidity.binary_operators i = Some (op, p) /\
    d = binary_derivation i op l r /\
    valid $_expression l = true /\ valid $_expression r = true.
Proof.
  intros H C B. inv_sym H;
    match goal with V : valid (SYMBOL ?n) ?k = true |- _ =>
      pose proof V as V'; inv1 V'; simpl in C; injection C as <-;
      try discriminate B
    end.
  match goal with V : valid $binary_expression _ = true |- _ =>
    apply binary_inv in V;
    destruct V as (i & op & p & l & r & O & E & Vl & Vr)
  end.
  injection E as ->. exists i, op, p, l, r. auto.
Qed.

Lemma binary_valid i op p l r :
  nth_error Solidity.binary_operators i = Some (op, p) ->
  valid $_expression l = true -> valid $_expression r = true ->
  valid $_expression (binary_derivation i op l r) = true.
Proof.
  intros O Vl Vr. unfold binary_derivation.
  change (valid $_expression (DSym (DAlt 0 (DSym ?b))))
    with (valid (Solidity.rules binary_expression) b).
  rewrite binary_rules. cbn [valid].
  rewrite (map_nth_error binary_rule i Solidity.binary_operators O).
  cbn [binary_rule prec_left seq field valid fst snd].
  now rewrite Vl, Vr, String.eqb_refl.
Qed.

Lemma binary_items i op p l r :
  nth_error Solidity.binary_operators i = Some (op, p) ->
  valid $_expression l = true -> valid $_expression r = true ->
  exists tl tr,
    is_pnode tl = true /\ is_pnode tr = true /\
    items $_expression l = [tl] /\ items $_expression r = [tr] /\
    items $_expression (binary_derivation i op l r) =
      [PNode _expression NoAssoc 0
         [PNode binary_expression LeftAssoc p [tl; PTok op; tr]]].
Proof.
  intros O Vl Vr.
  destruct (expression_items _ Vl) as (a1 & p1 & i1 & El).
  destruct (expression_items _ Vr) as (a2 & p2 & i2 & Er).
  do 2 eexists. split; [|split; [|split; [exact El|split; [exact Er|]]]];
    try reflexivity.
  unfold binary_derivation.
  change (items $_expression (DSym (DAlt 0 ?b)))
    with [PNode _expression
            (fst (prod_prec $binary_expression b))
            (snd (prod_prec $binary_expression b))
            (items $binary_expression b)].
  change (items $binary_expression (DSym (DAlt i ?b)))
    with [PNode binary_expression
            (fst (prod_prec (Solidity.rules binary_expression) (DAlt i b)))
            (snd (prod_prec (Solidity.rules binary_expression) (DAlt i b)))
            (items (Solidity.rules binary_expression) (DAlt i b))].
  rewrite binary_rules.
  cbn [prod_prec items fst snd].
  rewrite (map_nth_error binary_rule i Solidity.binary_operators O).
  cbn [binary_rule prec_left seq field prod_prec items fst snd app].
  now rewrite El, Er.
Qed.

Lemma binary_yield i op l r :
  yield (binary_derivation i op l r) = (yield l ++ op :: yield r)%list.
Proof. simpl. now rewrite !app_nil_r. Qed.

Lemma binary_cst i op p l r :
  nth_error Solidity.binary_operators i = Some (op, p) ->
  cst $_expression (binary_derivation i op l r) =
    [(None, Node (Rule binary_expression)
       (map (with_field "left") (cst $_expression l) ++
        (Some "operator", Leaf op) ::
        map (with_field "right") (cst $_expression r))%list)].
Proof.
  intros O. unfold binary_derivation.
  change (cst $_expression (DSym (DAlt 0 (DSym ?b))))
    with [(@None String.string,
           Node (Rule binary_expression)
                (cst (Solidity.rules binary_expression) b))].
  rewrite binary_rules. cbn [cst].
  rewrite (map_nth_error binary_rule i Solidity.binary_operators O).
  cbn [binary_rule prec_left seq field cst fst snd map with_field app].
  now rewrite !app_nil_r.
Qed.

(** A binary expression as right operand binds tighter than the operator
    to its left: at equal precedence the operators group to the left. *)
Lemma binary_right_operand i op p l j op' p' l' r' :
  nth_error Solidity.binary_operators i = Some (op, p) ->
  nth_error Solidity.binary_operators j = Some (op', p') ->
  valid $_expression l = true -> valid $_expression l' = true ->
  valid $_expression r' = true ->
  conflict_free $_expression
    (binary_derivation i op l (binary_derivation j op' l' r')) = true ->
  (p < p')%Z.
Proof.
  intros O O' Vl Vl' Vr' H.
  destruct (binary_items j op' p' l' r' O' Vl' Vr')
    as (tl' & tr' & Nl' & Nr' & _ & _ & E').
  pose proof (binary_valid j op' p' l' r' O' Vl' Vr') as Vr.
  destruct (binary_items i op p l _ O Vl Vr)
    as (tl & tr & Nl & Nr & _ & Er & E).
  rewrite E' in Er. injection Er as <-.
  unfold conflict_free in H. rewrite E in H.
  cbn [forallb] in H. apply andb_prop in H. destruct H as [H _].
  rewrite resolved_unit in H.
  apply resolved_three in H; auto. destruct H as (_ & _ & _ & H).
  rewrite resolved_unit in H.
  apply resolved_three in H; auto. destruct H as (H & _).
  unfold shift_allowed in H. cbn [fst snd forallb] in H.
  rewrite andb_false_r, orb_false_r, andb_true_r in H.
  now apply Z.ltb_lt.
Qed.

(** ** Ternary expressions *)

Lemma expression_ternary_inv d t :
  valid $_expression d = true ->
  cst $_expression d = [(None, t)] -> is_ternary t = true ->
  exists c th e,
    d = ternary_derivation c th e /\ valid $_expression c = true /\
    valid $_expression th = true /\ valid $_expression e = true.
Proof.
  intros H C B. inv_sym H;
    match goal with V : valid (SYMBOL ?n) ?k = true |- _ =>
      pose proof V as V'; inv1 V'; simpl in C; injection C as <-;
      try discriminate B
    end.
  on_sym ternary_expression ltac:(fun V => inv_sym V).
  unfold ternary_derivation. eauto 8.
Qed.

Lemma ternary_items c th e :
  valid $_expression c = true -> valid $_expression th = true ->
  valid $_expression e = true ->
  exists tc tt te,
    is_pnode tc = true /\ is_pnode te = true /\
    items $_expression e = [te] /\
    items $_expression (ternary_derivation c th e) =
      [PNode _expression NoAssoc 0
         [PNode ternary_expression LeftAssoc 0
            [tc; PTok "?"; tt; PTok ":"; te]]].
Proof.
  intros Vc Vt Ve.
  destruct (expression_items c Vc) as (a1 & p1 & i1 & Ec).
  destruct (expression_items th Vt) as (a2 & p2 & i2 & Et).
  destruct (expression_items e Ve) as (a3 & p3 & i3 & Ee).
  exists (PNode _expression a1 p1 i1), (PNode _expression a2 p2 i2),
    (PNode _expression a3 p3 i3).
  split; [|split; [|split; [exact Ee|]]]; try reflexivity.
  unfold ternary_derivation.
  change (items $_expression (DSym (DAlt 8 (DSym (DWrap (DSeq ?b))))))
    with [PNode _expression NoAssoc 0
            [PNode ternary_expression LeftAssoc 0
               (items (SEQ [$_expression; STRING "?"; $_expression;
                            STRING ":"; $_expression]) (DSeq b))]].
  cbn [items app]. now rewrite Ec, Et, Ee.
Qed.

Lemma ternary_yield c th e :
  yield (ternary_derivation c th e) =
  (yield c ++ "?" :: yield th ++ ":" :: yield e)%list.
Proof. simpl. now rewrite !app_nil_r. Qed.

Lemma ternary_cst c th e :
  cst $_expression (ternary_derivation c th e) =
    [(None, Node (Rule ternary_expression)
       (cst $_expression c ++ (None, Leaf "?") ::
        cst $_expression th ++ (None, Leaf ":") ::
        cst $_expression e)%list)].
Proof.
  unfold ternary_derivation.
  change (cst $_expression (DSym (DAlt 8 (DSym (DWrap (DSeq ?b))))))
    with [(@None String.string,
           Node (Rule ternary_expression)
             (cst (SEQ [$_expression; STRING "?"; $_expression;
                        STRING ":"; $_expression]) (DSeq b)))].
  cbn [cst app]. now rewrite !app_nil_r.
Qed.

(** A ternary expression is never the last operand of a ternary
    expression: [ternary_expression] is left-associative. *)
Lemma ternary_last_operand c th c' th' e' :
  valid $_expression c = true -> valid $_expression th = true ->
  valid $_expression c' = true -> valid $_expression th' = true ->
  valid $_expression e' = true ->
  conflict_free $_expression
    (ternary_derivation c th (ternary_derivation c' th' e')) = false.
Proof.
  intros Vc Vt Vc' Vt' Ve'.
  destruct (ternary_items c' th' e' Vc' Vt' Ve')
    as (tc' & tt' & te' & Nc' & Ne' & _ & E').
  assert (Ve : valid $_expression (ternary_derivation c' th' e') = true).
  { simpl. now rewrite Vc', Vt', Ve'. }
  destruct (ternary_items c th _ Vc Vt Ve)
    as (tc & tt & te & Nc & Ne & Ee & E).
  rewrite E' in Ee. injection Ee as <-.
  destruct (conflict_free _ _) eqn:H; [exfalso|reflexivity].
  unfold conflict_free in H. rewrite E in H.
  cbn [forallb] in H. apply andb_prop in H. destruct H as [H _].
  rewrite resolved_unit in H.
  apply resolved_five in H; auto. destruct H as (_ & _ & _ & H).
  rewrite resolved_unit in H.
  apply resolved_five in H; auto. destruct H as (H & _).
  discriminate H.
Qed.

Lemma ternary_right_nesting_rejected d outer inner :
  valid $_expression d = true -> conflict_free $_expression d = true ->
  cst $_expression d = [(None, outer)] -> is_ternary outer = true ->
  nth_error (node_children outer) 2 = Some inner ->
  is_ternary inner = true -> False.
Proof.
  intros V F C B R B'.
  destruct (expression_ternary_inv d outer V C B)
    as (c & th & e & -> & Vc & Vt & Ve).
  destruct (expression_node c Vc) as (nc & dc & _ & Ec).
  destruct (expression_node th Vt) as (nt & dt & _ & Et).
  destruct (expression_node e Ve) as (ne & de & _ & Ee).
  assert (Ce : cst $_expression e = [(None, inner)]).
  { unfold ternary_derivation in C.
    change (cst $_expression (DSym (DAlt 8 (DSym (DWrap (DSeq ?b))))))
      with [(@None String.string,
             Node (Rule ternary_expression)
               (cst (SEQ [$_expression; STRING "?"; $_expression;
                          STRING ":"; $_expression]) (DSeq b)))] in C.
    cbn [cst] in C. rewrite Ec, Et, Ee in C. injection C as <-.
    cbn in R. injection R as <-. exact Ee. }
  destruct (expression_ternary_inv e inner Ve Ce B')
    as (c' & th' & e' & -> & Vc' & Vt' & Ve').
  rewrite (ternary_last_operand c th c' th' e' Vc Vt Vc' Vt' Ve') in F.
  discriminate F.
Qed.

(** ** Expressions over names, [**], [?] and [:] *)

(** [P] says that every token of a yield is plain; a token [T] of the
    yield that is not refutes it. *)
Ltac refute_with P T :=
  let K := fresh "K" in
  assert (K : plain T = true) by (apply P; find_in);
  vm_compute in K; discriminate K.

Ltac refute P :=
  cbn [yield flat_map app] in P;
  match type of P with
  | context [String ?c ?s :: _] => refute_with P (String c s)
  end.

Lemma plain_cases w :
  plain w = true -> In w ["a"; "b"; "c"; "d"; "e"; "**"; "?"; ":"].
Proof.
  unfold plain. intros H. apply existsb_exists in H.
  destruct H as (x & I & E). apply String.eqb_eq in E. now subst.
Qed.

(** [plain_token H W]: one case per plain token [w], refuted when [W]
    says that a pattern matches [w]. *)
Ltac plain_token H W :=
  apply plain_cases in H; simpl in H;
  repeat (destruct H as [<-|H]; [try discriminate W|]);
  try contradiction.

Lemma primitive_type_not_plain d :
  valid $_primitive_type d = true ->
  (forall t, In t (yield d) -> plain t = true) -> False.
Proof.
  intros H P. inv_sym H;
    try match goal with V : valid (SYMBOL _) _ = true |- _ => inv_sym V end;
    try solve [refute P].
  all: match goal with V : valid (PATTERN _) _ = true |- _ => inv1 V end.
  all: match goal with W : matches _ ?w = true |- _ =>
         assert (K : plain w = true) by (apply P; find_in);
         plain_token K W
       end.
Qed.

Lemma literal_not_plain d :
  valid $literal d = true ->
  (forall t, In t (yield d) -> plain t = true) -> False.
Proof.
  intros H P. inv_sym H.
  - on_sym string_literal ltac:(fun V => inv_sym V).
    on_sym string ltac:(fun V => inv_sym V); refute P.
  - on_sym number_literal ltac:(fun V =>
      apply number_literal_shape in V;
      destruct V as (body & suffix & E & [(m & Hm & B)|(g & -> & _)] & _)).
    + assert (K : plain m = true).
      { apply P. simpl. rewrite E. destruct B as [->|(e & -> & _)]; find_in. }
      plain_token K Hm.
    + simpl in P. rewrite E in P. refute P.
  - on_sym boolean_literal ltac:(fun V => inv_sym V); refute P.
  - on_sym hex_string_literal ltac:(fun V => inv_sym V); refute P.
  - on_sym unicode_string_literal ltac:(fun V => inv_sym V); refute P.
Qed.

Lemma user_defined_type_plain d :
  valid $_user_defined_type d = true ->
  (forall t, In t (yield d) -> plain t = true) ->
  exists w, yield d = [w] /\
            cst $_user_defined_type d = [(None, Node (Rule identifier)
                                                  [(None, Leaf w)])].
Proof.
  intros H P. inv_sym H. use_identifier.
  match goal with V : valid (REPEAT _) _ = true |- _ =>
    inv1 V; rename V into R end.
  match type of R with forallb _ ?l = true =>
    destruct l as [|r1 l]; [exists w; split; reflexivity|] end.
  exfalso. simpl in R. apply andb_prop in R. destruct R as [R _].
  inv_body. refute P.
Qed.

(** An expression whose tokens are all plain is a binary expression, a
    ternary expression, or a name. *)
Lemma expression_plain d :
  valid $_expression d = true -> forallb plain (yield d) = true ->
  (exists i op p l r,
     nth_error Solidity.binary_operators i = Some (op, p) /\
     d = binary_derivation i op l r /\
     valid $_expression l = true /\ valid $_expression r = true) \/
  (exists c th e,
     d = ternary_derivation c th e /\ valid $_expression c = true /\
     valid $_expression th = true /\ valid $_expression e = true) \/
  (exists w, yield d = [w] /\ cst $_expression d = name_node w).
Proof.
  intros H F.
  assert (P : forall t, In t (yield d) -> plain t = true)
    by (apply forallb_forall; exact F).
  clear F. inv_sym H.
  - (* binary_expression *)
    left. on_sym binary_expression ltac:(fun V =>
      apply binary_inv in V;
      destruct V as (i & op & p & l & r & O & -> & Vl & Vr)).
    exists i, op, p, l, r. auto.
  - (* unary_expression *)
    exfalso. on_sym unary_expression ltac:(fun V => inv_sym V); refute P.
  - (* update_expression *)
    exfalso. on_sym update_expression ltac:(fun V => inv_sym V); refute P.
  - (* call_expresion *)
    exfalso. on_sym call_expresion ltac:(fun V => inv_sym V).
    on_sym _call_arguments ltac:(fun V => inv_sym V); refute P.
  - exfalso.
    on_sym payable_conversion_expression ltac:(fun V => inv_sym V).
    refute P.
  - exfalso. on_sym meta_type_expression ltac:(fun V => inv_sym V).
    refute P.
  - (* primary_expression *)
    on_sym primary_expression ltac:(fun V => inv_sym V).
    + exfalso. on_sym parenthesized_expression ltac:(fun V => inv_sym V).
      refute P.
    + exfalso. on_sym member_expression ltac:(fun V => inv_sym V); refute P.
    + exfalso. on_sym array_access ltac:(fun V => inv_sym V). refute P.
    + exfalso. on_sym slice_access ltac:(fun V => inv_sym V). refute P.
    + exfalso. on_sym _primitive_type ltac:(fun V =>
        apply (primitive_type_not_plain _ V)). exact P.
    + exfalso. on_sym assignment_expression ltac:(fun V => inv_sym V);
        refute P.
    + exfalso.
      on_sym augmented_assignment_expression ltac:(fun V => inv_sym V);
        refute P.
    + right. right. on_sym _user_defined_type ltac:(fun V =>
        destruct (user_defined_type_plain _ V P) as (w & Y & C)).
      exists w. split; [exact Y|]. unfold name_node. simpl. simpl in C.
      now rewrite C.
    + exfalso. on_sym tuple_expression ltac:(fun V => inv_sym V); refute P.
    + exfalso. on_sym inline_array_expression ltac:(fun V => inv_sym V);
        refute P.
    + right. right. use_identifier. exists w. split; reflexivity.
    + exfalso. on_sym literal ltac:(fun V =>
        apply (literal_not_plain _ V)). exact P.
    + exfalso. on_sym new_expression ltac:(fun V => inv_sym V). refute P.
  - exfalso. on_sym struct_expression ltac:(fun V => inv_sym V); refute P.
  - (* ternary_expression *)
    right. left. on_sym ternary_expression ltac:(fun V => inv_sym V).
    unfold ternary_derivation. eauto 8.
  - exfalso. on_sym type_cast_expression ltac:(fun V => inv_sym V).
    refute P.
Qed.

Lemma plain_operator i op p :
  nth_error Solidity.binary_operators i = Some (op, p) ->
  plain op = true -> op = "**" /\ p = PREC.EXP.
Proof.
  intros O I. apply nth_error_In in O. simpl in O.
  repeat (destruct O as [O|O];
          [ injection O as <- <-;
            first [ split; reflexivity | discriminate I ] | ]).
  contradiction.
Qed.

Lemma expression_without_pow d :
  valid $_expression d = true -> forallb plain (yield d) = true ->
  ~ In "**" (yield d) ->
  (exists c th e,
     d = ternary_derivation c th e /\ valid $_expression c = true /\
     valid $_expression th = true /\ valid $_expression e = true) \/
  (exists w, yield d = [w]).
Proof.
  intros V F N.
  destruct (expression_plain d V F)
    as [(i & op & p & l & r & O & -> & Vl & Vr) |
        [(c & th & e & -> & T) | (w & Yw & _)]].
  - exfalso. apply N.
    assert (I : plain op = true).
    { rewrite binary_yield, forallb_forall in F. apply F. find_in. }
    destruct (plain_operator i op p O I) as [-> ->].
    rewrite binary_yield. find_in.
  - left. exists c, th, e. auto.
  - right. eauto.
Qed.

(** A one-token expression that is a name. *)
Lemma name_expression d x :
  valid $_expression d = true -> yield d = [x] ->
  In x ["a"; "b"; "c"; "d"; "e"] -> cst $_expression d = name_node x.
Proof.
  intros V Y X.
  assert (F : forallb plain (yield d) = true).
  { rewrite Y. simpl in X. simpl.
    repeat (destruct X as [<-|X]; [reflexivity|]). contradiction. }
  destruct (expression_plain d V F)
    as [(i & op & p & l & r & O & -> & _) |
        [(c & th & e & -> & _) | (w & Yw & C)]].
  - exfalso. rewrite binary_yield in Y.
    destruct (yield l) as [|t yl]; simpl in Y.
    + injection Y as -> _. apply nth_error_In in O. simpl in O, X.
      repeat (destruct X as [<-|X];
              [intuition discriminate|]). exact X.
    + injection Y as _ Y. destruct yl; discriminate Y.
  - exfalso. rewrite ternary_yield in Y.
    destruct (yield c) as [|t yc]; simpl in Y.
    + injection Y as <- _. simpl in X. intuition discriminate.
    + injection Y as _ Y. destruct yc; discriminate Y.
  - rewrite Yw in Y. injection Y as ->. exact C.
Qed.

(** ** The parse of [a ** b ** c] *)

(** The right-nested derivation of [a ** b ** c] derives the tokens, and
    the precedences reject it. *)
Lemma pow_right_rejected :
  valid $_expression Example.pow_right = true /\
  yield Example.pow_right = Example.pow_tokens /\
  conflict_free $_expression Example.pow_right = false.
Proof. repeat split. Qed.

(** Operators found among the tokens of [a ** b ** c] are [**]. *)
Lemma pow_operator i op p :
  nth_error Solidity.binary_operators i = Some (op, p) ->
  In op Example.pow_tokens -> p = PREC.EXP.
Proof.
  intros O I. apply nth_error_In in O. simpl in O.
  repeat (destruct O as [O|O];
          [ injection O as <- <-;
            first [ reflexivity
                  | exfalso; simpl in I; intuition discriminate ] | ]).
  contradiction.
Qed.

Lemma pow_right_nesting_rejected d outer inner :
  parses $_expression Example.pow_tokens d ->
  cst $_expression d = [(None, outer)] -> is_binary outer = true ->
  field_of "right" outer = [inner] -> is_binary inner = true -> False.
Proof.
  intros (V & Y & F) C B R B'.
  destruct (expression_binary_inv d outer V C B)
    as (i & op & p & l & r & O & -> & Vl & Vr).
  destruct (expression_node l Vl) as (nl & dl & _ & El).
  destruct (expression_node r Vr) as (nr & dr & _ & Er).
  assert (Cr : cst $_expression r = [(None, inner)]).
  { unfold binary_derivation in C.
    change (cst $_expression (DSym (DAlt 0 (DSym ?b))))
      with [(@None String.string,
             Node (Rule binary_expression)
                  (cst (Solidity.rules binary_expression) b))] in C.
    rewrite binary_rules in C. cbn [cst] in C.
    rewrite (map_nth_error binary_rule i Solidity.binary_operators O) in C.
    cbn [binary_rule prec_left seq field cst fst snd] in C.
    rewrite El, Er in C. injection C as <-.
    cbn in R. injection R as <-. exact Er. }
  destruct (expression_binary_inv r inner Vr Cr B')
    as (j & op' & p' & l' & r' & O' & -> & Vl' & Vr').
  pose proof (binary_right_operand i op p l j op' p' l' r' O O' Vl Vl' Vr' F) as L.
  assert (P : p = PREC.EXP).
  { apply (pow_operator i op p O). rewrite <- Y. simpl.
    find_in. }
  assert (P' : p' = PREC.EXP).
  { apply (pow_operator j op' p' O'). rewrite <- Y. simpl.
    find_in. }
  subst. revert L. apply Z.lt_irrefl.
Qed.

Lemma pow_inner_binary d x y :
  valid $_expression d = true -> yield d = [x; "**"; y] ->
  In x ["a"; "b"; "c"] -> In y ["a"; "b"; "c"] ->
  exists i l r,
    nth_error Solidity.binary_operators i = Some ("**", PREC.EXP) /\
    d = binary_derivation i "**" l r /\
    valid $_expression l = true /\ valid $_expression r = true /\
    yield l = [x] /\ yield r = [y].
Proof.
  intros V Y X X'.
  assert (F : forallb plain (yield d) = true).
  { rewrite Y. simpl in X, X'. simpl.
    repeat (destruct X as [<-|X]; [|]);
      repeat (destruct X' as [<-|X']; [try reflexivity|]);
      try contradiction. }
  destruct (expression_plain d V F)
    as [(i & op & p & l & r & O & -> & Vl & Vr) |
        [(c & th & e & -> & _) | (w & Yw & _)]].
  - rewrite binary_yield in Y.
    assert (I : plain op = true).
    { rewrite binary_yield, forallb_forall in F. apply F. find_in. }
    destruct (plain_operator i op p O I) as [-> ->].
    exists i, l, r. split; [exact O|]. split; [reflexivity|].
    split; [exact Vl|]. split; [exact Vr|].
    remember (yield l) as yl eqn:El. remember (yield r) as yr eqn:Er.
    simpl in X, X'.
    split_prefix yl Y; try discriminate Y.
    + exfalso. injection Y as <- _.
      repeat (destruct X as [X|X]; [discriminate X|]). contradiction.
    + injection Y as ->. auto.
    + exfalso. injection Y as <- _.
      repeat (destruct X' as [X'|X']; [discriminate X'|]). contradiction.
  - exfalso. rewrite ternary_yield in Y.
    assert (K : In "?" [x; "**"; y]) by (rewrite <- Y; find_in).
    simpl in K, X, X'.
    destruct K as [->|[K|[->|[]]]]; [|discriminate K|]; intuition discriminate.
  - rewrite Yw in Y. discriminate Y.
Qed.

Lemma pow_parse_unique d :
  parses $_expression Example.pow_tokens d ->
  cst $_expression d = cst $_expression Example.pow_left.
Proof.
  intros (V & Y & F).
  assert (Fp : forallb plain (yield d) = true) by (rewrite Y; reflexivity).
  destruct (expression_plain d V Fp)
    as [(i & op & p & l & r & O & -> & Vl & Vr) |
        [(c & th & e & -> & _) | (w & Yw & _)]].
  - rewrite binary_yield in Y.
    assert (I : plain op = true).
    { rewrite binary_yield, forallb_forall in Fp. apply Fp. find_in. }
    destruct (plain_operator i op p O I) as [-> ->].
    remember (yield l) as yl eqn:El. remember (yield r) as yr eqn:Er.
    unfold Example.pow_tokens in Y.
    split_prefix yl Y; try discriminate Y; injection Y as ->;
      symmetry in El, Er.
    + (* a ** (b ** c): rejected *)
      exfalso.
      destruct (pow_inner_binary r "b" "c" Vr Er
                  ltac:(simpl; auto) ltac:(simpl; auto))
        as (j & l' & r' & O' & -> & Vl' & Vr' & _).
      pose proof (binary_right_operand i "**" PREC.EXP l j "**" PREC.EXP
                    l' r' O O' Vl Vl' Vr' F) as L.
      revert L. apply Z.lt_irrefl.
    + (* (a ** b) ** c *)
      destruct (pow_inner_binary l "a" "b" Vl El
                  ltac:(simpl; auto) ltac:(simpl; auto))
        as (j & l' & r' & O' & -> & Vl' & Vr' & El' & Er').
      rewrite (binary_cst i "**" PREC.EXP _ r O).
      rewrite (binary_cst j "**" PREC.EXP l' r' O').
      rewrite (name_expression l' "a" Vl' El' ltac:(simpl; auto)),
        (name_expression r' "b" Vr' Er' ltac:(simpl; auto)),
        (name_expression r "c" Vr Er ltac:(simpl; auto)).
      reflexivity.
  - exfalso. rewrite ternary_yield in Y. absent "?" Y.
  - rewrite Yw in Y. discriminate Y.
Qed.

(** C1, as the claim states it: no parse of [a ** b ** c] has a binary
    expression as the right operand of its root. *)
Lemma pow_not_right_associative :
  ~ exists d outer inner,
      parses $_expression Example.pow_tokens d /\
      cst $_expression d = [(None, outer)] /\ is_binary outer = true /\
      field_of "right" outer = [inner] /\ is_binary inner = true.
Proof.
  intros (d & outer & inner & P & C & B & R & B').
  exact (pow_right_nesting_rejected d outer inner P C B R B').
Qed.

(** C1, amended: [a ** b ** c] parses as [(a ** b) ** c]: every parse of
    the input builds the tree whose outer [**] node has the binary node
    of [a ** b] as left operand and [c] as right operand.
    [binary_expression] makes every operator, [**] too, left-associative:
    a binary expression is the right operand of another only under an
    operator of strictly lower precedence. *)
Theorem pow_left_associative :
  parses $_expression Example.pow_tokens Example.pow_left /\
  cst $_expression Example.pow_left =
    [(None, Node (Rule binary_expression)
       [(Some "left", Node (Rule binary_expression)
          [(Some "left", Node (Rule primary_expression)
             [(None, Node (Rule identifier) [(None, Leaf "a")])]);
           (Some "operator", Leaf "**");
           (Some "right", Node (Rule primary_expression)
             [(None, Node (Rule identifier) [(None, Leaf "b")])])]);
        (Some "operator", Leaf "**");
        (Some "right", Node (Rule primary_expression)
          [(None, Node (Rule identifier) [(None, Leaf "c")])])])] /\
  (forall d, parses $_expression Example.pow_tokens d ->
             cst $_expression d = cst $_expression Example.pow_left) /\
  (forall i op p l j op' p' l' r',
     nth_error Solidity.binary_operators i = Some (op, p) ->
     nth_error Solidity.binary_operators j = Some (op', p') ->
     valid $_expression l = true -> valid $_expression l' = true ->
     valid $_expression r' = true ->
     conflict_free $_expression
       (binary_derivation i op l (binary_derivation j op' l' r')) = true ->
     (p < p')%Z).
Proof.
  split; [repeat split|]. split; [reflexivity|].
  split; [exact pow_parse_unique | exact binary_right_operand].
Qed.

Lemma pow_left_associative_witness :
  cst $_expression Example.pow_left_alt = cst $_expression Example.pow_left.
Proof.
  apply (proj1 (proj2 (proj2 pow_left_associative))). repeat split.
Defined.

(** ** The parse of [a ? b : c ? d : e] *)

(** The right-leaning derivation of [a ? b : c ? d : e] derives the
    tokens, and the precedences reject it. *)
Lemma cond_right_rejected :
  valid $_expression Example.cond_right = true /\
  yield Example.cond_right = Example.cond_tokens /\
  conflict_free $_expression Example.cond_right = false.
Proof. repeat split. Qed.

Lemma cond_inner_ternary d x y z :
  valid $_expression d = true -> yield d = [x; "?"; y; ":"; z] ->
  In x ["a"; "b"; "c"; "d"; "e"] -> In y ["a"; "b"; "c"; "d"; "e"] ->
  In z ["a"; "b"; "c"; "d"; "e"] ->
  exists c th e,
    d = ternary_derivation c th e /\ valid $_expression c = true /\
    valid $_expression th = true /\ valid $_expression e = true /\
    yield c = [x] /\ yield th = [y] /\ yield e = [z].
Proof.
  intros V Y X X' X''.
  assert (F : forallb plain (yield d) = true).
  { rewrite Y. simpl in X, X', X''. simpl.
    repeat (destruct X as [<-|X]; [|]);
      repeat (destruct X' as [<-|X']; [|]);
      repeat (destruct X'' as [<-|X'']; [try reflexivity|]);
      try contradiction. }
  assert (N : ~ In "**" (yield d)).
  { rewrite Y. simpl in *. intuition (subst; discriminate). }
  destruct (expression_without_pow d V F N)
    as [(c & th & e & -> & Vc & Vt & Ve) | (w & Yw)];
    [|rewrite Yw in Y; discriminate Y].
  exists c, th, e. split; [reflexivity|]. repeat (split; [assumption|]).
  rewrite ternary_yield in Y.
  remember (yield c) as yc eqn:Ec. remember (yield th) as yt eqn:Et.
  remember (yield e) as ye eqn:Ee. simpl in X, X', X''.
  split_prefix yc Y; try discriminate Y;
    apply cons_eq_inv in Y; destruct Y as [Q Y];
    try discriminate Q; try (exfalso; subst; intuition discriminate).
  split_prefix yt Y; try discriminate Y;
    apply cons_eq_inv in Y; destruct Y as [Q' Y];
    try discriminate Q'; try (exfalso; subst; intuition discriminate).
  subst. auto.
Qed.

Lemma cond_parse_unique d :
  parses $_expression Example.cond_tokens d ->
  cst $_expression d = cst $_expression Example.cond_left.
Proof.
  intros (V & Y & F).
  assert (Fp : forallb plain (yield d) = true) by (rewrite Y; reflexivity).
  assert (N : ~ In "**" (yield d))
    by (rewrite Y; simpl; intuition discriminate).
  destruct (expression_without_pow d V Fp N)
    as [(c & th & e & -> & Vc & Vt & Ve) | (w & Yw)];
    [|rewrite Yw in Y; discriminate Y].
  rewrite ternary_yield in Y. unfold Example.cond_tokens in Y.
  remember (yield c) as yc eqn:Ec. remember (yield th) as yt eqn:Et.
  remember (yield e) as ye eqn:Ee.
  split_prefix yc Y; try discriminate Y;
    apply cons_eq_inv in Y; destruct Y as [Q Y]; try discriminate Q;
    clear Q; symmetry in Ec.
  - (* the condition is a *)
    split_prefix yt Y; try discriminate Y;
      apply cons_eq_inv in Y; destruct Y as [Q Y]; try discriminate Q;
      clear Q; rewrite Ee in Y; clear Ee; rename Y into Ee;
      symmetry in Et.
    + (* a ? b : (c ? d : e): rejected *)
      exfalso.
      destruct (cond_inner_ternary e "c" "d" "e" Ve Ee
                  ltac:(simpl; tauto) ltac:(simpl; tauto)
                  ltac:(simpl; tauto))
        as (c' & th' & e' & -> & Vc' & Vt' & Ve' & _).
      rewrite (ternary_last_operand c th c' th' e' Vc Vt Vc' Vt' Ve') in F.
      discriminate F.
    + (* no expression spells b : c ? d *)
      exfalso.
      assert (Ft : forallb plain (yield th) = true)
        by (rewrite Et; reflexivity).
      assert (Nt : ~ In "**" (yield th))
        by (rewrite Et; simpl; intuition discriminate).
      destruct (expression_without_pow th Vt Ft Nt)
        as [(c' & th' & e' & -> & _) | (w & Yw)];
        [|rewrite Yw in Et; discriminate Et].
      rewrite ternary_yield in Et.
      remember (yield c') as yc' eqn:Ec'.
      remember (yield th') as yt' eqn:Et'.
      split_prefix yc' Et; try discriminate Et;
        apply cons_eq_inv in Et; destruct Et as [Q Et]; try discriminate Q.
      split_prefix yt' Et; discriminate Et.
  - (* the condition is a ? b : c *)
    split_prefix yt Y; try discriminate Y;
      apply cons_eq_inv in Y; destruct Y as [Q Y]; try discriminate Q;
      clear Q; rewrite Ee in Y; clear Ee; rename Y into Ee;
      symmetry in Et.
    destruct (cond_inner_ternary c "a" "b" "c" Vc Ec
                ltac:(simpl; tauto) ltac:(simpl; tauto)
                ltac:(simpl; tauto))
      as (c' & th' & e' & -> & Vc' & Vt' & Ve' & Ec' & Et' & Ee').
    rewrite !ternary_cst.
    rewrite (name_expression c' "a" Vc' Ec' ltac:(simpl; tauto)),
      (name_expression th' "b" Vt' Et' ltac:(simpl; tauto)),
      (name_expression e' "c" Ve' Ee' ltac:(simpl; tauto)),
      (name_expression th "d" Vt Et ltac:(simpl; tauto)),
      (name_expression e "e" Ve Ee ltac:(simpl; tauto)).
    reflexivity.
Qed.

(** C2, as the claim states it: no parse of [a ? b : c ? d : e] has a
    ternary expression as the third child of its root. *)
Lemma conditional_not_right_leaning :
  ~ exists d outer inner,
      parses $_expression Example.cond_tokens d /\
      cst $_expression d = [(None, outer)] /\ is_ternary outer = true /\
      nth_error (node_children outer) 2 = Some inner /\
      is_ternary inner = true.
Proof.
  intros (d & outer & inner & (V & _ & F) & C & B & R & B').
  exact (ternary_right_nesting_rejected d outer inner V F C B R B').
Qed.

(** C2, amended: [a ? b : c ? d : e] parses left-leaning: every parse of
    the input builds the tree whose outer ternary node has the ternary
    node of [a ? b : c] as condition (first child), [d] as true-branch
    and [e] as false-branch.  [ternary_expression] is left-associative:
    the false-branch of a ternary node is never a ternary node. *)
Theorem conditional_left_leaning :
  parses $_expression Example.cond_tokens Example.cond_left /\
  cst $_expression Example.cond_left =
    [(None, Node (Rule ternary_expression)
       [(None, Node (Rule ternary_expression)
          [(None, Node (Rule primary_expression)
             [(None, Node (Rule identifier) [(None, Leaf "a")])]);
           (None, Leaf "?");
           (None, Node (Rule primary_expression)
             [(None, Node (Rule identifier) [(None, Leaf "b")])]);
           (None, Leaf ":");
           (None, Node (Rule primary_expression)
             [(None, Node (Rule identifier) [(None, Leaf "c")])])]);
        (None, Leaf "?");
        (None, Node (Rule primary_expression)
          [(None, Node (Rule identifier) [(None, Leaf "d")])]);
        (None, Leaf ":");
        (None, Node (Rule primary_expression)
          [(None, Node (Rule identifier) [(None, Leaf "e")])])])] /\
  (forall d, parses $_expression Example.cond_tokens d ->
             cst $_expression d = cst $_expression Example.cond_left) /\
  (forall d outer inner,
     valid $_expression d = true -> conflict_free $_expression d = true ->
     cst $_expression d = [(None, outer)] -> is_ternary outer = true ->
     nth_error (node_children outer) 2 = Some inner ->
     is_ternary inner = false).
Proof.
  split; [repeat split|]. split; [reflexivity|].
  split; [exact cond_parse_unique|].
  intros d outer inner V F C B R.
  destruct (is_ternary inner) eqn:B'; [|reflexivity].
  exfalso.
  exact (ternary_right_nesting_rejected d outer inner V F C B R B').
Qed.

Lemma conditional_left_leaning_witness :
  cst $_expression Example.cond_left_alt = cst $_expression Example.cond_left.
Proof.
  apply (proj1 (proj2 (proj2 conditional_left_leaning))). repeat split.
Defined.

(** ** Induction on derivations *)

Lemma derivation_induction (P : derivation -> Prop) :
  P DBlank -> (forall w, P (DTok w)) -> (forall d, P d -> P (DSym d)) ->
  (forall ds, Forall P ds -> P (DSeq ds)) ->
  (forall i d, P d -> P (DAlt i d)) ->
  (forall ds, Forall P ds -> P (DRep ds)) ->
  (forall d, P d -> P (DWrap d)) ->
  forall d, P d.
Proof.
  intros HB HT HS HQ HA HR HW. fix IH 1. intros [ |w|d|ds|i d|ds|d].
  - exact HB.
  - apply HT.
  - apply HS, IH.
  - apply HQ. revert ds. fix IHds 1. intros [|d ds]; constructor.
    + apply IH.
    + apply IHds.
  - apply HA, IH.
  - apply HR. revert ds. fix IHds 1. intros [|d ds]; constructor.
    + apply IH.
    + apply IHds.
  - apply HW, IH.
Qed.

Lemma valid_seq_cons r rs d ds :
  valid (SEQ (r :: rs)) (DSeq (d :: ds)) =
  valid r d && valid (SEQ rs) (DSeq ds).
Proof. reflexivity. Qed.

Lemma cst_seq_cons r rs d ds :
  cst (SEQ (r :: rs)) (DSeq (d :: ds)) =
  (cst r d ++ cst (SEQ rs) (DSeq ds))%list.
Proof. reflexivity. Qed.

Lemma starts_seq_cons N F r rs t :
  starts N F (SEQ (r :: rs)) t =
  starts N F r t || (derives_empty N r && starts N F (SEQ rs) t).
Proof. reflexivity. Qed.

(** ** Rules that derive the empty sequence, and first tokens *)

Section FirstTokens.

Variable N : sym -> bool.
Variable F : sym -> token -> bool.
Hypothesis N_closed :
  forall n, derives_empty N (Solidity.rules n) = true -> N n = true.
Hypothesis F_closed :
  forall n t, starts N F (Solidity.rules n) t = true -> F n t = true.

Lemma derives_empty_sound d :
  forall r, valid r d = true -> yield d = [] -> derives_empty N r = true.
Proof.
  induction d as [ |w|d IH|ds IH|i d IH|ds IH|d IH]
    using derivation_induction; intros r V Y.
  - destruct r; try discriminate V. reflexivity.
  - discriminate Y.
  - destruct r; try discriminate V. simpl in V, Y. simpl. auto.
  - destruct r as [| | | |rs| | | | | | | |]; try discriminate V.
    revert rs V Y.
    induction IH as [|d ds Hd _ IHds]; intros [|r rs] V Y;
      try discriminate V; [reflexivity|].
    rewrite valid_seq_cons in V. apply andb_prop in V. destruct V as [V1 V2].
    simpl in Y. apply app_eq_nil in Y. destruct Y as [Y1 Y2].
    change (derives_empty N r && derives_empty N (SEQ rs) = true).
    rewrite (Hd r V1 Y1). simpl. apply IHds; assumption.
  - destruct r as [| | | | |rs| | | | | | |]; try discriminate V.
    simpl in V, Y. destruct (nth_error rs i) as [r'|] eqn:E;
      try discriminate V.
    simpl. apply existsb_exists. exists r'. split.
    + eapply nth_error_In; eassumption.
    + auto.
  - destruct r as [| | | | | |c|c| | | | |]; try discriminate V;
      [reflexivity|].
    simpl in V. destruct ds as [|d ds]; try discriminate V.
    simpl in V, Y. apply andb_prop in V. destruct V as [V _].
    apply app_eq_nil in Y. destruct Y as [Y _].
    inversion IH as [|? ? Hd _]; subst. simpl. auto.
  - destruct r; try discriminate V; simpl in V, Y; simpl; auto.
Qed.

Lemma starts_sound d :
  forall r t rest,
    valid r d = true -> yield d = t :: rest -> starts N F r t = true.
Proof.
  induction d as [ |w|d IH|ds IH|i d IH|ds IH|d IH]
    using derivation_induction; intros r t rest V Y.
  - discriminate Y.
  - injection Y as -> _. destruct r; try discriminate V; exact V.
  - destruct r; try discriminate V. simpl in V, Y. simpl. eauto.
  - destruct r as [| | | |rs| | | | | | | |]; try discriminate V.
    revert rs V Y.
    induction IH as [|d ds Hd _ IHds]; intros [|r rs] V Y;
      try discriminate V; try discriminate Y.
    rewrite valid_seq_cons in V. apply andb_prop in V. destruct V as [V1 V2].
    rewrite starts_seq_cons. simpl in Y.
    destruct (yield d) as [|t1 y1] eqn:Yd.
    + rewrite (derives_empty_sound d r V1 Yd). simpl in Y.
      rewrite (IHds rs V2 Y). apply orb_true_r.
    + simpl in Y. injection Y as -> _. now rewrite (Hd r t y1 V1 eq_refl).
  - destruct r as [| | | | |rs| | | | | | |]; try discriminate V.
    simpl in V, Y. destruct (nth_error rs i) as [r'|] eqn:E;
      try discriminate V.
    simpl. apply existsb_exists. exists r'. split.
    + eapply nth_error_In; eassumption.
    + eauto.
  - assert (K : forall c, forallb (valid c) ds = true ->
                          starts N F c t = true).
    { intros c. simpl in Y. clear V. revert Y.
      induction IH as [|d ds Hd _ IHds]; intros Y W; try discriminate Y.
      simpl in W, Y. apply andb_prop in W. destruct W as [W1 W2].
      destruct (yield d) as [|t1 y1] eqn:Yd.
      - apply IHds; assumption.
      - simpl in Y. injection Y as -> _. eapply Hd; eauto. }
    destruct r as [| | | | | |c|c| | | | |]; try discriminate V;
      simpl in V; simpl.
    + now apply K.
    + apply andb_prop in V. destruct V as [_ V]. now apply K.
  - destruct r; try discriminate V; simpl in V, Y; simpl; eauto.
Qed.

End FirstTokens.

Lemma may_be_empty_closed n :
  derives_empty may_be_empty (Solidity.rules n) = true ->
  may_be_empty n = true.
Proof. destruct n; vm_compute; intros H; first [reflexivity | exact H]. Qed.

(** [H] lists the tokens a rule begins with, and [G] says that [t] begins
    no expression: [t] is none of them. *)
Ltac first_token H G :=
  lazymatch type of H with
  | false = true => discriminate H
  | context [String.eqb ?s ?t] =>
      let E := fresh "E" in
      destruct (String.eqb s t) eqn:E;
      [ try congruence; apply String.eqb_eq in E; subst;
        first [ vm_compute in G; discriminate G
              | match goal with
                | G' : String.eqb _ _ = false |- _ =>
                    vm_compute in G'; discriminate G'
                end ]
      | cbv beta iota in H; first_token H G ]
  | context [matches ?re ?t] =>
      let E := fresh "E" in
      destruct (matches re t) eqn:E;
      [ unfold expression_start in G; rewrite E in G;
        rewrite ?orb_true_r in G; discriminate G
      | cbv beta iota in H; first_token H G ]
  end.

Lemma first_tokens_closed n t :
  starts may_be_empty first_tokens (Solidity.rules n) t = true ->
  first_tokens n t = true.
Proof.
  destruct n; try reflexivity; intros H; apply not_false_is_true; intros G;
    cbv - [matches String.eqb expression_start statement_start
           Solidity.Re.identifier Solidity.Re.decimal_mantissa
           Solidity.Re.fixed Solidity.Re.ufixed] in H, G;
    lazymatch type of G with
    | statement_start _ = false =>
        unfold statement_start in G, H; apply orb_false_elim in G;
        destruct G as [G G']
    | _ => idtac
    end;
    rewrite ?G in H;
    cbv - [matches String.eqb expression_start
           Solidity.Re.identifier Solidity.Re.decimal_mantissa
           Solidity.Re.fixed Solidity.Re.ufixed] in H;
    first_token H G.
Qed.

(** X1: the start rule alone derives the empty token sequence: an empty
    file is a source file whose node has no children, and a derivation of
    any other rule spans at least one token. *)
Theorem only_source_file_derives_empty :
  (forall n d, valid $n d = true -> yield d = [] -> n = source_file) /\
  parses $source_file [] (DSym (DSeq [DRep []])) /\
  cst $source_file (DSym (DSeq [DRep []])) =
    [(None, Node (Rule source_file) [])].
Proof.
  split; [|split; [repeat split|reflexivity]].
  intros n d V Y.
  pose proof (derives_empty_sound may_be_empty may_be_empty_closed
                d $n V Y) as H.
  destruct n; first [reflexivity | discriminate H].
Qed.

Lemma only_source_file_derives_empty_witness :
  source_file = source_file.
Proof.
  apply (proj1 only_source_file_derives_empty source_file
           (DSym (DSeq [DRep []]))); reflexivity.
Defined.

Lemma first_token_sound n d t rest :
  valid $n d = true -> yield d = t :: rest -> first_tokens n t = true.
Proof.
  intros V Y.
  exact (starts_sound may_be_empty first_tokens may_be_empty_closed
           first_tokens_closed d $n t rest V Y).
Qed.

Lemma nonempty_yield n d :
  valid $n d = true -> n <> source_file ->
  exists t rest, yield d = t :: rest.
Proof.
  intros V D. destruct (yield d) as [|t rest] eqn:Y; [|eauto].
  exfalso. apply D.
  pose proof (derives_empty_sound may_be_empty may_be_empty_closed
                d $n V Y) as H.
  destruct n; first [reflexivity | discriminate H].
Qed.

(** X2: an expression spans at least one token, and its first token is a
    name or keyword, a number, or one of the marks that open an
    expression; no expression begins with a brace or with a mark that
    closes or separates. *)
Theorem expression_first_token d :
  valid $_expression d = true ->
  exists t rest,
    yield d = t :: rest /\ expression_start t = true /\
    ~ In t ["{"; "}"; ")"; "]"; ";"; ","; ":"; "?"; "="; "."; "=>"].
Proof.
  intros V.
  destruct (nonempty_yield _expression d V ltac:(discriminate))
    as (t & rest & Y).
  exists t, rest. split; [exact Y|].
  pose proof (first_token_sound _expression d t rest V Y) as H.
  split; [exact H|].
  intros I. simpl in I. change (expression_start t = true) in H.
  repeat (destruct I as [<-|I]; [discriminate H|]). exact I.
Qed.

Lemma expression_first_token_witness :
  exists t rest,
    yield (Build.var "a") = t :: rest /\ expression_start t = true /\
    ~ In t ["{"; "}"; ")"; "]"; ";"; ","; ":"; "?"; "="; "."; "=>"].
Proof. apply expression_first_token. reflexivity. Defined.

(** X3: a statement spans at least one token and begins with the brace
    of a block or with a token that begins an expression: there is no
    empty statement, a lone semicolon is not a statement. *)
Theorem statement_first_token d :
  valid $_statement d = true ->
  (exists t rest, yield d = t :: rest /\ statement_start t = true) /\
  yield d <> [";"].
Proof.
  intros V.
  destruct (nonempty_yield _statement d V ltac:(discriminate))
    as (t & rest & Y).
  pose proof (first_token_sound _statement d t rest V Y) as H.
  change (statement_start t = true) in H.
  split; [eauto|].
  rewrite Y. intros E. injection E as -> _. discriminate H.
Qed.

Lemma statement_first_token_witness :
  (exists t rest,
     yield (DSym (DAlt 0 Build.empty_block)) = t :: rest /\
     statement_start t = true) /\
  yield (DSym (DAlt 0 Build.empty_block)) <> [";"].
Proof. apply statement_first_token. reflexivity. Defined.

(** ** Rules that are never used *)

Lemma kinds_app cs1 cs2 :
  kinds (cs1 ++ cs2) = (kinds cs1 ++ kinds cs2)%list.
Proof. unfold kinds. apply flat_map_app. Qed.

Lemma kinds_with_field f cs : kinds (map (with_field f) cs) = kinds cs.
Proof.
  unfold kinds. induction cs as [|[g t] cs IH]; simpl; [reflexivity|].
  rewrite IH. now destruct g.
Qed.

Lemma kinds_renamed U a cs :
  forallb (kind_within U) (kinds cs) = true ->
  forallb (kind_within U) (kinds (map (renamed a) cs)) = true.
Proof.
  unfold kinds. induction cs as [|[g t] cs IH]; simpl; [reflexivity|].
  rewrite !forallb_app. intros H. apply andb_prop in H. destruct H as [H1 H2].
  rewrite (IH H2), andb_true_r. destruct t as [w|k cs']; simpl; [reflexivity|].
  simpl in H1. apply andb_prop in H1. now destruct H1.
Qed.

Lemma symbols_member U rs i r :
  nth_error rs i = Some r ->
  forallb U (flat_map symbols rs) = true -> forallb U (symbols r) = true.
Proof.
  intros E H. apply forallb_forall. intros n I.
  rewrite forallb_forall in H. apply H. apply in_flat_map.
  exists r. split; [eapply nth_error_In; eassumption | exact I].
Qed.

Section UsedRules.

Variable U : sym -> bool.
Hypothesis U_closed :
  forall n, U n = true -> forallb U (symbols (Solidity.rules n)) = true.

Lemma cst_kinds_within d :
  forall r, valid r d = true -> forallb U (symbols r) = true ->
            forallb (kind_within U) (kinds (cst r d)) = true.
Proof.
  induction d as [ |w|d IH|ds IH|i d IH|ds IH|d IH]
    using derivation_induction; intros r V S.
  - destruct r; reflexivity.
  - destruct r; reflexivity.
  - destruct r as [| | |n| | | | | | | | |]; try discriminate V.
    simpl in V, S. rewrite andb_true_r in S.
    pose proof (IH _ V (U_closed n S)) as K.
    simpl. destruct (terminal n), (hidden n); try reflexivity;
      try exact K; unfold kinds in *; simpl; rewrite app_nil_r, S;
      [|exact K].
    clear. induction (yield d); [reflexivity | assumption].
  - destruct r as [| | | |rs| | | | | | | |]; try discriminate V.
    revert rs V S.
    induction IH as [|d ds Hd _ IHds]; intros [|r rs] V S;
      try discriminate V; [reflexivity|].
    rewrite valid_seq_cons in V. apply andb_prop in V. destruct V as [V1 V2].
    simpl in S. rewrite forallb_app in S. apply andb_prop in S.
    destruct S as [S1 S2].
    rewrite cst_seq_cons, kinds_app, forallb_app.
    now rewrite (Hd r V1 S1), (IHds rs V2 S2).
  - destruct r as [| | | | |rs| | | | | | |]; try discriminate V.
    simpl in V. simpl. destruct (nth_error rs i) as [r'|] eqn:E;
      try discriminate V.
    apply IH; [exact V|]. exact (symbols_member U rs i r' E S).
  - assert (K : forall c, forallb (valid c) ds = true ->
                          forallb U (symbols c) = true ->
                          forallb (kind_within U)
                                  (kinds (flat_map (cst c) ds)) = true).
    { intros c. clear V.
      induction IH as [|d ds Hd _ IHds]; intros W Sc; [reflexivity|].
      simpl in W. apply andb_prop in W. destruct W as [W1 W2].
      simpl. rewrite kinds_app, forallb_app.
      now rewrite (Hd c W1 Sc), (IHds W2 Sc). }
    destruct r as [| | | | | |c|c| | | | |]; try discriminate V;
      simpl in V; simpl.
    + now apply K.
    + apply andb_prop in V. destruct V as [_ V]. now apply K.
  - destruct r as [| | | | | | | |a p c|f c|c a| |]; try discriminate V;
      simpl in V, S; simpl.
    + now apply IH.
    + rewrite kinds_with_field. now apply IH.
    + apply kinds_renamed. now apply IH.
Qed.

End UsedRules.

Lemma used_spec n :
  used n = negb (existsb (sym_eqb n) [assembly_statement; number; _override]).
Proof.
  unfold used.
  let l := eval vm_compute in (reach 1000 [] roots) in
  assert (E : reach 1000 [] roots = l) by (vm_compute; reflexivity);
  rewrite E.
  destruct n; reflexivity.
Qed.

Lemma used_closed n :
  used n = true -> forallb used (symbols (Solidity.rules n)) = true.
Proof.
  intros _. apply forallb_forall. intros m I. rewrite used_spec.
  destruct n; simpl in I;
    repeat (destruct I as [<-|I]; [reflexivity|]); contradiction.
Qed.

(** X4: three rules of the table are never used: no rule refers to
    [assembly_statement], [number] or [_override], and every other rule is
    met from the start rule, the extras or the word token.  So no node of
    the tree of a source file is an assembly statement or a [number]. *)
Theorem unused_rules :
  (forall n, used n = false <->
             In n [assembly_statement; number; _override]) /\
  (forall d k,
     valid $source_file d = true -> In k (kinds (cst $source_file d)) ->
     kind_within used k = true /\
     k <> Rule assembly_statement /\ k <> Rule number).
Proof.
  split.
  - intros n. rewrite used_spec. split.
    + destruct n; simpl; intros H; first [discriminate H | tauto].
    + simpl. intros [<-|[<-|[<-|[]]]]; reflexivity.
  - intros d k V I.
    assert (S : forallb used (symbols $source_file) = true).
    { change (used source_file && true = true). now rewrite used_spec. }
    pose proof (cst_kinds_within used used_closed d $source_file V S) as K.
    rewrite forallb_forall in K. specialize (K k I).
    split; [exact K|].
    split; intros ->; unfold kind_within in K; rewrite used_spec in K;
      discriminate K.
Qed.

Lemma unused_rules_witness :
  kind_within used (Rule source_file) = true /\
  Rule source_file <> Rule assembly_statement /\
  Rule source_file <> Rule number.
Proof.
  apply (proj2 unused_rules (DSym (DSeq [DRep []]))).
  - reflexivity.
  - simpl. tauto.
Defined.

(** ** The helper functions *)

Lemma accepts_all r xs :
  Forall (accepts r) xs ->
  exists ds, forallb (valid r) ds = true /\ map yield ds = xs.
Proof.
  induction 1 as [|x xs (d & V & Y) _ (ds & Vs & Ys)].
  - now exists [].
  - exists (d :: ds). simpl. now rewrite V, Vs, Y, Ys.
Qed.

Lemma all_accepted r ds :
  forallb (valid r) ds = true -> Forall (accepts r) (map yield ds).
Proof.
  induction ds as [|d ds IH]; simpl; intros H; constructor.
  - apply andb_prop in H. destruct H as [H _]. now exists d.
  - apply andb_prop in H. destruct H as [_ H]. auto.
Qed.

Lemma comma_items_yield r ds :
  forallb (valid (SEQ [STRING ","; r])) ds = true ->
  exists es,
    forallb (valid r) es = true /\
    flat_map yield ds = flat_map (cons ",") (map yield es).
Proof.
  induction ds as [|d ds IH]; simpl; intros H.
  - now exists [].
  - apply andb_prop in H. destruct H as [V H].
    destruct (IH H) as (es & Ves & Yes).
    apply valid_seq_cons_inv in V. destruct V as (d1 & ds1 & -> & V1 & V).
    apply valid_string_inv in V1. subst d1.
    apply valid_seq_cons_inv in V. destruct V as (d2 & ds2 & E & V2 & V).
    injection E as ->.
    apply valid_seq_nil_inv in V. injection V as ->.
    exists (d2 :: es). simpl. rewrite V2, Ves, Yes, app_nil_r. auto.
Qed.

Lemma comma_items_built r es :
  forallb (valid r) es = true ->
  forallb (valid (SEQ [STRING ","; r]))
          (map (fun e => DSeq [DTok ","; e]) es) = true /\
  flat_map yield (map (fun e => DSeq [DTok ","; e]) es) =
    flat_map (cons ",") (map yield es).
Proof.
  induction es as [|e es IH]; simpl; intros H; [auto|].
  apply andb_prop in H. destruct H as [V H]. destruct (IH H) as [Vs Ys].
  rewrite V, Vs, Ys, app_nil_r. auto.
Qed.

Lemma commaSep1_language r ts :
  accepts (commaSep1 r) ts <->
  exists x xs,
    accepts r x /\ Forall (accepts r) xs /\
    (ts = (x ++ flat_map (cons ",") xs)%list \/
     ts = (x ++ flat_map (cons ",") xs ++ [","])%list).
Proof.
  unfold commaSep1, seq, repeat, optional. split.
  - intros (d & V & <-).
    apply valid_seq_cons_inv in V. destruct V as (d1 & ds1 & -> & V1 & V).
    apply valid_seq_cons_inv in V. destruct V as (d2 & ds2 & E & V2 & V).
    injection E as ->.
    apply valid_seq_cons_inv in V. destruct V as (d3 & ds3 & E & V3 & V).
    injection E as ->.
    apply valid_seq_nil_inv in V. injection V as ->.
    apply valid_repeat_inv in V2. destruct V2 as (ds & -> & V2).
    destruct (comma_items_yield r ds V2) as (es & Ves & Yes).
    exists (yield d1), (map yield es).
    split; [now exists d1|]. split; [now apply all_accepted|].
    apply valid_choice_inv in V3. destruct V3 as (i & d' & r' & -> & E & V3).
    simpl. rewrite Yes, app_nil_r.
    destruct i as [|[|i]]; simpl in E.
    + injection E as <-. apply valid_string_inv in V3. subst d'. now right.
    + injection E as <-. apply valid_blank_inv in V3. subst d'.
      left. simpl. now rewrite app_nil_r.
    + destruct i; discriminate E.
  - intros (x & xs & (d & V & <-) & Hxs & E).
    destruct (accepts_all r xs Hxs) as (es & Ves & <-).
    destruct (comma_items_built r es Ves) as [Vs Ys].
    destruct E as [-> | ->].
    + exists (DSeq [d; DRep (map (fun e => DSeq [DTok ","; e]) es);
                    DAlt 1 DBlank]).
      split.
      * simpl. simpl in Vs. now rewrite V, Vs.
      * simpl. simpl in Ys. now rewrite Ys, !app_nil_r.
    + exists (DSeq [d; DRep (map (fun e => DSeq [DTok ","; e]) es);
                    DAlt 0 (DTok ",")]).
      split.
      * simpl. simpl in Vs. now rewrite V, Vs.
      * simpl. simpl in Ys. now rewrite Ys.
Qed.

(** X5: [commaSep1(rule)] derives one or more items of [rule] with a
    comma between neighbours, and optionally a comma after the last;
    [commaSep(rule)] derives these lists and the empty one. *)
Theorem comma_separated_lists r ts :
  (accepts (commaSep1 r) ts <->
   exists x xs,
     accepts r x /\ Forall (accepts r) xs /\
     (ts = (x ++ flat_map (cons ",") xs)%list \/
      ts = (x ++ flat_map (cons ",") xs ++ [","])%list)) /\
  (accepts (commaSep r) ts <-> ts = [] \/ accepts (commaSep1 r) ts).
Proof.
  split; [apply commaSep1_language|].
  unfold commaSep, optional. split.
  - intros (d & V & <-).
    apply valid_choice_inv in V. destruct V as (i & d' & r' & -> & E & V).
    destruct i as [|[|i]]; simpl in E.
    + injection E as <-. right. now exists d'.
    + injection E as <-. apply valid_blank_inv in V. subst d'. now left.
    + destruct i; discriminate E.
  - intros [-> | (d & V & <-)].
    + now exists (DAlt 1 DBlank).
    + now exists (DAlt 0 d).
Qed.

Lemma dash_items_yield r ds :
  forallb (valid (SEQ [CHOICE [STRING "_"; BLANK]; r])) ds = true ->
  exists ys : list (bool * derivation),
    forallb (fun y => valid r (snd y)) ys = true /\
    flat_map yield ds =
      flat_map (fun y : bool * derivation =>
                  if fst y then "_" :: yield (snd y) else yield (snd y)) ys.
Proof.
  induction ds as [|d ds IH]; simpl; intros H.
  - now exists [].
  - apply andb_prop in H. destruct H as [V H].
    destruct (IH H) as (ys & Vys & Yys).
    apply valid_seq_cons_inv in V. destruct V as (d1 & ds1 & -> & V1 & V).
    apply valid_seq_cons_inv in V. destruct V as (d2 & ds2 & E & V2 & V).
    injection E as ->.
    apply valid_seq_nil_inv in V. injection V as ->.
    apply valid_choice_inv in V1. destruct V1 as (i & d' & r' & -> & E & V1).
    destruct i as [|[|i]]; simpl in E.
    + injection E as <-. apply valid_string_inv in V1. subst d'.
      exists ((true, d2) :: ys). simpl. rewrite V2, Vys, Yys, app_nil_r. auto.
    + injection E as <-. apply valid_blank_inv in V1. subst d'.
      exists ((false, d2) :: ys). simpl. rewrite V2, Vys, Yys, app_nil_r. auto.
    + destruct i; discriminate E.
Qed.

(** X6: [optionalDashSeparation(rule)] derives one item of [rule]
    followed by any number of further items, each of them optionally
    preceded by an underscore. *)
Theorem underscore_separated_items r ts :
  accepts (optionalDashSeparation r) ts <->
  exists x (ys : list (bool * list token)),
    accepts r x /\ Forall (fun y => accepts r (snd y)) ys /\
    ts = (x ++ flat_map (fun y : bool * list token =>
                           if fst y then "_" :: snd y else snd y) ys)%list.
Proof.
  unfold optionalDashSeparation, seq, repeat, optional. split.
  - intros (d & V & <-).
    apply valid_seq_cons_inv in V. destruct V as (d1 & ds1 & -> & V1 & V).
    apply valid_seq_cons_inv in V. destruct V as (d2 & ds2 & E & V2 & V).
    injection E as ->.
    apply valid_seq_nil_inv in V. injection V as ->.
    apply valid_repeat_inv in V2. destruct V2 as (ds & -> & V2).
    destruct (dash_items_yield r ds V2) as (ys & Vys & Yys).
    exists (yield d1),
      (map (fun y : bool * derivation => (fst y, yield (snd y))) ys).
    split; [now exists d1|]. split.
    + clear Yys. induction ys as [|[b e] ys IH]; simpl in *; constructor.
      * apply andb_prop in Vys. destruct Vys as [Ve _]. now exists e.
      * apply andb_prop in Vys. destruct Vys as [_ Vys]. auto.
    + simpl. rewrite Yys, app_nil_r. f_equal.
      clear. induction ys as [|[b e] ys IH]; simpl; [reflexivity|].
      now rewrite IH.
  - intros (x & ys & (d & V & <-) & Hys & ->).
    assert (K : exists ds,
               forallb (valid (SEQ [CHOICE [STRING "_"; BLANK]; r])) ds
               = true /\
               flat_map yield ds =
               flat_map (fun y : bool * list token =>
                           if fst y then "_" :: snd y else snd y) ys).
    { induction Hys as [|[b y] ys (e & Ve & Ye) _ (ds & Vs & Ys)].
      - now exists [].
      - simpl in Ye. subst y. destruct b.
        + exists (DSeq [DAlt 0 (DTok "_"); e] :: ds). simpl.
          rewrite Ve, Vs, Ys, app_nil_r. auto.
        + exists (DSeq [DAlt 1 DBlank; e] :: ds). simpl.
          rewrite Ve, Vs, Ys, app_nil_r. auto. }
    destruct K as (ds & Vs & Ys).
    exists (DSeq [d; DRep ds]). split.
    + simpl. now rewrite V, Vs.
    + simpl. now rewrite Ys, app_nil_r.
Qed.

(** ** Call arguments *)

Lemma expression_first d :
  valid $_expression d = true ->
  exists t rest, yield d = t :: rest /\ expression_start t = true.
Proof.
  intros V.
  destruct (nonempty_yield _expression d V ltac:(discriminate))
    as (t & rest & Y).
  exists t, rest. split; [exact Y|].
  exact (first_token_sound _expression d t rest V Y).
Qed.

Lemma call_arguments_first d :
  valid $_call_arguments d = true ->
  exists rest cs,
    yield d = "(" :: rest /\
    cst $_call_arguments d = (None, Leaf "(") :: cs.
Proof.
  intros V. inv1 V. inv1 V. inv1 V. inv1 V0. simpl. eauto.
Qed.

Lemma literal_first d :
  valid $literal d = true ->
  exists t rest,
    yield d = t :: rest /\
    (In t [dquote; squote; "0x"; "true"; "false"; "hex"; "unicode"] \/
     matches Solidity.Re.decimal_mantissa t = true).
Proof.
  intros H. inv_sym H.
  - on_sym string_literal ltac:(fun V => inv_sym V).
    on_sym string ltac:(fun V => inv_sym V);
      do 2 eexists; (split; [reflexivity|]); left; simpl; tauto.
  - on_sym number_literal ltac:(fun V =>
      apply number_literal_shape in V;
      destruct V as (body & suffix & E & [(m & Hm & B)|(g & -> & _)] & _)).
    + exists m. simpl. rewrite E.
      destruct B as [->|(e & -> & _)]; eexists; (split; [reflexivity|]);
        now right.
    + simpl. rewrite E. do 2 eexists. split; [reflexivity|].
      left. simpl. tauto.
  - on_sym boolean_literal ltac:(fun V => inv_sym V);
      do 2 eexists; (split; [reflexivity|]); left; simpl; tauto.
  - on_sym hex_string_literal ltac:(fun V => inv_sym V);
      do 2 eexists; (split; [reflexivity|]); left; simpl; tauto.
  - on_sym unicode_string_literal ltac:(fun V => inv_sym V);
      do 2 eexists; (split; [reflexivity|]); left; simpl; tauto.
Qed.

Lemma user_defined_type_tokens d :
  valid $_user_defined_type d = true ->
  Forall (fun w => matches Solidity.Re.identifier w = true \/ w = ".")
         (yield d).
Proof.
  intros H. inv_sym H. use_identifier.
  match goal with V : valid (REPEAT _) _ = true |- _ =>
    inv1 V; rename V into R end.
  simpl. constructor; [now left|]. rewrite app_nil_r.
  induction ds as [|d ds IH]; simpl; [constructor|].
  simpl in R. apply andb_prop in R. destruct R as [V R].
  inv_body. use_identifier. simpl.
  constructor; [now right|]. constructor; [now left|]. auto.
Qed.

(** [Y] equates a yield to a token list: compare them from the end. *)
Ltac from_end Y :=
  apply (f_equal (@rev String.string)) in Y; simpl in Y;
  repeat (progress (rewrite ?rev_app_distr in Y; simpl in Y)).

Lemma member_call_rejected :
  ~ accepts $_expression ["a"; "."; "f"; "("; "x"; ")"].
Proof.
  intros (d & V & Y). inv_sym V.
  - (* binary_expression: no token is an operator *)
    on_sym binary_expression ltac:(fun V =>
      apply binary_inv in V;
      destruct V as (i & op & p & l & r & O & -> & Vl & Vr)).
    apply nth_error_In in O.
    assert (K : In op ["a"; "."; "f"; "("; "x"; ")"])
      by (rewrite <- Y; simpl; rewrite !app_nil_r; find_in).
    simpl in K, O.
    repeat (destruct K as [<-|K]; [intuition discriminate|]). exact K.
  - on_sym unary_expression ltac:(fun V => inv_sym V); discriminate Y.
  - on_sym update_expression ltac:(fun V => inv_sym V);
      first [discriminate Y | from_end Y; discriminate Y].
  - on_sym call_expresion ltac:(fun V => inv_sym V). use_identifier.
    on_sym _call_arguments ltac:(fun V =>
      destruct (call_arguments_first _ V) as (rest & cs & Ya & _)).
    simpl in Y. rewrite Ya in Y. discriminate Y.
  - on_sym payable_conversion_expression ltac:(fun V => inv_sym V).
    discriminate Y.
  - on_sym meta_type_expression ltac:(fun V => inv_sym V). discriminate Y.
  - on_sym primary_expression ltac:(fun V => inv_sym V).
    + on_sym parenthesized_expression ltac:(fun V => inv_sym V).
      discriminate Y.
    + on_sym member_expression ltac:(fun V => inv_sym V);
        repeat use_identifier; from_end Y; injection Y as -> _;
        match goal with W : matches _ ")" = true |- _ => discriminate W end.
    + on_sym array_access ltac:(fun V => inv_sym V).
      from_end Y. discriminate Y.
    + on_sym slice_access ltac:(fun V => inv_sym V).
      from_end Y. discriminate Y.
    + on_sym _primitive_type ltac:(fun V =>
        destruct (primitive_type_yield _ V) as (w & [E|E])); simpl in Y;
        rewrite E in Y; discriminate Y.
    + on_sym assignment_expression ltac:(fun V => inv_sym V);
        absent "=" Y.
    + on_sym augmented_assignment_expression ltac:(fun V => inv_sym V);
        match type of Y with
        | context [DTok ?op] => absent op Y
        end.
    + on_sym _user_defined_type ltac:(fun V =>
        apply user_defined_type_tokens in V; simpl in Y; rewrite Y in V).
      rewrite Forall_forall in V.
      destruct (V "(" ltac:(simpl; tauto)); discriminate.
    + on_sym tuple_expression ltac:(fun V => inv_sym V); discriminate Y.
    + on_sym inline_array_expression ltac:(fun V => inv_sym V);
        discriminate Y.
    + use_identifier. discriminate Y.
    + on_sym literal ltac:(fun V =>
        destruct (literal_first _ V) as (t & rest & E & [I|M])); simpl in Y;
        rewrite E in Y; injection Y as -> _.
      * simpl in I. intuition discriminate.
      * discriminate M.
    + on_sym new_expression ltac:(fun V => inv_sym V). discriminate Y.
  - on_sym struct_expression ltac:(fun V => inv_sym V);
      from_end Y; discriminate Y.
  - on_sym ternary_expression ltac:(fun V => inv_sym V). absent "?" Y.
  - on_sym type_cast_expression ltac:(fun V => inv_sym V).
    on_sym _primitive_type ltac:(fun V =>
      destruct (primitive_type_yield _ V) as (w & [E|E])); simpl in Y;
      rewrite E in Y; discriminate Y.
Qed.

Lemma commaSep_cases r ts :
  accepts (commaSep r) ts <-> ts = [] \/ accepts (commaSep1 r) ts.
Proof.
  unfold commaSep, optional. split.
  - intros (d & V & <-).
    apply valid_choice_inv in V. destruct V as (i & d' & r' & -> & E & V).
    destruct i as [|[|i]]; simpl in E.
    + injection E as <-. right. now exists d'.
    + injection E as <-. apply valid_blank_inv in V. subst d'. now left.
    + destruct i; discriminate E.
  - intros [-> | (d & V & <-)].
    + now exists (DAlt 1 DBlank).
    + now exists (DAlt 0 d).
Qed.

Lemma call_arguments_inv ts :
  accepts $_call_arguments ts <->
  exists args,
    accepts (commaSep call_argument) args /\ ts = ("(" :: args ++ [")"])%list.
Proof.
  split.
  - intros (d & V & <-).
    apply valid_symbol_inv in V. destruct V as (d0 & -> & V).
    change (Solidity.rules _call_arguments)
      with (CHOICE [SEQ [STRING "("; commaSep call_argument; STRING ")"]])
      in V.
    apply valid_choice_inv in V. destruct V as (i & d' & r' & -> & E & V).
    destruct i as [|i]; simpl in E; [|destruct i; discriminate E].
    injection E as <-.
    apply valid_seq_cons_inv in V. destruct V as (d1 & ds1 & -> & V1 & V).
    apply valid_seq_cons_inv in V. destruct V as (d2 & ds2 & E & V2 & V).
    injection E as ->.
    apply valid_seq_cons_inv in V. destruct V as (d3 & ds3 & E & V3 & V).
    injection E as ->.
    apply valid_seq_nil_inv in V. injection V as ->.
    apply valid_string_inv in V1, V3. subst d1 d3.
    exists (yield d2). split; [now exists d2|]. reflexivity.
  - intros (args & (d & V & <-) & ->).
    exists (DSym (DAlt 0 (DSeq [DTok "("; d; DTok ")"]))). split.
    + change (valid (commaSep call_argument) d && true = true).
      now rewrite V.
    + reflexivity.
Qed.

Lemma call_argument_forms a :
  accepts call_argument a <->
  accepts $_expression a \/
  exists names,
    accepts (commaSep $identifier) names /\
    a = ("{" :: names ++ ["}"])%list.
Proof.
  unfold call_argument, choice, seq. split.
  - intros (d & V & <-).
    apply valid_choice_inv in V. destruct V as (i & d' & r' & -> & E & V).
    destruct i as [|[|i]]; simpl in E.
    + injection E as <-. left. now exists d'.
    + injection E as <-. right.
      apply valid_seq_cons_inv in V. destruct V as (d1 & ds1 & -> & V1 & V).
      apply valid_seq_cons_inv in V. destruct V as (d2 & ds2 & E & V2 & V).
      injection E as ->.
      apply valid_seq_cons_inv in V. destruct V as (d3 & ds3 & E & V3 & V).
      injection E as ->.
      apply valid_seq_nil_inv in V. injection V as ->.
      apply valid_string_inv in V1, V3. subst d1 d3.
      exists (yield d2). split; [now exists d2|]. reflexivity.
    + destruct i; discriminate E.
  - intros [(d & V & <-) | (names & (d & V & <-) & ->)].
    + now exists (DAlt 0 d).
    + exists (DAlt 1 (DSeq [DTok "{"; d; DTok "}"])). split.
      * change (valid (commaSep $identifier) d && true = true).
        now rewrite V.
      * reflexivity.
Qed.

Lemma identifier_token x :
  accepts $identifier x ->
  exists w, x = [w] /\ matches Solidity.Re.identifier w = true.
Proof.
  intros (d & V & <-). use_identifier. exists w.
  split; [reflexivity | assumption].
Qed.

(** The names between the braces of an argument. *)
Lemma braced_names names :
  accepts (commaSep $identifier) names ->
  Forall (fun w => matches Solidity.Re.identifier w = true \/ w = ",") names.
Proof.
  intros H. apply commaSep_cases in H. destruct H as [-> | H]; [constructor|].
  apply commaSep1_language in H.
  destruct H as (x & xs & Hx & Hxs & E).
  apply identifier_token in Hx. destruct Hx as (w & -> & Hw).
  assert (K : Forall (fun w => matches Solidity.Re.identifier w = true \/
                               w = ",")
                     (flat_map (cons ",") xs)).
  { clear E. induction Hxs as [|y ys Hy _ IH]; simpl; [constructor|].
    apply identifier_token in Hy. destruct Hy as (v & -> & Hv).
    constructor; [now right|]. constructor; [now left | exact IH]. }
  destruct E as [-> | ->]; simpl; (constructor; [now left|]);
    [exact K|].
  apply Forall_app. split; [exact K|]. constructor; [now right | constructor].
Qed.

(** An argument that opens with a brace lists names. *)
Lemma braced_argument a rest :
  accepts call_argument a -> a = "{" :: rest ->
  exists names,
    rest = (names ++ ["}"])%list /\
    Forall (fun w => matches Solidity.Re.identifier w = true \/ w = ",")
           names.
Proof.
  intros H E. apply call_argument_forms in H.
  destruct H as [(d & V & Y) | (names & H & ->)].
  - destruct (expression_first d V) as (t & r & Yt & Ht).
    rewrite Y, E in Yt. injection Yt as <- _. discriminate Ht.
  - injection E as <-. exists names. split; [reflexivity|].
    now apply braced_names.
Qed.

Lemma call_arguments_language ts :
  accepts $_call_arguments ts <->
  ts = ["("; ")"] \/
  exists a args,
    accepts call_argument a /\ Forall (accepts call_argument) args /\
    (ts = ("(" :: a ++ flat_map (cons ",") args ++ [")"])%list \/
     ts = ("(" :: a ++ flat_map (cons ",") args ++ [","; ")"])%list).
Proof.
  rewrite call_arguments_inv. split.
  - intros (l & H & ->). apply commaSep_cases in H.
    destruct H as [-> | H]; [now left|]. right.
    apply commaSep1_language in H. destruct H as (a & args & Ha & Hs & E).
    exists a, args. split; [exact Ha|]. split; [exact Hs|].
    destruct E as [-> | ->]; [left | right];
      rewrite <- ?app_assoc; reflexivity.
  - intros [-> | (a & args & Ha & Hs & E)].
    + exists []. split; [|reflexivity]. apply commaSep_cases. now left.
    + assert (K : accepts (commaSep call_argument)
                    (a ++ flat_map (cons ",") args)%list /\
                  accepts (commaSep call_argument)
                    (a ++ flat_map (cons ",") args ++ [","])%list).
      { split; apply commaSep_cases; right; apply commaSep1_language;
          exists a, args; (split; [exact Ha|]); (split; [exact Hs|]);
          [now left | now right]. }
      destruct E as [-> | ->].
      * exists (a ++ flat_map (cons ",") args)%list.
        split; [exact (proj1 K)|]. now rewrite <- !app_assoc.
      * exists (a ++ flat_map (cons ",") args ++ [","])%list.
        split; [exact (proj2 K)|]. now rewrite <- !app_assoc.
Qed.

Lemma name_comma_rejected : ~ accepts $_expression ["x"; ","].
Proof.
  intros (d & V & Y). inv_sym V.
  - on_sym binary_expression ltac:(fun V =>
      apply binary_inv in V;
      destruct V as (i & op & p & l & r & O & -> & Vl & Vr)).
    apply nth_error_In in O.
    assert (K : In op ["x"; ","])
      by (rewrite <- Y; simpl; rewrite !app_nil_r; find_in).
    simpl in K, O.
    repeat (destruct K as [<-|K]; [intuition discriminate|]). exact K.
  - on_sym unary_expression ltac:(fun V => inv_sym V); discriminate Y.
  - on_sym update_expression ltac:(fun V => inv_sym V);
      first [discriminate Y | from_end Y; discriminate Y].
  - on_sym call_expresion ltac:(fun V => inv_sym V). use_identifier.
    on_sym _call_arguments ltac:(fun V =>
      destruct (call_arguments_first _ V) as (rest & cs & Ya & _)).
    simpl in Y. rewrite Ya in Y. discriminate Y.
  - on_sym payable_conversion_expression ltac:(fun V => inv_sym V).
    discriminate Y.
  - on_sym meta_type_expression ltac:(fun V => inv_sym V). discriminate Y.
  - on_sym primary_expression ltac:(fun V => inv_sym V).
    + on_sym parenthesized_expression ltac:(fun V => inv_sym V).
      discriminate Y.
    + on_sym member_expression ltac:(fun V => inv_sym V);
        repeat use_identifier; from_end Y; injection Y as -> _;
        match goal with W : matches _ "," = true |- _ => discriminate W end.
    + on_sym array_access ltac:(fun V => inv_sym V).
      from_end Y. discriminate Y.
    + on_sym slice_access ltac:(fun V => inv_sym V).
      from_end Y. discriminate Y.
    + on_sym _primitive_type ltac:(fun V =>
        destruct (primitive_type_yield _ V) as (w & [E|E])); simpl in Y;
        rewrite E in Y; discriminate Y.
    + on_sym assignment_expression ltac:(fun V => inv_sym V);
        absent "=" Y.
    + on_sym augmented_assignment_expression ltac:(fun V => inv_sym V);
        match type of Y with
        | context [DTok ?op] => absent op Y
        end.
    + on_sym _user_defined_type ltac:(fun V =>
        apply user_defined_type_tokens in V; simpl in Y; rewrite Y in V).
      rewrite Forall_forall in V.
      destruct (V "," ltac:(simpl; tauto)); discriminate.
    + on_sym tuple_expression ltac:(fun V => inv_sym V); discriminate Y.
    + on_sym inline_array_expression ltac:(fun V => inv_sym V);
        discriminate Y.
    + use_identifier. discriminate Y.
    + on_sym literal ltac:(fun V =>
        destruct (literal_first _ V) as (t & rest & E & [I|M])); simpl in Y;
        rewrite E in Y; injection Y as -> _.
      * simpl in I. intuition discriminate.
      * discriminate M.
    + on_sym new_expression ltac:(fun V => inv_sym V). discriminate Y.
  - on_sym struct_expression ltac:(fun V => inv_sym V);
      from_end Y; discriminate Y.
  - on_sym ternary_expression ltac:(fun V => inv_sym V). absent "?" Y.
  - on_sym type_cast_expression ltac:(fun V => inv_sym V).
    on_sym _primitive_type ltac:(fun V =>
      destruct (primitive_type_yield _ V) as (w & [E|E])); simpl in Y;
      rewrite E in Y; discriminate Y.
Qed.

Lemma name_comma_braces_rejected :
  ~ accepts $_expression ["x"; ","; "{"; "a"; ":"; "1"; "}"].
Proof.
  intros (d & V & Y). inv_sym V.
  - on_sym binary_expression ltac:(fun V =>
      apply binary_inv in V;
      destruct V as (i & op & p & l & r & O & -> & Vl & Vr)).
    apply nth_error_In in O.
    assert (K : In op ["x"; ","; "{"; "a"; ":"; "1"; "}"])
      by (rewrite <- Y; simpl; rewrite !app_nil_r; find_in).
    simpl in K, O.
    repeat (destruct K as [<-|K]; [intuition discriminate|]). exact K.
  - on_sym unary_expression ltac:(fun V => inv_sym V); discriminate Y.
  - on_sym update_expression ltac:(fun V => inv_sym V);
      first [discriminate Y | from_end Y; discriminate Y].
  - on_sym call_expresion ltac:(fun V => inv_sym V). use_identifier.
    on_sym _call_arguments ltac:(fun V =>
      destruct (call_arguments_first _ V) as (rest & cs & Ya & _)).
    simpl in Y. rewrite Ya in Y. discriminate Y.
  - on_sym payable_conversion_expression ltac:(fun V => inv_sym V).
    discriminate Y.
  - on_sym meta_type_expression ltac:(fun V => inv_sym V). discriminate Y.
  - on_sym primary_expression ltac:(fun V => inv_sym V).
    + on_sym parenthesized_expression ltac:(fun V => inv_sym V).
      discriminate Y.
    + on_sym member_expression ltac:(fun V => inv_sym V);
        repeat use_identifier; from_end Y; injection Y as -> _;
        match goal with W : matches _ "}" = true |- _ => discriminate W end.
    + on_sym array_access ltac:(fun V => inv_sym V).
      from_end Y. discriminate Y.
    + on_sym slice_access ltac:(fun V => inv_sym V).
      from_end Y. discriminate Y.
    + on_sym _primitive_type ltac:(fun V =>
        destruct (primitive_type_yield _ V) as (w & [E|E])); simpl in Y;
        rewrite E in Y; discriminate Y.
    + on_sym assignment_expression ltac:(fun V => inv_sym V);
        absent "=" Y.
    + on_sym augmented_assignment_expression ltac:(fun V => inv_sym V);
        match type of Y with
        | context [DTok ?op] => absent op Y
        end.
    + on_sym _user_defined_type ltac:(fun V =>
        apply user_defined_type_tokens in V; simpl in Y; rewrite Y in V).
      rewrite Forall_forall in V.
      destruct (V "," ltac:(simpl; tauto)); discriminate.
    + on_sym tuple_expression ltac:(fun V => inv_sym V); discriminate Y.
    + on_sym inline_array_expression ltac:(fun V => inv_sym V);
        discriminate Y.
    + use_identifier. discriminate Y.
    + on_sym literal ltac:(fun V =>
        destruct (literal_first _ V) as (t & rest & E & [I|M])); simpl in Y;
        rewrite E in Y; injection Y as -> _.
      * simpl in I. intuition discriminate.
      * discriminate M.
    + on_sym new_expression ltac:(fun V => inv_sym V). discriminate Y.
  - on_sym struct_expression ltac:(fun V => inv1 V).
    apply valid_seq_cons_inv in V. destruct V as (e & ds & -> & Ve & V).
    apply valid_seq_cons_inv in V. destruct V as (b & ds' & E & Vb & _).
    injection E as ->. apply valid_string_inv in Vb. subst b.
    apply name_comma_rejected. exists e. split; [exact Ve|].
    simpl in Y. remember (yield e) as l eqn:El. clear El Ve.
    split_prefix l Y; try discriminate Y. reflexivity.
  - on_sym ternary_expression ltac:(fun V => inv_sym V). absent "?" Y.
  - on_sym type_cast_expression ltac:(fun V => inv_sym V).
    on_sym _primitive_type ltac:(fun V =>
      destruct (primitive_type_yield _ V) as (w & [E|E])); simpl in Y;
      rewrite E in Y; discriminate Y.
Qed.

(** The separators before the later arguments: nothing, or a comma
    first. *)
Lemma later_arguments (args : list (list token)) :
  flat_map (cons ",") args = [] \/
  exists b rest, args = b :: rest /\
    flat_map (cons ",") args = ("," :: b ++ flat_map (cons ",") rest)%list.
Proof.
  destruct args as [|b rest]; [now left|]. right. now exists b, rest.
Qed.

Lemma second_argument_rejected :
  ~ accepts $_call_arguments ["("; "x"; ","; "{"; "a"; ":"; "1"; "}"; ")"].
Proof.
  intros H. apply call_arguments_language in H.
  destruct H as [H | (a & args & Ha & Hs & E)]; [discriminate H|].
  assert (K : (a ++ flat_map (cons ",") args)%list
              = ["x"; ","; "{"; "a"; ":"; "1"; "}"]).
  { destruct E as [E | E]; injection E as E; symmetry in E.
    - change ["x"; ","; "{"; "a"; ":"; "1"; "}"; ")"]
        with (["x"; ","; "{"; "a"; ":"; "1"; "}"] ++ [")"])%list in E.
      rewrite app_assoc in E. apply app_inj_tail in E. now destruct E.
    - change ["x"; ","; "{"; "a"; ":"; "1"; "}"; ")"]
        with ((["x"; ","; "{"; "a"; ":"; "1"] ++ ["}"]) ++ [")"])%list in E.
      change [","; ")"] with ([","] ++ [")"])%list in E.
      rewrite !app_assoc in E. apply app_inj_tail in E. destruct E as [E _].
      apply app_inj_tail in E. destruct E as [_ E]. discriminate E. }
  clear E.
  destruct (later_arguments args) as [N | (b & rest & -> & N)];
    rewrite N in K; clear N.
  - (* one argument, the comma within it *)
    rewrite app_nil_r in K. subst a.
    apply call_argument_forms in Ha.
    destruct Ha as [Ha | (names & _ & E)]; [|discriminate E].
    exact (name_comma_braces_rejected Ha).
  - (* the second argument opens with the brace *)
    split_prefix a K; try discriminate K.
    injection K as K. inversion Hs as [|b' rest' Hb _]; subst.
    destruct b as [|t b].
    + apply call_argument_forms in Hb.
      destruct Hb as [(d & V & Y) | (names & _ & E)]; [|discriminate E].
      destruct (expression_first d V) as (t & r & Yt & _).
      rewrite Y in Yt. discriminate Yt.
    + simpl in K. injection K as -> K.
      destruct (braced_argument _ b Hb eq_refl) as (names & -> & F).
      rewrite <- app_assoc in K. simpl in K.
      rewrite Forall_forall in F.
      split_prefix names K; try discriminate K.
      destruct (F ":" ltac:(simpl; tauto)); discriminate.
Qed.

(** X7: every argument of a call, whatever its position, is an expression
    or a list of names in braces: [commaSep] is handed [identifier], a
    colon and [_expression] and takes the first, so an argument that opens
    with a brace holds names and commas up to its closing brace.  The
    arguments [({a, b})] are accepted; the named arguments [({a: 1})] and
    [(x, {a: 1})] are not. *)
Theorem braces_in_call_arguments :
  (forall ts,
     accepts $_call_arguments ts ->
     ts = ["("; ")"] \/
     exists a args,
       accepts call_argument a /\ Forall (accepts call_argument) args /\
       (ts = ("(" :: a ++ flat_map (cons ",") args ++ [")"])%list \/
        ts = ("(" :: a ++ flat_map (cons ",") args ++ [","; ")"])%list)) /\
  (forall a,
     accepts call_argument a ->
     accepts $_expression a \/
     exists names,
       accepts (commaSep $identifier) names /\
       a = ("{" :: names ++ ["}"])%list) /\
  (forall a rest,
     accepts call_argument a -> a = "{" :: rest ->
     exists names,
       rest = (names ++ ["}"])%list /\
       Forall (fun w => matches Solidity.Re.identifier w = true \/ w = ",")
              names) /\
  accepts $_call_arguments ["("; "{"; "a"; ","; "b"; "}"; ")"] /\
  ~ accepts $_call_arguments ["("; "{"; "a"; ":"; "1"; "}"; ")"] /\
  ~ accepts $_call_arguments ["("; "x"; ","; "{"; "a"; ":"; "1"; "}"; ")"].
Proof.
  split; [intros ts; apply call_arguments_language|].
  split; [intros a; apply call_argument_forms|].
  split; [exact braced_argument|].
  split; [|split; [|exact second_argument_rejected]].
  - exists (DSym (DAlt 0 (DSeq
      [DTok "(";
       Build.sep [DAlt 1 (DSeq [DTok "{";
                                Build.sep [Build.ident "a"; Build.ident "b"];
                                DTok "}"])];
       DTok ")"]))).
    split; reflexivity.
  - intros H. apply call_arguments_language in H.
    destruct H as [H | (a & args & Ha & Hs & E)]; [discriminate H|].
    assert (K : exists rest, a = "{" :: rest /\
                  exists tail, ["a"; ":"; "1"; "}"; ")"] = (rest ++ tail)%list).
    { destruct a as [|t a].
      - apply call_argument_forms in Ha.
        destruct Ha as [(d & V & Y) | (names & _ & E')]; [|discriminate E'].
        destruct (expression_first d V) as (t & r & Yt & _).
        rewrite Y in Yt. discriminate Yt.
      - destruct E as [E | E]; simpl in E; injection E as <- E;
          exists a; (split; [reflexivity|]); eauto. }
    destruct K as (rest & -> & tail & K).
    destruct (braced_argument _ rest Ha eq_refl) as (names & -> & F).
    rewrite <- app_assoc in K. simpl in K. symmetry in K.
    rewrite Forall_forall in F.
    split_prefix names K; try discriminate K.
    destruct (F ":" ltac:(simpl; tauto)); discriminate.
Qed.

Lemma braces_in_call_arguments_witness :
  exists names,
    ["a"; ","; "b"; "}"] = (names ++ ["}"])%list /\
    Forall (fun w => matches Solidity.Re.identifier w = true \/ w = ",")
           names.
Proof.
  apply (proj1 (proj2 (proj2 braces_in_call_arguments))
           ["{"; "a"; ","; "b"; "}"]); [|reflexivity].
  exists (DAlt 1 (DSeq [DTok "{";
                        Build.sep [Build.ident "a"; Build.ident "b"];
                        DTok "}"])).
  split; reflexivity.
Defined.

(** X8: the function of a call expression is a name: the first child of
    every [call_expresion] node is an [identifier] node, followed by the
    parenthesis of the arguments.  So a call of a member, [a.f(x)], is not
    an expression. *)
Theorem call_callee_is_a_name :
  (forall d,
     valid $call_expresion d = true ->
     exists w args,
       matches Solidity.Re.identifier w = true /\
       cst $call_expresion d =
         [(None, Node (Rule call_expresion)
            ((None, Node (Rule identifier) [(None, Leaf w)]) ::
             (None, Leaf "(") :: args))]) /\
  ~ accepts $_expression ["a"; "."; "f"; "("; "x"; ")"].
Proof.
  split; [|exact member_call_rejected].
  intros d V. inv_sym V. use_identifier.
  on_sym _call_arguments ltac:(fun V =>
    destruct (call_arguments_first _ V) as (rest & cs & _ & C)).
  exists w, cs. split; [exact Hw|].
  cbn [cst hidden Solidity.rules nth_error seq choice app].
  change (cst (Solidity.rules identifier) (DTok w))
    with [(@None String.string, Leaf w)].
  rewrite C, app_nil_r. reflexivity.
Qed.

Lemma call_callee_is_a_name_witness :
  exists w args,
    matches Solidity.Re.identifier w = true /\
    cst $call_expresion
        (DSym (DAlt 0 (DSeq [Build.ident "f";
                             DSym (DAlt 0 (DSeq [DTok "("; Build.none;
                                                 DTok ")"]))]))) =
      [(None, Node (Rule call_expresion)
         ((None, Node (Rule identifier) [(None, Leaf w)]) ::
          (None, Leaf "(") :: args))].
Proof. apply (proj1 call_callee_is_a_name). reflexivity. Defined.

(** ** Grouping of operators *)

Lemma resolved_three_eq al ar n a p l op r :
  is_pnode l = true -> is_pnode r = true ->
  resolved al ar (PNode n a p [l; PTok op; r]) =
  forallb (shift_allowed (a, p)) ar &&
  forallb (fun Q => reduce_allowed Q (a, p)) al &&
  (resolved [(a, p)] ar l && resolved al [(a, p)] r).
Proof.
  destruct l, r; try discriminate. intros _ _.
  cbn [resolved starts_with_node ends_with_node is_pnode rev app is_nil].
  now rewrite !andb_true_r.
Qed.

Lemma resolved_prefix al ar n a p op r :
  is_pnode r = true ->
  resolved al ar (PNode n a p [PTok op; r]) =
  forallb (fun Q => reduce_allowed Q (a, p)) al && resolved al [(a, p)] r.
Proof.
  destruct r; try discriminate. intros _.
  cbn [resolved starts_with_node ends_with_node is_pnode rev app is_nil].
  now rewrite !andb_true_r.
Qed.

Lemma resolved_five_eq al ar n a p c q1 t q2 e :
  is_pnode c = true -> is_pnode e = true ->
  resolved al ar (PNode n a p [c; PTok q1; t; PTok q2; e]) =
  forallb (shift_allowed (a, p)) ar &&
  forallb (fun Q => reduce_allowed Q (a, p)) al &&
  (resolved [(a, p)] ar c && (resolved [] [] t && resolved al [(a, p)] e)).
Proof.
  destruct c, e; try discriminate. intros _ _.
  cbn [resolved starts_with_node ends_with_node is_pnode rev app is_nil].
  now rewrite !andb_true_r.
Qed.

(** A name is one token: no conflict arises in it. *)
Lemma name_items w :
  items $_expression (Build.var w) =
    [PNode _expression NoAssoc 0
       [PNode primary_expression NoAssoc 0 [PTok w]]].
Proof. reflexivity. Qed.

Lemma name_resolved al ar w :
  resolved al ar
    (PNode _expression NoAssoc 0
       [PNode primary_expression NoAssoc 0 [PTok w]]) = true.
Proof. reflexivity. Qed.

Lemma binary_precedence i op p :
  nth_error Solidity.binary_operators i = Some (op, p) -> (2 <= p <= 7)%Z.
Proof.
  intros O. apply nth_error_In in O. simpl in O.
  repeat (destruct O as [O|O];
          [injection O as <- <-; vm_compute; intuition discriminate|]).
  contradiction.
Qed.

Lemma binary_conflict_free i op p l r tl tr :
  nth_error Solidity.binary_operators i = Some (op, p) ->
  valid $_expression l = true -> valid $_expression r = true ->
  items $_expression l = [tl] -> items $_expression r = [tr] ->
  conflict_free $_expression (binary_derivation i op l r) =
  resolved [(LeftAssoc, p)] [] tl && resolved [] [(LeftAssoc, p)] tr.
Proof.
  intros O Vl Vr El Er.
  destruct (binary_items i op p l r O Vl Vr)
    as (tl' & tr' & Nl & Nr & El' & Er' & E).
  rewrite El in El'. injection El' as <-.
  rewrite Er in Er'. injection Er' as <-.
  unfold conflict_free. rewrite E. cbn [forallb].
  rewrite resolved_unit, resolved_three_eq by assumption.
  cbn [forallb]. now rewrite andb_true_r.
Qed.

Lemma name_valid x :
  matches Solidity.Re.identifier x = true ->
  valid $_expression (Build.var x) = true.
Proof. intros H. simpl. exact H. Qed.

Lemma binary_item i op p l r :
  nth_error Solidity.binary_operators i = Some (op, p) ->
  valid $_expression l = true -> valid $_expression r = true ->
  exists tl tr,
    items $_expression l = [tl] /\ items $_expression r = [tr] /\
    is_pnode tl = true /\ is_pnode tr = true /\
    items $_expression (binary_derivation i op l r) =
      [PNode _expression NoAssoc 0
         [PNode binary_expression LeftAssoc p [tl; PTok op; tr]]].
Proof.
  intros O Vl Vr.
  destruct (binary_items i op p l r O Vl Vr)
    as (tl & tr & Nl & Nr & El & Er & E).
  exists tl, tr. auto.
Qed.

(** A binary expression as left operand binds at least as tightly as the
    operator to its right. *)
Lemma binary_left_operand i op p r j op' p' l' r' :
  nth_error Solidity.binary_operators i = Some (op, p) ->
  nth_error Solidity.binary_operators j = Some (op', p') ->
  valid $_expression r = true -> valid $_expression l' = true ->
  valid $_expression r' = true ->
  conflict_free $_expression
    (binary_derivation i op (binary_derivation j op' l' r') r) = true ->
  (p <= p')%Z.
Proof.
  intros O O' Vr Vl' Vr' H.
  destruct (binary_item j op' p' l' r' O' Vl' Vr')
    as (tl' & tr' & _ & _ & Nl' & Nr' & E').
  pose proof (binary_valid j op' p' l' r' O' Vl' Vr') as Vl.
  destruct (binary_item i op p _ r O Vl Vr)
    as (tl & tr & El & Er & Nl & Nr & E).
  rewrite (binary_conflict_free i op p _ r tl tr O Vl Vr El Er) in H.
  rewrite E' in El. injection El as <-.
  apply andb_prop in H. destruct H as [H _].
  rewrite resolved_unit, resolved_three_eq in H by assumption.
  apply andb_prop in H. destruct H as [H _].
  apply andb_prop in H. destruct H as [_ H].
  unfold reduce_allowed in H. cbn [fst snd forallb] in H.
  rewrite andb_true_r in H. apply orb_prop in H.
  destruct H as [H|H].
  - apply Z.ltb_lt in H. lia.
  - apply andb_prop in H. destruct H as [H _]. apply Z.eqb_eq in H. lia.
Qed.

Lemma left_grouping i op1 p1 j op2 p2 x y z :
  nth_error Solidity.binary_operators i = Some (op1, p1) ->
  nth_error Solidity.binary_operators j = Some (op2, p2) ->
  matches Solidity.Re.identifier x = true ->
  matches Solidity.Re.identifier y = true ->
  matches Solidity.Re.identifier z = true ->
  conflict_free $_expression
    (binary_derivation j op2
       (binary_derivation i op1 (Build.var x) (Build.var y))
       (Build.var z)) =
  (p2 <=? p1)%Z.
Proof.
  intros O1 O2 Hx Hy Hz.
  pose proof (name_valid x Hx) as Vx. pose proof (name_valid y Hy) as Vy.
  pose proof (name_valid z Hz) as Vz.
  pose proof (binary_valid i op1 p1 _ _ O1 Vx Vy) as V1.
  destruct (binary_item i op1 p1 _ _ O1 Vx Vy)
    as (tx & ty & Ex & Ey & _ & _ & E1).
  rewrite name_items in Ex, Ey. injection Ex as <-. injection Ey as <-.
  rewrite (binary_conflict_free j op2 p2 _ _ _ _ O2 V1 Vz E1 (name_items z)).
  rewrite name_resolved, andb_true_r.
  rewrite resolved_unit, resolved_three_eq by reflexivity.
  rewrite !name_resolved. unfold reduce_allowed. cbn [fst snd forallb].
  rewrite !andb_true_r. cbn [andb].
  destruct (Z.ltb_spec p2 p1), (Z.eqb_spec p1 p2), (Z.leb_spec p2 p1);
    try reflexivity; lia.
Qed.

Lemma right_grouping i op1 p1 j op2 p2 x y z :
  nth_error Solidity.binary_operators i = Some (op1, p1) ->
  nth_error Solidity.binary_operators j = Some (op2, p2) ->
  matches Solidity.Re.identifier x = true ->
  matches Solidity.Re.identifier y = true ->
  matches Solidity.Re.identifier z = true ->
  conflict_free $_expression
    (binary_derivation i op1 (Build.var x)
       (binary_derivation j op2 (Build.var y) (Build.var z))) =
  (p1 <? p2)%Z.
Proof.
  intros O1 O2 Hx Hy Hz.
  pose proof (name_valid x Hx) as Vx. pose proof (name_valid y Hy) as Vy.
  pose proof (name_valid z Hz) as Vz.
  pose proof (binary_valid j op2 p2 _ _ O2 Vy Vz) as V2.
  destruct (binary_item j op2 p2 _ _ O2 Vy Vz)
    as (ty & tz & Ey & Ez & _ & _ & E2).
  rewrite name_items in Ey, Ez. injection Ey as <-. injection Ez as <-.
  rewrite (binary_conflict_free i op1 p1 _ _ _ _ O1 Vx V2 (name_items x) E2).
  rewrite name_resolved, andb_true_l.
  rewrite resolved_unit, resolved_three_eq by reflexivity.
  rewrite !name_resolved. unfold shift_allowed. cbn [fst snd forallb].
  rewrite !andb_true_r, andb_false_r, orb_false_r. reflexivity.
Qed.

(** X9: of two binary operators between three names, the grouping is
    decided by the precedences of the table alone: [(x op1 y) op2 z] is
    the parser's tree exactly when [op2] does not bind tighter than [op1],
    and [x op1 (y op2 z)] exactly when [op2] binds tighter.  Whatever the
    operands, a binary expression is a left operand only of an operator
    that does not bind tighter. *)
Theorem binary_grouping i op1 p1 j op2 p2 :
  nth_error Solidity.binary_operators i = Some (op1, p1) ->
  nth_error Solidity.binary_operators j = Some (op2, p2) ->
  (forall x y z,
     matches Solidity.Re.identifier x = true ->
     matches Solidity.Re.identifier y = true ->
     matches Solidity.Re.identifier z = true ->
     (parses $_expression [x; op1; y; op2; z]
        (binary_derivation j op2
           (binary_derivation i op1 (Build.var x) (Build.var y))
           (Build.var z)) <-> (p2 <= p1)%Z) /\
     (parses $_expression [x; op1; y; op2; z]
        (binary_derivation i op1 (Build.var x)
           (binary_derivation j op2 (Build.var y) (Build.var z)))
      <-> (p1 < p2)%Z)) /\
  (forall l r r',
     valid $_expression l = true -> valid $_expression r = true ->
     valid $_expression r' = true ->
     conflict_free $_expression
       (binary_derivation j op2 (binary_derivation i op1 l r) r') = true ->
     (p2 <= p1)%Z).
Proof.
  intros O1 O2. split.
  - intros x y z Hx Hy Hz.
    pose proof (name_valid x Hx) as Vx. pose proof (name_valid y Hy) as Vy.
    pose proof (name_valid z Hz) as Vz.
    unfold parses.
    rewrite (left_grouping i op1 p1 j op2 p2 x y z O1 O2 Hx Hy Hz).
    rewrite (right_grouping i op1 p1 j op2 p2 x y z O1 O2 Hx Hy Hz).
    rewrite (binary_valid j op2 p2 _ _ O2
               (binary_valid i op1 p1 _ _ O1 Vx Vy) Vz).
    rewrite (binary_valid i op1 p1 _ _ O1 Vx
               (binary_valid j op2 p2 _ _ O2 Vy Vz)).
    rewrite !binary_yield. cbn [yield Build.var Build.primary Build.expr
                                 Build.ident app].
    rewrite Z.leb_le, Z.ltb_lt. tauto.
  - intros l r r' Vl Vr Vr' H.
    exact (binary_left_operand j op2 p2 r' i op1 p1 l r O2 O1 Vr' Vl Vr H).
Qed.

Lemma binary_grouping_witness :
  parses $_expression ["a"; "*"; "b"; "+"; "c"]
    (binary_derivation 8 "+"
       (binary_derivation 10 "*" (Build.var "a") (Build.var "b"))
       (Build.var "c")).
Proof.
  apply (proj1 (proj1 (binary_grouping 10 "*" PREC.TIMES 8 "+" PREC.PLUS
                         eq_refl eq_refl)
                      "a" "b" "c" eq_refl eq_refl eq_refl)).
  vm_compute. discriminate.
Defined.

(** ** Unary operators *)

Lemma unary_rules :
  Solidity.rules unary_expression =
  CHOICE (map unary_rule Solidity.unary_operators).
Proof. reflexivity. Qed.

Lemma unary_precedence i op p :
  nth_error Solidity.unary_operators i = Some (op, p) -> (8 <= p)%Z.
Proof.
  intros O. apply nth_error_In in O. simpl in O.
  repeat (destruct O as [O|O];
          [injection O as <- <-; vm_compute; discriminate|]).
  contradiction.
Qed.

Lemma unary_inv d :
  valid $unary_expression d = true ->
  exists i op p e,
    nth_error Solidity.unary_operators i = Some (op, p) /\
    d = DSym (DAlt i (DWrap (DSeq [DWrap (DTok op); DWrap e]))) /\
    valid $_expression e = true.
Proof.
  intros H. apply valid_symbol_inv in H. destruct H as (d0 & -> & H).
  rewrite unary_rules in H. apply valid_choice_inv in H.
  destruct H as (i & d1 & r1 & -> & E & H).
  rewrite nth_error_map in E.
  destruct (nth_error Solidity.unary_operators i) as [[op p]|] eqn:O;
    try discriminate E.
  simpl in E. injection E as <-. inv_body.
  exists i, op, p. eauto 8.
Qed.

(** The expression [d] is a unary expression when its node is one. *)
Lemma expression_unary_inv d t :
  valid $_expression d = true ->
  cst $_expression d = [(None, t)] -> is_unary t = true ->
  exists i op p e,
    nth_error Solidity.unary_operators i = Some (op, p) /\
    d = unary_derivation i op e /\ valid $_expression e = true.
Proof.
  intros H C B. inv_sym H;
    match goal with V : valid (SYMBOL ?n) ?k = true |- _ =>
      pose proof V as V'; inv1 V'; simpl in C; injection C as <-;
      try discriminate B
    end.
  match goal with V : valid $unary_expression _ = true |- _ =>
    apply unary_inv in V;
    destruct V as (i & op & p & e & O & E & Ve)
  end.
  injection E as ->. exists i, op, p, e. auto.
Qed.

Lemma unary_items i op p e :
  nth_error Solidity.unary_operators i = Some (op, p) ->
  items $_expression (unary_derivation i op e) =
    [PNode _expression NoAssoc 0
       [PNode unary_expression LeftAssoc p
          (PTok op :: items $_expression e)]].
Proof.
  intros O. unfold unary_derivation.
  change (items $_expression (DSym (DAlt 1 ?b)))
    with [PNode _expression
            (fst (prod_prec $unary_expression b))
            (snd (prod_prec $unary_expression b))
            (items $unary_expression b)].
  change (items $unary_expression (DSym (DAlt i ?b)))
    with [PNode unary_expression
            (fst (prod_prec (Solidity.rules unary_expression) (DAlt i b)))
            (snd (prod_prec (Solidity.rules unary_expression) (DAlt i b)))
            (items (Solidity.rules unary_expression) (DAlt i b))].
  rewrite unary_rules.
  cbn [prod_prec items fst snd].
  rewrite (map_nth_error unary_rule i Solidity.unary_operators O).
  cbn [unary_rule prec_left seq field prod_prec items fst snd app].
  now rewrite app_nil_r.
Qed.

Lemma unary_cst i op p e :
  nth_error Solidity.unary_operators i = Some (op, p) ->
  cst $_expression (unary_derivation i op e) =
    [(None, Node (Rule unary_expression)
       ((Some "operator", Leaf op) ::
        map (with_field "argument") (cst $_expression e)))].
Proof.
  intros O. unfold unary_derivation.
  change (cst $_expression (DSym (DAlt 1 (DSym ?b))))
    with [(@None String.string,
           Node (Rule unary_expression)
                (cst (Solidity.rules unary_expression) b))].
  rewrite unary_rules. cbn [cst].
  rewrite (map_nth_error unary_rule i Solidity.unary_operators O).
  cbn [unary_rule prec_left seq field cst fst snd map with_field app].
  now rewrite !app_nil_r.
Qed.

Lemma ternary_item c th e :
  valid $_expression c = true -> valid $_expression th = true ->
  valid $_expression e = true ->
  exists tc tt te,
    is_pnode tc = true /\ is_pnode te = true /\
    items $_expression (ternary_derivation c th e) =
      [PNode _expression NoAssoc 0
         [PNode ternary_expression LeftAssoc 0
            [tc; PTok "?"; tt; PTok ":"; te]]].
Proof.
  intros Vc Vt Ve.
  destruct (ternary_items c th e Vc Vt Ve)
    as (tc & tt & te & Nc & Ne & _ & E).
  exists tc, tt, te. auto.
Qed.

(** The argument of a unary operator is no binary and no ternary
    expression. *)
Lemma unary_argument i op p e t :
  nth_error Solidity.unary_operators i = Some (op, p) ->
  valid $_expression e = true ->
  conflict_free $_expression (unary_derivation i op e) = true ->
  cst $_expression e = [(None, t)] ->
  is_binary t = false /\ is_ternary t = false.
Proof.
  intros O Ve H C. pose proof (unary_precedence i op p O) as Hp.
  unfold conflict_free in H. rewrite (unary_items i op p e O) in H.
  cbn [forallb] in H. rewrite andb_true_r, resolved_unit in H.
  split.
  - destruct (is_binary t) eqn:B; [exfalso|reflexivity].
    destruct (expression_binary_inv e t Ve C B)
      as (j & op' & p' & l & r & O' & -> & Vl & Vr).
    destruct (binary_item j op' p' l r O' Vl Vr)
      as (tl & tr & _ & _ & Nl & Nr & E).
    pose proof (binary_precedence j op' p' O') as Hp'.
    rewrite E, resolved_prefix in H by reflexivity.
    apply andb_prop in H. destruct H as [_ H].
    rewrite resolved_unit, resolved_three_eq in H by assumption.
    apply andb_prop in H. destruct H as [H _].
    apply andb_prop in H. destruct H as [H _].
    unfold shift_allowed in H. cbn [fst snd forallb] in H.
    rewrite andb_false_r, orb_false_r, andb_true_r in H.
    apply Z.ltb_lt in H. lia.
  - destruct (is_ternary t) eqn:B; [exfalso|reflexivity].
    destruct (expression_ternary_inv e t Ve C B)
      as (c & th & e' & -> & Vc & Vt & Ve').
    destruct (ternary_item c th e' Vc Vt Ve')
      as (tc & tt & te & Nc & Ne & E).
    rewrite E, resolved_prefix in H by reflexivity.
    apply andb_prop in H. destruct H as [_ H].
    rewrite resolved_unit, resolved_five_eq in H by assumption.
    apply andb_prop in H. destruct H as [H _].
    apply andb_prop in H. destruct H as [H _].
    unfold shift_allowed in H. cbn [fst snd forallb] in H.
    rewrite andb_false_r, orb_false_r, andb_true_r in H.
    apply Z.ltb_lt in H. lia.
Qed.

(** X10: a unary operator binds tighter than every binary operator and
    than the conditional: in the parser's tree the argument of a unary
    expression is never a binary or a ternary expression, and [-a ** b]
    parses with [-a] as the left operand of [**]. *)
Theorem unary_binds_tighter :
  (forall d outer inner,
     valid $_expression d = true -> conflict_free $_expression d = true ->
     cst $_expression d = [(None, outer)] -> is_unary outer = true ->
     In inner (field_of "argument" outer) ->
     is_binary inner = false /\ is_ternary inner = false) /\
  parses $_expression ["-"; "a"; "**"; "b"]
    (binary_derivation 13 "**" (unary_derivation 2 "-" (Build.var "a"))
       (Build.var "b")).
Proof.
  split; [|repeat split].
  intros d outer inner V H C U I.
  destruct (expression_unary_inv d outer V C U)
    as (i & op & p & e & O & -> & Ve).
  destruct (expression_node e Ve) as (n & d' & _ & Ce).
  rewrite (unary_cst i op p e O), Ce in C. injection C as <-.
  simpl in I. destruct I as [<-|[]].
  exact (unary_argument i op p e _ O Ve H Ce).
Qed.

Lemma unary_binds_tighter_witness :
  is_binary (Node (Rule primary_expression)
               [(None, Node (Rule identifier) [(None, Leaf "a")])]) = false /\
  is_ternary (Node (Rule primary_expression)
                [(None, Node (Rule identifier) [(None, Leaf "a")])]) = false.
Proof.
  apply (proj1 unary_binds_tighter
           (unary_derivation 2 "-" (Build.var "a"))
           (Node (Rule unary_expression)
              [(Some "operator", Leaf "-");
               (Some "argument",
                Node (Rule primary_expression)
                  [(None, Node (Rule identifier) [(None, Leaf "a")])])]));
    try reflexivity.
  simpl. tauto.
Defined.

(** A ternary expression is no operand of a binary operator. *)
Lemma binary_operand_not_ternary i op p l r nl nr :
  nth_error Solidity.binary_operators i = Some (op, p) ->
  valid $_expression l = true -> valid $_expression r = true ->
  conflict_free $_expression (binary_derivation i op l r) = true ->
  cst $_expression l = [(None, nl)] -> cst $_expression r = [(None, nr)] ->
  is_ternary nl = false /\ is_ternary nr = false.
Proof.
  intros O Vl Vr H Cl Cr. pose proof (binary_precedence i op p O) as Hp.
  destruct (binary_item i op p l r O Vl Vr)
    as (tl & tr & El & Er & Nl & Nr & E).
  rewrite (binary_conflict_free i op p l r tl tr O Vl Vr El Er) in H.
  apply andb_prop in H. destruct H as [Hl Hr]. split.
  - destruct (is_ternary nl) eqn:B; [exfalso|reflexivity].
    destruct (expression_ternary_inv l nl Vl Cl B)
      as (c & th & e & -> & Vc & Vt & Ve).
    destruct (ternary_item c th e Vc Vt Ve)
      as (tc & tt & te & Nc & Ne & E').
    rewrite E' in El. injection El as <-.
    rewrite resolved_unit, resolved_five_eq in Hl by assumption.
    apply andb_prop in Hl. destruct Hl as [Hl _].
    apply andb_prop in Hl. destruct Hl as [_ Hl].
    unfold reduce_allowed in Hl. cbn [fst snd forallb] in Hl.
    rewrite andb_true_r in Hl. apply orb_prop in Hl.
    destruct Hl as [Hl|Hl].
    + apply Z.ltb_lt in Hl. lia.
    + apply andb_prop in Hl. destruct Hl as [Hl _].
      apply Z.eqb_eq in Hl. lia.
  - destruct (is_ternary nr) eqn:B; [exfalso|reflexivity].
    destruct (expression_ternary_inv r nr Vr Cr B)
      as (c & th & e & -> & Vc & Vt & Ve).
    destruct (ternary_item c th e Vc Vt Ve)
      as (tc & tt & te & Nc & Ne & E').
    rewrite E' in Er. injection Er as <-.
    rewrite resolved_unit, resolved_five_eq in Hr by assumption.
    apply andb_prop in Hr. destruct Hr as [Hr _].
    apply andb_prop in Hr. destruct Hr as [Hr _].
    unfold shift_allowed in Hr. cbn [fst snd forallb] in Hr.
    rewrite andb_false_r, orb_false_r, andb_true_r in Hr.
    apply Z.ltb_lt in Hr. lia.
Qed.

(** X11: every binary operator binds tighter than the conditional: in the
    parser's tree no operand of a binary expression is a ternary
    expression; [a ? b : c + d] parses with [c + d] as its last branch and
    [a + b ? c : d] with [a + b] as its condition. *)
Theorem conditional_is_no_operand :
  (forall d outer inner,
     valid $_expression d = true -> conflict_free $_expression d = true ->
     cst $_expression d = [(None, outer)] -> is_binary outer = true ->
     In inner (node_children outer) ->
     is_ternary inner = false) /\
  parses $_expression ["a"; "?"; "b"; ":"; "c"; "+"; "d"]
    (ternary_derivation (Build.var "a") (Build.var "b")
       (binary_derivation 8 "+" (Build.var "c") (Build.var "d"))) /\
  parses $_expression ["a"; "+"; "b"; "?"; "c"; ":"; "d"]
    (ternary_derivation
       (binary_derivation 8 "+" (Build.var "a") (Build.var "b"))
       (Build.var "c") (Build.var "d")).
Proof.
  split; [|split; repeat split].
  intros d outer inner V H C B I.
  destruct (expression_binary_inv d outer V C B)
    as (i & op & p & l & r & O & -> & Vl & Vr).
  destruct (expression_node l Vl) as (n1 & d1 & _ & Cl).
  destruct (expression_node r Vr) as (n2 & d2 & _ & Cr).
  destruct (binary_operand_not_ternary i op p l r _ _ O Vl Vr H Cl Cr)
    as [Tl Tr].
  rewrite (binary_cst i op p l r O), Cl, Cr in C. injection C as <-.
  simpl in I. destruct I as [<-|[<-|[]]]; assumption.
Qed.

Lemma conditional_is_no_operand_witness :
  is_ternary (Node (Rule primary_expression)
                [(None, Node (Rule identifier) [(None, Leaf "a")])]) = false.
Proof.
  apply (proj1 conditional_is_no_operand
           (binary_derivation 8 "+" (Build.var "a") (Build.var "b"))
           (Node (Rule binary_expression)
              [(Some "left",
                Node (Rule primary_expression)
                  [(None, Node (Rule identifier) [(None, Leaf "a")])]);
               (Some "operator", Leaf "+");
               (Some "right",
                Node (Rule primary_expression)
                  [(None, Node (Rule identifier) [(None, Leaf "b")])])]));
    try reflexivity.
  simpl. tauto.
Defined.

(** ** Member access *)

Lemma resolved_suffix al ar n a p l t1 t2 :
  is_pnode l = true ->
  resolved al ar (PNode n a p [l; PTok t1; PTok t2]) =
  forallb (shift_allowed (a, p)) ar && resolved [(a, p)] ar l.
Proof.
  destruct l; try discriminate. intros _.
  cbn [resolved starts_with_node ends_with_node is_pnode rev app is_nil].
  now rewrite !andb_true_r.
Qed.

Lemma member_object_items obj w :
  items $member_expression
    (DSym (DWrap (DSeq [DWrap (DAlt 0 obj); DTok ".";
                        DWrap (DWrap (DSym (DTok w)))]))) =
  [PNode member_expression NoAssoc PREC.MEMBER
     (items $_expression obj ++ [PTok "."; PTok w])].
Proof. reflexivity. Qed.

Lemma member_object_cst obj w :
  cst $member_expression
    (DSym (DWrap (DSeq [DWrap (DAlt 0 obj); DTok ".";
                        DWrap (DWrap (DSym (DTok w)))]))) =
  [(None, Node (Rule member_expression)
      (map (with_field "object") (cst $_expression obj) ++
       [(None, Leaf ".");
        (Some "property",
         Node (Alias "property_identifier") [(None, Leaf w)])]))].
Proof. reflexivity. Qed.

(** The object of a member access is no binary, unary or ternary
    expression. *)
Lemma member_object obj w t :
  valid $_expression obj = true ->
  conflict_free $member_expression
    (DSym (DWrap (DSeq [DWrap (DAlt 0 obj); DTok ".";
                        DWrap (DWrap (DSym (DTok w)))]))) = true ->
  cst $_expression obj = [(None, t)] ->
  is_binary t = false /\ is_unary t = false /\ is_ternary t = false.
Proof.
  intros Vo H C. unfold conflict_free in H.
  rewrite member_object_items in H.
  split; [|split].
  - destruct (is_binary t) eqn:B; [exfalso|reflexivity].
    destruct (expression_binary_inv obj t Vo C B)
      as (j & op' & p' & l & r & O' & -> & Vl & Vr).
    destruct (binary_item j op' p' l r O' Vl Vr)
      as (tl & tr & _ & _ & Nl & Nr & E).
    pose proof (binary_precedence j op' p' O') as Hp'.
    rewrite E in H. cbn [forallb app] in H.
    rewrite andb_true_r, resolved_suffix in H by reflexivity.
    cbn [forallb andb] in H.
    rewrite resolved_unit, resolved_three_eq in H by assumption.
    apply andb_prop in H. destruct H as [H _].
    apply andb_prop in H. destruct H as [_ H].
    unfold reduce_allowed in H. cbn [fst snd forallb] in H.
    rewrite andb_true_r in H. apply orb_prop in H.
    destruct H as [H|H].
    + apply Z.ltb_lt in H. unfold PREC.MEMBER in H. lia.
    + apply andb_prop in H. destruct H as [H _].
      apply Z.eqb_eq in H. unfold PREC.MEMBER in H. lia.
  - destruct (is_unary t) eqn:B; [exfalso|reflexivity].
    destruct (expression_unary_inv obj t Vo C B)
      as (j & op' & p' & e & O' & -> & Ve).
    destruct (expression_items e Ve) as (a0 & p0 & i0 & Ee).
    assert (Hp' : (p' <= 10)%Z).
    { apply nth_error_In in O'. simpl in O'.
      repeat (destruct O' as [O'|O'];
              [injection O' as <- <-; vm_compute; discriminate|]).
      contradiction. }
    rewrite (unary_items j op' p' e O'), Ee in H. cbn [forallb app] in H.
    rewrite andb_true_r, resolved_suffix in H by reflexivity.
    cbn [forallb andb] in H.
    rewrite resolved_unit, resolved_prefix in H by reflexivity.
    apply andb_prop in H. destruct H as [H _].
    unfold reduce_allowed in H. cbn [fst snd forallb] in H.
    rewrite andb_true_r in H. apply orb_prop in H.
    destruct H as [H|H].
    + apply Z.ltb_lt in H. unfold PREC.MEMBER in H. lia.
    + apply andb_prop in H. destruct H as [H _].
      apply Z.eqb_eq in H. unfold PREC.MEMBER in H. lia.
  - destruct (is_ternary t) eqn:B; [exfalso|reflexivity].
    destruct (expression_ternary_inv obj t Vo C B)
      as (c & th & e & -> & Vc & Vt & Ve).
    destruct (ternary_item c th e Vc Vt Ve)
      as (tc & tt & te & Nc & Ne & E).
    rewrite E in H. cbn [forallb app] in H.
    rewrite andb_true_r, resolved_suffix in H by reflexivity.
    cbn [forallb andb] in H.
    rewrite resolved_unit, resolved_five_eq in H by assumption.
    apply andb_prop in H. destruct H as [H _].
    apply andb_prop in H. destruct H as [_ H].
    discriminate H.
Qed.

(** X12: member access binds tighter than every operator: in the
    parser's tree the object of a member expression is never a binary, a
    unary or a ternary expression, and [a + b.c] parses with [b.c] as the
    right operand of [+], the object of [b.c] being the identifier
    [b]. *)
Theorem member_binds_tightest :
  (forall d outer inner,
     valid $member_expression d = true ->
     conflict_free $member_expression d = true ->
     cst $member_expression d = [(None, outer)] ->
     In inner (field_of "object" outer) ->
     is_binary inner = false /\ is_unary inner = false /\
     is_ternary inner = false) /\
  (parses $_expression ["a"; "+"; "b"; "."; "c"]
     (binary_derivation 8 "+" (Build.var "a")
        (Build.primary 1
           (DSym (DWrap (DSeq [DWrap (DAlt 1 (Build.ident "b")); DTok ".";
                               DWrap (DWrap (DSym (DTok "c")))]))))) /\
   cst $_expression
     (binary_derivation 8 "+" (Build.var "a")
        (Build.primary 1
           (DSym (DWrap (DSeq [DWrap (DAlt 1 (Build.ident "b")); DTok ".";
                               DWrap (DWrap (DSym (DTok "c")))]))))) =
     [(None, Node (Rule binary_expression)
        [(Some "left", Node (Rule primary_expression)
            [(None, Node (Rule identifier) [(None, Leaf "a")])]);
         (Some "operator", Leaf "+");
         (Some "right", Node (Rule primary_expression)
            [(None, Node (Rule member_expression)
               [(Some "object", Node (Rule identifier) [(None, Leaf "b")]);
                (None, Leaf ".");
                (Some "property",
                 Node (Alias "property_identifier")
                   [(None, Leaf "c")])])])])]).
Proof.
  split; [|repeat split].
  intros d outer inner V H C I. inv_sym V; repeat use_identifier.
  - on_sym _expression ltac:(fun V => rename V into Vo).
    match type of Vo with valid _ ?o = true =>
      destruct (expression_node o Vo) as (n & d' & _ & Co);
      rewrite member_object_cst, Co in C; injection C as <-;
      simpl in I; destruct I as [<-|[]];
      exact (member_object o _ _ Vo H Co)
    end.
  - simpl in C. injection C as <-. simpl in I. destruct I as [<-|[]].
    repeat split.
Qed.

Lemma member_binds_tightest_witness :
  is_binary (Node (Rule identifier) [(None, Leaf "b")]) = false /\
  is_unary (Node (Rule identifier) [(None, Leaf "b")]) = false /\
  is_ternary (Node (Rule identifier) [(None, Leaf "b")]) = false.
Proof.
  apply (proj1 member_binds_tightest
           (DSym (DWrap (DSeq [DWrap (DAlt 1 (Build.ident "b")); DTok ".";
                               DWrap (DWrap (DSym (DTok "c")))])))
           (Node (Rule member_expression)
              [(Some "object", Node (Rule identifier) [(None, Leaf "b")]);
               (None, Leaf ".");
               (Some "property",
                Node (Alias "property_identifier") [(None, Leaf "c")])]));
    try reflexivity.
  simpl. tauto.
Defined.

(** ** The languages of the patterns *)

Lemma lang_eps_inv w : lang Eps w -> w = [].
Proof. now inversion 1. Qed.

Lemma lang_cls_inv neg rs w :
  lang (Cls neg rs) w -> exists c, w = [c] /\ in_class neg rs c = true.
Proof. inversion 1; subst. eauto. Qed.

Lemma lang_cat_inv r1 r2 w :
  lang (Cat r1 r2) w ->
  exists w1 w2, w = (w1 ++ w2)%list /\ lang r1 w1 /\ lang r2 w2.
Proof. inversion 1; subst. eauto. Qed.

Lemma lang_alt_inv r1 r2 w : lang (Alt r1 r2) w -> lang r1 w \/ lang r2 w.
Proof. inversion 1; subst; auto. Qed.

Lemma lang_chr c w : lang (chr c) w <-> w = [c].
Proof.
  unfold chr. split.
  - intros H. apply lang_cls_inv in H. destruct H as (c0 & -> & E).
    unfold in_class, in_range in E. simpl in E.
    rewrite orb_false_r in E. apply andb_prop in E. destruct E as [E1 E2].
    apply N.leb_le in E1, E2. f_equal. lia.
  - intros ->. constructor. unfold in_class, in_range. simpl.
    now rewrite N.leb_refl.
Qed.

Lemma lang_star_cls neg rs w :
  lang (Star (Cls neg rs)) w <-> forallb (in_class neg rs) w = true.
Proof.
  split.
  - remember (Star (Cls neg rs)) as r eqn:R. induction 1; try discriminate.
    + reflexivity.
    + injection R as ->. apply lang_cls_inv in H.
      destruct H as (c & -> & E). simpl. rewrite E. now apply IHlang2.
  - induction w as [|c w IH]; simpl; intros H.
    + constructor.
    + apply andb_prop in H. destruct H as [E H].
      apply (lang_star_cons (Cls neg rs) [c] w); [now constructor | auto].
Qed.

Lemma lang_plus_cls neg rs w :
  lang (plus (Cls neg rs)) w <->
  negb (is_nil w) && forallb (in_class neg rs) w = true.
Proof.
  unfold plus. split.
  - intros H. apply lang_cat_inv in H. destruct H as (w1 & w2 & -> & H1 & H2).
    apply lang_cls_inv in H1. destruct H1 as (c & -> & E).
    apply lang_star_cls in H2. simpl. now rewrite E, H2.
  - destruct w as [|c w]; simpl; [discriminate|]. intros H.
    apply andb_prop in H. destruct H as [E H].
    apply (lang_cat (Cls neg rs) _ [c] w); [now constructor|].
    now apply lang_star_cls.
Qed.

Lemma lang_lit s w : lang (lit s) w <-> w = codes s.
Proof.
  split; [apply lang_lit_inv|]. intros ->. unfold lit.
  induction (codes s) as [|c cs IH]; simpl.
  - constructor.
  - apply (lang_cat (chr c) _ [c] cs); [now apply lang_chr | exact IH].
Qed.

Lemma lang_opt r w : lang (opt r) w <-> lang r w \/ w = [].
Proof.
  unfold opt. split.
  - intros H. apply lang_alt_inv in H. destruct H as [H|H]; [now left|].
    right. now apply lang_eps_inv.
  - intros [H | ->]; [now apply lang_alt_l | apply lang_alt_r; constructor].
Qed.

Lemma lang_cat_iff r1 r2 w :
  lang (Cat r1 r2) w <->
  exists w1 w2, w = (w1 ++ w2)%list /\ lang r1 w1 /\ lang r2 w2.
Proof.
  split; [apply lang_cat_inv|].
  intros (w1 & w2 & -> & H1 & H2). now constructor.
Qed.

Lemma matches_lang r s : matches r s = true <-> lang r (codes s).
Proof. apply matches_codes_spec. Qed.

Lemma forallb_same {A : Type} (f g : A -> bool) (l : list A) :
  (forall x, f x = g x) -> forallb f l = forallb g l.
Proof.
  intros E. induction l as [|x l IH]; simpl; [reflexivity|].
  now rewrite E, IH.
Qed.

Lemma digit_class c : in_class false digit_ranges c = digit_code c.
Proof.
  unfold in_class, digit_ranges, in_range, digit_code. simpl.
  now rewrite orb_false_r.
Qed.

Lemma lang_digits w : lang (plus digit) w <-> digits w = true.
Proof.
  unfold digit, digits. rewrite lang_plus_cls.
  now rewrite (forallb_same _ _ w digit_class).
Qed.

(** ** Names and numbers *)

Lemma name_start_class c :
  in_class false [(97, 122); (65, 90); (36, 36); (95, 95)]%N c = name_start c.
Proof.
  unfold in_class, in_range, name_start, letter. simpl.
  rewrite orb_false_r, !orb_assoc.
  replace ((36 <=? c) && (c <=? 36))%N with (c =? 36)%N
    by (destruct (N.eqb_spec c 36), (N.leb_spec 36 c), (N.leb_spec c 36);
        simpl; try reflexivity; lia).
  replace ((95 <=? c) && (c <=? 95))%N with (c =? 95)%N
    by (destruct (N.eqb_spec c 95), (N.leb_spec 95 c), (N.leb_spec c 95);
        simpl; try reflexivity; lia).
  reflexivity.
Qed.

Lemma name_part_class c :
  in_class false [(97, 122); (65, 90); (48, 57); (36, 36); (95, 95)]%N c =
  name_part c.
Proof.
  unfold in_class, in_range, name_part, name_start, letter, digit_code.
  simpl. rewrite orb_false_r.
  replace ((36 <=? c) && (c <=? 36))%N with (c =? 36)%N
    by (destruct (N.eqb_spec c 36), (N.leb_spec 36 c), (N.leb_spec c 36);
        simpl; try reflexivity; lia).
  replace ((95 <=? c) && (c <=? 95))%N with (c =? 95)%N
    by (destruct (N.eqb_spec c 95), (N.leb_spec 95 c), (N.leb_spec c 95);
        simpl; try reflexivity; lia).
  destruct ((97 <=? c) && (c <=? 122))%N, ((65 <=? c) && (c <=? 90))%N,
    ((48 <=? c) && (c <=? 57))%N, (c =? 36)%N, (c =? 95)%N; reflexivity.
Qed.

(** X13: an identifier is a letter, a dollar sign or an underscore,
    followed by any number of these and of digits: it is never empty and
    never begins with a digit. *)
Theorem identifier_shape w :
  matches Solidity.Re.identifier w = true <->
  exists c cs,
    codes w = c :: cs /\ name_start c = true /\ forallb name_part cs = true.
Proof.
  rewrite matches_lang. unfold Solidity.Re.identifier.
  rewrite lang_cat_iff. split.
  - intros (w1 & w2 & E & H1 & H2).
    apply lang_cls_inv in H1. destruct H1 as (c & -> & Hc).
    apply lang_star_cls in H2.
    exists c, w2. rewrite <- name_start_class.
    rewrite <- (forallb_same _ _ w2 name_part_class). auto.
  - intros (c & cs & E & Hc & Hcs).
    exists [c], cs. split; [exact E|]. split.
    + constructor. now rewrite name_start_class.
    + apply lang_star_cls.
      now rewrite (forallb_same _ _ cs name_part_class).
Qed.

Lemma lang_dot w : lang dot w <-> exists c, w = [c] /\ c <> 10%N.
Proof.
  unfold dot. split.
  - intros H. apply lang_cls_inv in H. destruct H as (c & -> & E).
    exists c. split; [reflexivity|]. intros ->. discriminate E.
  - intros (c & -> & D). constructor.
    unfold in_class, in_range. simpl. rewrite orb_false_r.
    destruct (N.leb_spec 10 c), (N.leb_spec c 10); try reflexivity. lia.
Qed.

(** The fractional part of [/\d+(.\d+)?/]. *)
Lemma lang_fraction w :
  lang (Cat dot (plus digit)) w <->
  exists c b, w = c :: b /\ c <> 10%N /\ digits b = true.
Proof.
  rewrite lang_cat_iff. split.
  - intros (w1 & w2 & -> & H1 & H2). apply lang_dot in H1.
    destruct H1 as (c & -> & D). apply lang_digits in H2. exists c, w2. auto.
  - intros (c & b & -> & D & B). exists [c], b.
    split; [reflexivity|]. split; [apply lang_dot; eauto|].
    now apply lang_digits.
Qed.

Lemma mantissa_shape w :
  matches Solidity.Re.decimal_mantissa w = true <->
  digits (codes w) = true \/
  exists a c b,
    codes w = (a ++ c :: b)%list /\ digits a = true /\ c <> 10%N /\
    digits b = true.
Proof.
  rewrite matches_lang. unfold Solidity.Re.decimal_mantissa.
  rewrite lang_cat_iff. split.
  - intros (w1 & w2 & E & H1 & H2). apply lang_digits in H1.
    apply lang_opt in H2. destruct H2 as [H2 | ->].
    + apply lang_fraction in H2. destruct H2 as (c & b & -> & D & B).
      right. exists w1, c, b. auto.
    + left. now rewrite E, app_nil_r.
  - intros [H | (a & c & b & E & A & D & B)].
    + exists (codes w), []. rewrite app_nil_r.
      split; [reflexivity|]. split; [now apply lang_digits|].
      apply lang_opt. now right.
    + exists a, (c :: b). split; [exact E|].
      split; [now apply lang_digits|].
      apply lang_opt. left. apply lang_fraction. exists c, b. auto.
Qed.

Lemma lang_plus_chr c w :
  lang (plus (chr c)) w <-> exists n, w = List.repeat c (S n).
Proof.
  unfold chr. rewrite lang_plus_cls. split.
  - intros H. apply andb_prop in H. destruct H as [N H].
    assert (K : forall l, forallb (in_class false [(c, c)]) l = true ->
                          l = List.repeat c (List.length l)).
    { clear. induction l as [|x l IH]; simpl; intros H; [reflexivity|].
      apply andb_prop in H. destruct H as [E H].
      unfold in_class, in_range in E. simpl in E.
      rewrite orb_false_r in E. apply andb_prop in E. destruct E as [E1 E2].
      apply N.leb_le in E1, E2. rewrite <- (IH H). f_equal. lia. }
    destruct w as [|c0 w]; [discriminate N|].
    exists (List.length w). exact (K _ H).
  - intros (n & ->).
    assert (E : in_class false [(c, c)] c = true).
    { unfold in_class, in_range. simpl. now rewrite N.leb_refl. }
    change (forallb (in_class false [(c, c)]) (List.repeat c (S n)) = true).
    induction (S n) as [|m IH]; [reflexivity|].
    change (in_class false [(c, c)] c &&
            forallb (in_class false [(c, c)]) (List.repeat c m) = true).
    now rewrite E, IH.
Qed.

Lemma exponent_shape w :
  matches Solidity.Re.decimal_exponent w = true <->
  exists e sign n,
    codes w = (e :: sign ++ List.repeat 100%N (S n))%list /\
    (e = 101%N \/ e = 69%N) /\ (sign = [] \/ sign = [45%N]).
Proof.
  rewrite matches_lang. unfold Solidity.Re.decimal_exponent.
  rewrite lang_cat_iff. split.
  - intros (w1 & w2 & E & H1 & H2).
    apply lang_cls_inv in H1. destruct H1 as (e & -> & He).
    apply lang_cat_inv in H2. destruct H2 as (s & ds & -> & Hs & Hd).
    apply lang_opt in Hs. apply lang_plus_chr in Hd. destruct Hd as (n & ->).
    exists e, s, n. split; [exact E|]. split.
    + unfold in_class, in_range in He. simpl in He.
      rewrite orb_false_r in He. apply orb_prop in He.
      destruct He as [He|He]; apply andb_prop in He; destruct He as [E1 E2];
        apply N.leb_le in E1, E2; [left|right]; lia.
    + destruct Hs as [Hs | ->]; [|now left].
      right. now apply lang_chr.
  - intros (e & s & n & E & He & Hs).
    exists [e], (s ++ List.repeat 100%N (S n))%list.
    split; [exact E|]. split.
    + constructor. destruct He as [-> | ->]; reflexivity.
    + constructor.
      * apply lang_opt. destruct Hs as [-> | ->]; [now right|].
        left. now apply lang_chr.
      * apply lang_plus_chr. now exists n.
Qed.

(** X14: the first token of a decimal number is a run of digits,
    optionally followed by any one character other than a line feed and a
    second run of digits: the point of the pattern is not escaped, so
    [1.5], [1e5] and [1x5] are each one such token.  The exponent token is
    [e] or [E], an optional minus sign and one or more letters [d]: it
    never holds a digit. *)
Theorem decimal_number_tokens :
  (forall w,
     matches Solidity.Re.decimal_mantissa w = true <->
     digits (codes w) = true \/
     exists a c b,
       codes w = (a ++ c :: b)%list /\ digits a = true /\ c <> 10%N /\
       digits b = true) /\
  (forall w,
     matches Solidity.Re.decimal_exponent w = true <->
     exists e sign n,
       codes w = (e :: sign ++ List.repeat 100%N (S n))%list /\
       (e = 101%N \/ e = 69%N) /\ (sign = [] \/ sign = [45%N])) /\
  (forall d,
     valid $decimal_number d = true ->
     exists m, matches Solidity.Re.decimal_mantissa m = true /\
       (yield d = [m] \/
        exists e, yield d = [m; e] /\
                  forallb (fun c => negb (digit_code c)) (codes e) = true)) /\
  forallb (matches Solidity.Re.decimal_mantissa) ["1.5"; "1e5"; "1x5"] = true.
Proof.
  split; [exact mantissa_shape|]. split; [exact exponent_shape|].
  split; [|reflexivity].
  intros d V. inv_sym V;
    repeat match goal with W : valid (PATTERN _) _ = true |- _ => inv1 W end.
  - exists w0. split; [assumption|]. right. exists w. split; [reflexivity|].
    assert (W : matches Solidity.Re.decimal_exponent w = true)
      by assumption.
    apply exponent_shape in W. destruct W as (e & s & n & -> & He & Hs).
    assert (K : forallb (fun c => negb (digit_code c))
                        (List.repeat 100%N (S n)) = true).
    { induction n as [|n IH]; [reflexivity|]. simpl in *. exact IH. }
    cbn [forallb]. rewrite forallb_app.
    apply andb_true_intro. split; [destruct He as [-> | ->]; reflexivity|].
    apply andb_true_intro. split; [|exact K].
    destruct Hs as [-> | ->]; reflexivity.
  - exists w. split; [assumption|]. now left.
Qed.

Lemma decimal_number_tokens_witness :
  exists m, matches Solidity.Re.decimal_mantissa m = true /\
    (yield (DSym (DSeq [DTok "1e5"; Build.none])) = [m] \/
     exists e, yield (DSym (DSeq [DTok "1e5"; Build.none])) = [m; e] /\
               forallb (fun c => negb (digit_code c)) (codes e) = true).
Proof.
  apply (proj1 (proj2 (proj2 decimal_number_tokens))). reflexivity.
Defined.

(** ** Elementary types *)

Lemma keyword_choice names ts :
  accepts (CHOICE (map STRING names)) ts <-> exists w, In w names /\ ts = [w].
Proof.
  split.
  - intros (d & V & <-). apply valid_choice_inv in V.
    destruct V as (i & d' & r' & -> & E & V).
    rewrite nth_error_map in E.
    destruct (nth_error names i) as [w|] eqn:N; try discriminate E.
    simpl in E. injection E as <-. apply valid_string_inv in V. subst d'.
    exists w. split; [eapply nth_error_In; eassumption | reflexivity].
  - intros (w & I & ->). apply In_nth_error in I. destruct I as (i & N).
    exists (DAlt i (DTok w)). split; [|reflexivity].
    simpl. rewrite nth_error_map, N. simpl. apply String.eqb_refl.
Qed.

Lemma accepts_symbol n ts :
  accepts $n ts <-> accepts (Solidity.rules n) ts.
Proof.
  split.
  - intros (d & V & Y). apply valid_symbol_inv in V.
    destruct V as (d' & -> & V). now exists d'.
  - intros (d & V & Y). now exists (DSym d).
Qed.

Lemma multiples_of_eight prefix names w :
  names = prefix :: map (fun k => prefix ++ decimal (8 * k)) (List.seq 1 32) ->
  In w names <->
  w = prefix \/ exists k, 1 <= k <= 32 /\ w = prefix ++ decimal (8 * k).
Proof.
  intros ->. split.
  - intros [<- | I]; [now left|]. right.
    apply in_map_iff in I. destruct I as (k & <- & I). exists k.
    apply in_seq in I. split; [lia | reflexivity].
  - intros [-> | (k & H & ->)]; [now left|]. right.
    apply in_map_iff. exists k.
    split; [reflexivity|]. apply in_seq. lia.
Qed.

(** X15: the sized integer types are [int] and [uint] alone or followed
    by a multiple of eight from 8 to 256, and the byte types are [byte],
    [bytes] and [bytes1] to [bytes32]; no other size is a type name. *)
Theorem sized_type_names ts :
  (accepts $_int ts <->
   exists w, ts = [w] /\
     (w = "int" \/ exists k, 1 <= k <= 32 /\ w = "int" ++ decimal (8 * k))) /\
  (accepts $_uint ts <->
   exists w, ts = [w] /\
     (w = "uint" \/
      exists k, 1 <= k <= 32 /\ w = "uint" ++ decimal (8 * k))) /\
  (accepts $_bytes ts <->
   exists w, ts = [w] /\
     (w = "byte" \/ w = "bytes" \/
      exists k, 1 <= k <= 32 /\ w = "bytes" ++ decimal k)).
Proof.
  rewrite !accepts_symbol.
  change (Solidity.rules _int) with (CHOICE (map STRING Solidity.int_names)).
  change (Solidity.rules _uint)
    with (CHOICE (map STRING Solidity.uint_names)).
  change (Solidity.rules _bytes)
    with (CHOICE (map STRING Solidity.bytes_names)).
  rewrite !keyword_choice. split; [|split].
  - split; intros (w & H & E); exists w.
    + split; [exact E|].
      now apply (multiples_of_eight "int" Solidity.int_names w eq_refl).
    + split; [|exact H].
      now apply (multiples_of_eight "int" Solidity.int_names w eq_refl).
  - split; intros (w & H & E); exists w.
    + split; [exact E|].
      now apply (multiples_of_eight "uint" Solidity.uint_names w eq_refl).
    + split; [|exact H].
      now apply (multiples_of_eight "uint" Solidity.uint_names w eq_refl).
  - change Solidity.bytes_names
      with ("byte" :: "bytes" ::
            map (fun k => "bytes" ++ decimal k) (List.seq 1 32)).
    split; intros (w & H & E); exists w.
    + split; [exact E|]. destruct H as [<-|[<-|H]]; [tauto|tauto|].
      right. right. apply in_map_iff in H. destruct H as (k & <- & I).
      exists k. apply in_seq in I. split; [lia|reflexivity].
    + split; [|exact H]. destruct E as [->|[->|(k & Hk & ->)]];
        [now left|right; now left|].
      right. right. apply in_map_iff. exists k. split; [reflexivity|].
      apply in_seq. lia.
Qed.

Lemma fixed_shape prefix w :
  lang (cats [lit prefix; plus digit; chr 120%N; plus digit]) w <->
  exists m n,
    w = (codes prefix ++ m ++ 120%N :: n)%list /\
    digits m = true /\ digits n = true.
Proof.
  unfold cats, fold_right. split.
  - intros H.
    apply lang_cat_inv in H. destruct H as (w1 & r1 & -> & H1 & H).
    apply lang_cat_inv in H. destruct H as (w2 & r2 & -> & H2 & H).
    apply lang_cat_inv in H. destruct H as (w3 & r3 & -> & H3 & H).
    apply lang_cat_inv in H. destruct H as (w4 & r4 & -> & H4 & H).
    apply lang_eps_inv in H. subst r4.
    apply lang_lit in H1. apply lang_digits in H2. apply lang_chr in H3.
    apply lang_digits in H4. subst w1 w3.
    exists w2, w4. rewrite app_nil_r. auto.
  - intros (m & n & -> & Hm & Hn).
    apply lang_cat; [now apply lang_lit|].
    apply lang_cat; [now apply lang_digits|].
    apply (lang_cat (chr 120%N) _ [120%N] n); [now apply lang_chr|].
    rewrite <- (app_nil_r n).
    apply lang_cat; [now apply lang_digits | constructor].
Qed.

(** X16: a sized fixed-point type is [fixed] or [ufixed], a run of
    digits, the letter [x] and a second run of digits; the grammar bounds
    neither number. *)
Theorem fixed_point_types w :
  (matches Solidity.Re.fixed w = true <->
   exists m n,
     codes w = (codes "fixed" ++ m ++ 120%N :: n)%list /\
     digits m = true /\ digits n = true) /\
  (matches Solidity.Re.ufixed w = true <->
   exists m n,
     codes w = (codes "ufixed" ++ m ++ 120%N :: n)%list /\
     digits m = true /\ digits n = true) /\
  (accepts $_fixed [w] <->
   w = "fixed" \/ matches Solidity.Re.fixed w = true).
Proof.
  split; [|split].
  - rewrite matches_lang. apply fixed_shape.
  - rewrite matches_lang. apply fixed_shape.
  - rewrite accepts_symbol. split.
    + intros (d & V & Y). inv_body.
      * simpl in Y. injection Y as <-. now left.
      * inv1 V. simpl in Y. injection Y as <-. now right.
    + intros [-> | H].
      * now exists (DAlt 0 (DTok "fixed")).
      * exists (DAlt 1 (DTok w)). split; [exact H|reflexivity].
Qed.

(** ** Strings and escapes *)

Lemma hex_class c : in_class false hex_ranges c = hex_code c.
Proof.
  unfold in_class, hex_ranges, in_range, hex_code, digit_code. simpl.
  rewrite orb_false_r.
  destruct ((97 <=? c) && (c <=? 102))%N, ((65 <=? c) && (c <=? 70))%N,
    ((48 <=? c) && (c <=? 57))%N; reflexivity.
Qed.

Lemma lang_times_hex n w :
  lang (times n hex) w <->
  List.length w = n /\ forallb hex_code w = true.
Proof.
  unfold hex. revert w. induction n as [|n IH]; intros w; simpl.
  - split.
    + intros H. apply lang_eps_inv in H. now subst.
    + intros [E _]. destruct w; [constructor | discriminate E].
  - rewrite lang_cat_iff. split.
    + intros (w1 & w2 & -> & H1 & H2).
      apply lang_cls_inv in H1. destruct H1 as (c & -> & E).
      apply IH in H2. destruct H2 as [L F]. simpl.
      now rewrite L, <- hex_class, E, F.
    + intros [L F]. destruct w as [|c w]; [discriminate L|].
      simpl in L, F. apply andb_prop in F. destruct F as [E F].
      exists [c], w. split; [reflexivity|]. split.
      * constructor. now rewrite hex_class.
      * apply IH. split; [lia | exact F].
Qed.

Lemma escape_letters_shape w :
  lang Solidity.Re.escape_letters w <->
  w = [34; 39; 92; 98; 102; 110; 114; 116; 118; 10; 13]%N.
Proof.
  unfold Solidity.Re.escape_letters, cats, fold_right. split.
  - intros H.
    apply lang_cat_inv in H. destruct H as (w1 & r1 & -> & H1 & H).
    apply lang_cat_inv in H. destruct H as (w2 & r2 & -> & H2 & H).
    apply lang_cat_inv in H. destruct H as (w3 & r3 & -> & H3 & H).
    apply lang_cat_inv in H. destruct H as (w4 & r4 & -> & H4 & H).
    apply lang_cat_inv in H. destruct H as (w5 & r5 & -> & H5 & H).
    apply lang_cat_inv in H. destruct H as (w6 & r6 & -> & H6 & H).
    apply lang_eps_inv in H. apply lang_chr in H1, H2, H3, H5, H6.
    apply lang_lit in H4. now subst.
  - intros ->.
    apply (lang_cat _ _ [34%N]); [now apply lang_chr|].
    apply (lang_cat _ _ [39%N]); [now apply lang_chr|].
    apply (lang_cat _ _ [92%N]); [now apply lang_chr|].
    apply (lang_cat _ _ (codes "bfnrtv")); [now apply lang_lit|].
    apply (lang_cat _ _ [10%N]); [now apply lang_chr|].
    apply (lang_cat _ _ [13%N] []); [now apply lang_chr | constructor].
Qed.

Lemma escape_hex_shape c n w :
  lang (Cat (chr c) (times n hex)) w <->
  exists hs, w = c :: hs /\ List.length hs = n /\ forallb hex_code hs = true.
Proof.
  rewrite lang_cat_iff. split.
  - intros (w1 & w2 & -> & H1 & H2). apply lang_chr in H1. subst w1.
    apply lang_times_hex in H2. exists w2. tauto.
  - intros (hs & -> & H). exists [c], hs. split; [reflexivity|].
    split; [now apply lang_chr | now apply lang_times_hex].
Qed.

(** X17: the escape of a unicode string literal is a backslash followed
    by [u] and four hex digits, by [x] and two hex digits, or by the one
    sequence of eleven characters that the first pattern spells: that
    pattern is a sequence, not a class, so a backslash followed by [n] is
    not an escape. *)
Theorem unicode_escape_forms ts :
  (accepts $_escape_sequence ts <->
   exists w,
     ts = [backslash; w] /\
     (codes w = [34; 39; 92; 98; 102; 110; 114; 116; 118; 10; 13]%N \/
      (exists hs, codes w = 117%N :: hs /\ List.length hs = 4 /\
                  forallb hex_code hs = true) \/
      (exists hs, codes w = 120%N :: hs /\ List.length hs = 2 /\
                  forallb hex_code hs = true))) /\
  ~ accepts $_escape_sequence [backslash; "n"].
Proof.
  assert (K : forall ts,
             accepts $_escape_sequence ts <->
             exists w,
               ts = [backslash; w] /\
               (codes w = [34; 39; 92; 98; 102; 110; 114; 116; 118; 10; 13]%N
                \/ (exists hs, codes w = 117%N :: hs /\
                               List.length hs = 4 /\
                               forallb hex_code hs = true)
                \/ (exists hs, codes w = 120%N :: hs /\
                               List.length hs = 2 /\
                               forallb hex_code hs = true))).
  { clear ts. intros ts. rewrite accepts_symbol. split.
    - intros (d & V & <-). inv_body;
        match goal with
        | W : valid (PATTERN _) _ = true |- _ =>
            inv1 W; rename W into M
        end;
        exists w; (split; [reflexivity|]).
      + left. apply escape_letters_shape. now apply matches_lang.
      + right. left. apply (escape_hex_shape 117%N 4). now apply matches_lang.
      + right. right. apply (escape_hex_shape 120%N 2).
        now apply matches_lang.
    - intros (w & -> & [H | [H | H]]).
      + exists (DSeq [DTok backslash; DAlt 0 (DTok w)]).
        split; [|reflexivity]. simpl. rewrite andb_true_r.
        apply matches_lang. now apply escape_letters_shape.
      + exists (DSeq [DTok backslash; DAlt 1 (DTok w)]).
        split; [|reflexivity]. simpl. rewrite andb_true_r.
        apply matches_lang. now apply (escape_hex_shape 117%N 4).
      + exists (DSeq [DTok backslash; DAlt 2 (DTok w)]).
        split; [|reflexivity]. simpl. rewrite andb_true_r.
        apply matches_lang. now apply (escape_hex_shape 120%N 2). }
  split; [apply K|].
  intros H. apply K in H. destruct H as (w & E & H). injection E as <-.
  simpl in H.
  destruct H as [H | [(hs & H & _) | (hs & H & _)]]; discriminate H.
Qed.

Lemma plain_class q c :
  in_class true [(q, q); (92, 92); (10, 10)]%N c = plain_char q c.
Proof.
  unfold in_class, in_range, plain_char. simpl. rewrite orb_false_r.
  destruct (N.eqb_spec c q), (N.eqb_spec c 92), (N.eqb_spec c 10),
    (N.leb_spec q c), (N.leb_spec c q), (N.leb_spec 92 c),
    (N.leb_spec c 92), (N.leb_spec 10 c), (N.leb_spec c 10);
    simpl; try reflexivity; lia.
Qed.

Lemma chunk_fragment q w :
  matches (Alt (plus (Cls true [(q, q); (92, 92); (10, 10)]%N))
               (cats [chr 92%N; opt (chr 13%N); chr 10%N])) w = true ->
  fragment q w = true.
Proof.
  rewrite matches_lang. unfold fragment. intros H.
  apply lang_alt_inv in H. destruct H as [H|H].
  - apply lang_plus_cls in H. apply andb_prop in H. destruct H as [N H].
    destruct (codes w) as [|c cs]; [discriminate N|].
    rewrite (forallb_same _ _ _ (plain_class q)) in H.
    rewrite H. apply orb_true_r.
  - unfold cats, fold_right in H.
    apply lang_cat_inv in H. destruct H as (w1 & w2 & -> & H1 & _).
    apply lang_chr in H1. subst w1. reflexivity.
Qed.

Lemma escape_token_fragment q d :
  valid $escape_sequence d = true ->
  exists w, d = DSym (DTok w) /\ fragment q w = true.
Proof.
  intros V. apply valid_symbol_inv in V. destruct V as (d' & -> & V).
  destruct d'; try discriminate V. exists w. split; [reflexivity|].
  simpl in V. unfold token_matches in V. simpl in V.
  apply matches_lang in V.
  apply lang_cat_inv in V. destruct V as (w1 & w2 & E & H1 & _).
  apply (lang_lit backslash) in H1. subst w1.
  unfold fragment. rewrite E. reflexivity.
Qed.

Lemma fragments q ds :
  forallb
    (valid (CHOICE
              [IMMEDIATE_TOKEN
                 (PRECEDENCE NoAssoc PREC.STRING
                    (PATTERN
                       (Alt (plus (Cls true [(q, q); (92, 92); (10, 10)]%N))
                            (cats [chr 92%N; opt (chr 13%N); chr 10%N]))));
               $escape_sequence])) ds = true ->
  forallb (fragment q) (flat_map yield ds) = true.
Proof.
  induction ds as [|d ds IH]; simpl flat_map; intros H; [reflexivity|].
  simpl in H. apply andb_prop in H. destruct H as [V H].
  rewrite forallb_app, (IH H), andb_true_r. clear IH H.
  destruct d as [| | | |i d| |]; try discriminate V.
  destruct i as [|[|i]]; simpl in V.
  - destruct d; try discriminate V. unfold token_matches in V. simpl in V.
    simpl. now rewrite (chunk_fragment q w V).
  - destruct (escape_token_fragment q d V) as (w & -> & F).
    simpl. now rewrite F.
  - destruct i; discriminate V.
Qed.

(** X18: a string opens and closes with the same quote, single or
    double, and every token between the quotes either begins with a
    backslash (an escape sequence or a continued line) or holds no quote
    of that kind, no backslash and no line feed. *)
Theorem string_fragments d :
  valid $string d = true ->
  exists q middle,
    (q = 34%N \/ q = 39%N) /\
    yield d = (quote_text q :: middle ++ [quote_text q])%list /\
    forallb (fragment q) middle = true.
Proof.
  intros V. inv_sym V;
    match goal with R : valid (REPEAT _) _ = true |- _ => inv1 R end.
  - exists 34%N, (flat_map yield ds). split; [now left|]. split.
    + simpl. rewrite ?app_nil_r. reflexivity.
    + now apply (fragments 34%N).
  - exists 39%N, (flat_map yield ds). split; [now right|]. split.
    + simpl. rewrite ?app_nil_r. reflexivity.
    + now apply (fragments 39%N).
Qed.

Lemma string_fragments_witness :
  exists q middle,
    (q = 34%N \/ q = 39%N) /\
    yield (DSym (DAlt 0 (DSeq [DTok dquote; DRep [DAlt 0 (DTok "abc")];
                               DTok dquote]))) =
      (quote_text q :: middle ++ [quote_text q])%list /\
    forallb (fragment q) middle = true.
Proof. apply string_fragments. reflexivity. Defined.

(** ** Definitions *)

Lemma single_tokens c specs :
  Forall (fun s => accepts c [s]) specs ->
  exists ds, forallb (valid c) ds = true /\ flat_map yield ds = specs.
Proof.
  induction 1 as [|s specs (d & V & Y) _ (ds & Vs & Ys)].
  - now exists [].
  - exists (d :: ds). simpl. now rewrite V, Vs, Y, Ys.
Qed.

(** The validity of a sequence, from the validity of its members. *)
Ltac valid_members :=
  simpl; repeat (apply andb_true_intro; split);
  first [ assumption | reflexivity ].

Lemma state_variable_keyword s :
  In s state_variable_keywords ->
  accepts (CHOICE [FIELD "visibility" $visibility; $constant;
                   $override_specifier; $immutable]) [s].
Proof.
  simpl. intros [<-|[<-|[<-|[<-|[<-|[<-|[<-|[]]]]]]]].
  - now exists (DAlt 0 (DWrap (DSym (DAlt 0 (DTok "public"))))).
  - now exists (DAlt 0 (DWrap (DSym (DAlt 1 (DTok "internal"))))).
  - now exists (DAlt 0 (DWrap (DSym (DAlt 2 (DTok "private"))))).
  - now exists (DAlt 0 (DWrap (DSym (DAlt 3 (DTok "external"))))).
  - now exists (DAlt 1 (DSym (DTok "constant"))).
  - now exists (DAlt 3 (DSym (DTok "immutable"))).
  - now exists (DAlt 2 (DSym (DSeq [DTok "override"; Build.none]))).
Qed.

(** X19: between the type and the name of a state variable, the keywords
    [public], [internal], [private], [external], [constant], [immutable]
    and [override] are accepted in any number, in any order and with
    repetitions; [external] is among them. *)
Theorem state_variable_specifiers ty specs name :
  accepts $type_name ty ->
  Forall (fun s => In s state_variable_keywords) specs ->
  matches Solidity.Re.identifier name = true ->
  accepts $state_variable_declaration (ty ++ specs ++ [name; ";"])%list.
Proof.
  intros (dty & Vty & <-) Hs Hn.
  destruct (single_tokens
              (CHOICE [FIELD "visibility" $visibility; $constant;
                       $override_specifier; $immutable]) specs)
    as (ds & Vs & <-).
  { eapply Forall_impl; [|exact Hs]. apply state_variable_keyword. }
  exists (DSym (DSeq [DWrap dty; DRep ds; DWrap (Build.ident name);
                      Build.none; Build.semicolon])).
  split.
  - valid_members.
  - simpl. rewrite ?app_nil_r, <- ?app_assoc. reflexivity.
Qed.

Lemma state_variable_specifiers_witness :
  accepts $state_variable_declaration
    (["uint"] ++ ["external"; "public"; "public"; "constant"; "immutable"] ++
     ["x"; ";"])%list.
Proof.
  apply state_variable_specifiers.
  - now exists Build.t_uint.
  - repeat (apply Forall_cons; [simpl; find_disjunct|]). apply Forall_nil.
  - reflexivity.
Defined.

(** Each keyword is derived by its own rule and builds a node of its
    kind. *)
Lemma function_keyword s :
  In s function_keywords ->
  exists d cs,
    valid (CHOICE [$modifier_invocation; $visibility; $state_mutability;
                   $virtual; $override_specifier]) d = true /\
    yield d = [s] /\
    cst (CHOICE [$modifier_invocation; $visibility; $state_mutability;
                 $virtual; $override_specifier]) d =
      [(None, Node (Rule (keyword_kind s)) cs)].
Proof.
  simpl. intros [<-|[<-|[<-|[<-|[<-|[<-|[<-|[<-|[<-|[]]]]]]]]]].
  - exists (DAlt 1 (DSym (DAlt 0 (DTok "public")))). eexists.
    repeat split.
  - exists (DAlt 1 (DSym (DAlt 1 (DTok "internal")))). eexists.
    repeat split.
  - exists (DAlt 1 (DSym (DAlt 2 (DTok "private")))). eexists.
    repeat split.
  - exists (DAlt 1 (DSym (DAlt 3 (DTok "external")))). eexists.
    repeat split.
  - exists (DAlt 2 (DSym (DAlt 0 (DTok "pure")))). eexists.
    repeat split.
  - exists (DAlt 2 (DSym (DAlt 1 (DTok "view")))). eexists.
    repeat split.
  - exists (DAlt 2 (DSym (DAlt 2 (DTok "payable")))). eexists.
    repeat split.
  - exists (DAlt 3 (DSym (DTok "virtual"))). eexists. repeat split.
  - exists (DAlt 4 (DSym (DSeq [DTok "override"; Build.none]))). eexists.
    repeat split.
Qed.

Lemma function_keyword_nodes specs :
  Forall (fun s => In s function_keywords) specs ->
  exists ds nodes,
    forallb (valid (CHOICE [$modifier_invocation; $visibility;
                            $state_mutability; $virtual;
                            $override_specifier])) ds = true /\
    flat_map yield ds = specs /\
    flat_map (cst (CHOICE [$modifier_invocation; $visibility;
                           $state_mutability; $virtual;
                           $override_specifier])) ds =
      map (fun t => (None, t)) nodes /\
    map node_kind nodes = map (fun s => Some (Rule (keyword_kind s))) specs.
Proof.
  induction 1 as [|s specs Hs _ (ds & nodes & Vs & Ys & Cs & Ks)].
  - now exists [], [].
  - destruct (function_keyword s Hs) as (d & cs & V & Y & C).
    exists (d :: ds), (Node (Rule (keyword_kind s)) cs :: nodes).
    cbn [forallb flat_map map node_kind].
    rewrite V, Vs, Y, Ys, C, Cs, Ks. auto.
Qed.

(** The kinds of the children of a node that holds a run of nodes. *)
Lemma children_kinds k (front back : list child) nodes
      (kinds : list (option kind)) :
  map node_kind nodes = kinds -> ~ In None kinds ->
  map node_kind
    (node_children
       (Node k (front ++ map (fun t => (None, t)) nodes ++ back))) =
  (map node_kind (map snd (filter is_node front)) ++ kinds ++
   map node_kind (map snd (filter is_node back)))%list.
Proof.
  intros <- N. simpl. rewrite !filter_app, !map_app. f_equal. f_equal.
  induction nodes as [|t nodes IH]; [reflexivity|].
  destruct t as [w|k' cs]; [elim N; now left|].
  simpl. rewrite IH; [reflexivity|]. intros I. apply N. now right.
Qed.

Lemma keyword_kinds_are_nodes (specs : list token) :
  ~ In None (map (fun s => Some (Rule (keyword_kind s))) specs).
Proof.
  intros I. apply in_map_iff in I. destruct I as (s & E & _). discriminate E.
Qed.

(** X20: after the parameter list of a function definition the keywords
    [public], [internal], [private], [external], [pure], [view],
    [payable], [virtual] and [override] are accepted in any number, in any
    order, repeated and in conflict, before a semicolon or a body; each
    builds its own [visibility], [state_mutability], [virtual] or
    [override_specifier] node after the [identifier] node of the name. *)
Theorem function_specifiers name specs :
  matches Solidity.Re.identifier name = true ->
  Forall (fun s => In s function_keywords) specs ->
  (exists d root,
     valid $function_definition d = true /\
     yield d = ("function" :: name :: "(" :: ")" :: specs ++ [";"])%list /\
     cst $function_definition d = [(None, root)] /\
     map node_kind (node_children root) =
       Some (Rule identifier) ::
       map (fun s => Some (Rule (keyword_kind s))) specs) /\
  (exists d root,
     valid $function_definition d = true /\
     yield d =
       ("function" :: name :: "(" :: ")" :: specs ++ ["{"; "}"])%list /\
     cst $function_definition d = [(None, root)] /\
     map node_kind (node_children root) =
       (Some (Rule identifier) ::
        map (fun s => Some (Rule (keyword_kind s))) specs ++
        [Some (Rule function_body)])%list).
Proof.
  intros Hn Hs.
  destruct (function_keyword_nodes specs Hs)
    as (ds & nodes & Vs & Ys & Cs & Ks).
  pose proof (keyword_kinds_are_nodes specs) as N.
  split.
  - exists (DSym (DSeq [DTok "function"; DWrap (Build.ident name);
                        Build.parameter_list []; DRep ds; Build.none;
                        DAlt 0 Build.semicolon])).
    exists (Node (Rule function_definition)
              ([(None, Leaf "function");
                (Some "function_name",
                 Node (Rule identifier) [(None, Leaf name)]);
                (None, Leaf "("); (None, Leaf ")")] ++
               map (fun t => (None, t)) nodes ++ [])).
    split; [valid_members|]. split; [|split].
    + simpl. now rewrite Ys, ?app_nil_r.
    + cbn [cst hidden terminal Solidity.rules seq choice field repeat
             optional nth_error app].
      unfold choice. rewrite Cs. reflexivity.
    + rewrite (children_kinds _ _ _ _ _ Ks N). simpl.
      now rewrite app_nil_r.
  - exists (DSym (DSeq [DTok "function"; DWrap (Build.ident name);
                        Build.parameter_list []; DRep ds; Build.none;
                        DAlt 1 (DWrap Build.empty_block)])).
    exists (Node (Rule function_definition)
              ([(None, Leaf "function");
                (Some "function_name",
                 Node (Rule identifier) [(None, Leaf name)]);
                (None, Leaf "("); (None, Leaf ")")] ++
               map (fun t => (None, t)) nodes ++
               [(Some "body",
                 Node (Rule function_body)
                   [(None, Leaf "{"); (None, Leaf "}")])])).
    split; [valid_members|]. split; [|split].
    + simpl. now rewrite Ys, ?app_nil_r.
    + cbn [cst hidden terminal Solidity.rules seq choice field repeat
             optional nth_error app].
      unfold choice. rewrite Cs. reflexivity.
    + rewrite (children_kinds _ _ _ _ _ Ks N). reflexivity.
Qed.

Lemma function_specifiers_witness :
  exists d root,
    valid $function_definition d = true /\
    yield d =
      ("function" :: "f" :: "(" :: ")" ::
       ["public"; "private"; "pure"; "view"; "pure"] ++ [";"])%list /\
    cst $function_definition d = [(None, root)] /\
    map node_kind (node_children root) =
      Some (Rule identifier) ::
      map (fun s => Some (Rule (keyword_kind s)))
          ["public"; "private"; "pure"; "view"; "pure"].
Proof.
  apply (function_specifiers "f"); [reflexivity|].
  repeat (apply Forall_cons; [simpl; find_disjunct|]). apply Forall_nil.
Defined.

Lemma ends_with_single x : ends_with x [x].
Proof. now exists []. Qed.

Lemma ends_with_cons x a l : ends_with x l -> ends_with x (a :: l).
Proof. intros (p & ->). now exists (a :: p). Qed.

Lemma ends_with_app x l m : ends_with x m -> ends_with x (l ++ m).
Proof. intros (p & ->). exists (l ++ p)%list. now rewrite app_assoc. Qed.

Lemma ends_with_last x y l : ends_with x (l ++ [y]) -> x = y.
Proof.
  intros (p & E). apply app_inj_tail in E. now destruct E.
Qed.

(** The last token of a concatenation is the last token of its last
    part. *)
Ltac last_token :=
  rewrite ?app_nil_r;
  repeat first [ apply ends_with_single | assumption
               | apply ends_with_cons | apply ends_with_app ].

Lemma function_body_end d :
  valid $function_body d = true -> ends_with "}" (yield d).
Proof.
  intros V. inv_sym V.
  match goal with R : valid (REPEAT _) _ = true |- _ => inv1 R end.
  simpl. last_token.
Qed.

Lemma constructor_shape d :
  valid $constructor_definition d = true ->
  (exists rest, yield d = "constructor" :: "(" :: rest) /\
  ends_with "}" (yield d).
Proof.
  intros V. inv_sym V.
  on_sym _parameter_list ltac:(fun V =>
    destruct (parameter_list_first _ V) as (rest & Yp)).
  on_sym function_body ltac:(fun V => apply function_body_end in V).
  split.
  - simpl. rewrite Yp. simpl. eauto.
  - simpl. last_token.
Qed.

(** X21: a constructor always has a body: its tokens begin with
    [constructor] and a parenthesis and end with the closing brace of the
    body, so [constructor();] is rejected.  A function definition ends
    with a semicolon or with the closing brace of its body. *)
Theorem constructor_has_body :
  (forall d,
     valid $constructor_definition d = true ->
     (exists rest, yield d = "constructor" :: "(" :: rest) /\
     ends_with "}" (yield d)) /\
  ~ accepts $constructor_definition ["constructor"; "("; ")"; ";"] /\
  (forall d,
     valid $function_definition d = true ->
     ends_with ";" (yield d) \/ ends_with "}" (yield d)).
Proof.
  split; [exact constructor_shape|]. split.
  - intros (d & V & Y). destruct (constructor_shape d V) as [_ E].
    rewrite Y in E.
    apply (ends_with_last "}" ";" ["constructor"; "("; ")"]) in E.
    discriminate E.
  - intros d V. inv_sym V;
      try on_sym _semicolon ltac:(fun V => apply semicolon_inv in V; subst);
      try on_sym function_body ltac:(fun V => apply function_body_end in V);
      simpl; first [ left; solve [last_token] | right; solve [last_token] ].
Qed.

Lemma constructor_has_body_witness :
  (exists rest,
     yield (DSym (DSeq [DTok "constructor"; Build.parameter_list [];
                        DRep []; DWrap Build.empty_block])) =
     "constructor" :: "(" :: rest) /\
  ends_with "}"
    (yield (DSym (DSeq [DTok "constructor"; Build.parameter_list [];
                        DRep []; DWrap Build.empty_block]))).
Proof. apply (proj1 constructor_has_body). reflexivity. Defined.

(** X22: a fallback or receive function takes no parameters: after one
    of the five heads [fallback], [receive], [function fallback],
    [function receive] and the bare [function] come an opening and a
    closing parenthesis. *)
Theorem fallback_takes_no_parameters d :
  valid $fallback_receive_definition d = true ->
  exists head rest,
    In head fallback_heads /\
    yield d = (head ++ "(" :: ")" :: rest)%list.
Proof.
  intros V. inv_sym V; simpl;
    match goal with
    | |- exists _ _, _ /\ "function" :: "fallback" :: ?l = _ =>
        exists ["function"; "fallback"]
    | |- exists _ _, _ /\ "function" :: "receive" :: ?l = _ =>
        exists ["function"; "receive"]
    | |- exists _ _, _ /\ "function" :: ?l = _ => exists ["function"]
    | |- exists _ _, _ /\ "fallback" :: ?l = _ => exists ["fallback"]
    | |- exists _ _, _ /\ "receive" :: ?l = _ => exists ["receive"]
    end;
    eexists; (split; [simpl; find_disjunct | reflexivity]).
Qed.

Lemma fallback_takes_no_parameters_witness :
  exists head rest,
    In head fallback_heads /\
    yield (DSym (DSeq [DAlt 1 (DTok "function"); DTok "("; DTok ")";
                       DRep []; DAlt 0 Build.semicolon])) =
      (head ++ "(" :: ")" :: rest)%list.
Proof. apply fallback_takes_no_parameters. reflexivity. Defined.

Lemma contract_body_first d :
  valid $contract_body d = true -> exists rest, yield d = "{" :: rest.
Proof. intros V. inv_sym V. simpl. eauto. Qed.

(** X23: a library never inherits: its tokens are [library], a name and
    the brace of the body, so [library L is A { }] is rejected, while a
    contract and an interface accept the same heritage. *)
Theorem library_has_no_heritage :
  (forall d,
     valid $library_declaration d = true ->
     exists name rest,
       matches Solidity.Re.identifier name = true /\
       yield d = "library" :: name :: "{" :: rest) /\
  ~ accepts $library_declaration ["library"; "L"; "is"; "A"; "{"; "}"] /\
  accepts $contract_declaration ["contract"; "L"; "is"; "A"; "{"; "}"] /\
  accepts $interface_declaration ["interface"; "L"; "is"; "A"; "{"; "}"].
Proof.
  assert (K : forall d,
             valid $library_declaration d = true ->
             exists name rest,
               matches Solidity.Re.identifier name = true /\
               yield d = "library" :: name :: "{" :: rest).
  { intros d V. inv_sym V. use_identifier.
    on_sym contract_body ltac:(fun V =>
      destruct (contract_body_first _ V) as (rest & Yb)).
    exists w, rest. split; [exact Hw|].
    simpl. rewrite Yb, ?app_nil_r. reflexivity. }
  split; [exact K|]. split; [|split].
  - intros (d & V & Y). destruct (K d V) as (name & rest & _ & E).
    rewrite Y in E. discriminate E.
  - exists (DSym (DSeq
      [Build.none; DTok "contract"; DWrap (Build.ident "L");
       Build.some (DSym (DSeq [DTok "is";
                               DSeq [DSym (DSeq [DWrap (DSym (DWrap (DSeq
                                       [Build.ident "A"; DRep []])));
                                                 Build.none]);
                                     DRep []; Build.none]]));
       DWrap (DSym (DSeq [DTok "{"; DRep []; DTok "}"]))])).
    split; reflexivity.
  - exists (DSym (DSeq
      [DTok "interface"; DWrap (Build.ident "L");
       Build.some (DSym (DSeq [DTok "is";
                               DSeq [DSym (DSeq [DWrap (DSym (DWrap (DSeq
                                       [Build.ident "A"; DRep []])));
                                                 Build.none]);
                                     DRep []; Build.none]]));
       DWrap (DSym (DSeq [DTok "{"; DRep []; DTok "}"]))])).
    split; reflexivity.
Qed.

Lemma library_has_no_heritage_witness :
  exists name rest,
    matches Solidity.Re.identifier name = true /\
    yield (DSym (DSeq [DTok "library"; DWrap (Build.ident "L");
                       DWrap (DSym (DSeq [DTok "{"; DRep []; DTok "}"]))])) =
      "library" :: name :: "{" :: rest.
Proof. apply (proj1 library_has_no_heritage). reflexivity. Defined.

(** ** Statements *)

(** X24: a do-while statement is [do], a statement, [while] and a
    condition in parentheses: it ends with the closing parenthesis, the
    grammar takes no semicolon after it. *)
Theorem do_while_ends_with_parenthesis d :
  valid $do_while_statement d = true ->
  (exists body cond,
     accepts $_statement body /\ accepts $_expression cond /\
     yield d = ("do" :: body ++ "while" :: "(" :: cond ++ [")"])%list) /\
  ends_with ")" (yield d) /\ ~ ends_with ";" (yield d).
Proof.
  intros V. inv_sym V.
  match goal with
  | Vs : valid $_statement ?s = true, Ve : valid $_expression ?e = true
    |- _ =>
      change (yield (DSym (DSeq [DTok "do"; s; DTok "while"; DTok "("; e;
                                 DTok ")"])))
        with ("do" :: yield s ++ "while" :: "(" :: yield e ++ [")"])%list;
      split; [|split];
      [ exists (yield s), (yield e);
        split; [now exists s|]; split; [now exists e | reflexivity]
      | last_token
      | intros (p & H);
        change ("do" :: yield s ++ "while" :: "(" :: yield e ++ [")"])%list
          with (("do" :: yield s) ++ ("while" :: "(" :: yield e) ++
                [")"])%list in H;
        rewrite !app_assoc in H; apply app_inj_tail in H;
        destruct H as [_ H]; discriminate H ]
  end.
Qed.

Lemma do_while_ends_with_parenthesis_witness :
  ends_with ")"
    (yield (DSym (DSeq [DTok "do"; DSym (DAlt 0 Build.empty_block);
                        DTok "while"; DTok "("; Build.var "a"; DTok ")"]))).
Proof.
  apply (do_while_ends_with_parenthesis
           (DSym (DSeq [DTok "do"; DSym (DAlt 0 Build.empty_block);
                        DTok "while"; DTok "("; Build.var "a"; DTok ")"]))).
  reflexivity.
Defined.

Lemma catch_clause_node d :
  valid $catch_clause d = true ->
  exists cs, cst $catch_clause d = [(None, Node (Rule catch_clause) cs)].
Proof. intros V. inv1 V. simpl. eauto. Qed.

(** X25: a try statement has at least one catch clause: its tokens begin
    with [try], and among the children of its node there is a
    [catch_clause]. *)
Theorem try_needs_catch d :
  valid $try_statement d = true ->
  (exists rest, yield d = "try" :: rest) /\
  exists root clause,
    cst $try_statement d = [(None, root)] /\
    In clause (node_children root) /\
    named is_catch_clause clause = true.
Proof.
  intros V. apply valid_symbol_inv in V. destruct V as (d' & -> & V).
  change (Solidity.rules try_statement)
    with (SEQ [STRING "try"; $_expression;
               CHOICE [SEQ [STRING "returns"; $_parameter_list]; BLANK];
               $block_statement; REPEAT1 $catch_clause]) in V.
  apply valid_seq_cons_inv in V. destruct V as (d1 & l1 & -> & V1 & V).
  apply valid_seq_cons_inv in V. destruct V as (d2 & l2 & E & V2 & V).
  injection E as ->.
  apply valid_seq_cons_inv in V. destruct V as (d3 & l3 & E & V3 & V).
  injection E as ->.
  apply valid_seq_cons_inv in V. destruct V as (d4 & l4 & E & V4 & V).
  injection E as ->.
  apply valid_seq_cons_inv in V. destruct V as (d5 & l5 & E & V5 & V).
  injection E as ->.
  apply valid_seq_nil_inv in V. injection V as ->.
  apply valid_string_inv in V1. subst d1.
  apply valid_repeat1_inv in V5. destruct V5 as (c & cl & -> & Vc & _).
  destruct (catch_clause_node c Vc) as (cs & C).
  split; [simpl; eauto|].
  exists (Node (Rule try_statement)
            ((None, Leaf "try") ::
             cst $_expression d2 ++
             cst (CHOICE [SEQ [STRING "returns"; $_parameter_list]; BLANK])
                 d3 ++
             cst $block_statement d4 ++
             (cst $catch_clause c ++ flat_map (cst $catch_clause) cl) ++
             [])%list),
    (Node (Rule catch_clause) cs).
  split; [reflexivity|]. split; [|reflexivity].
  unfold node_children. apply in_map_iff.
  exists (None, Node (Rule catch_clause) cs). split; [reflexivity|].
  apply filter_In. split; [|reflexivity].
  right. rewrite !in_app_iff, C. simpl. tauto.
Qed.

Lemma try_needs_catch_witness :
  exists rest,
    yield (DSym (DSeq [DTok "try"; Build.var "f"; Build.none;
                       Build.empty_block; DRep [Example.catch_bare]])) =
    "try" :: rest.
Proof.
  apply (try_needs_catch
           (DSym (DSeq [DTok "try"; Build.var "f"; Build.none;
                        Build.empty_block; DRep [Example.catch_bare]]))).
  reflexivity.
Defined.

(** ** Source units *)

(** X26: a directive or declaration at the top of a source file begins
    with one of nine keywords; what begins with [event], [using],
    [modifier] or [constructor] is no source unit of its own. *)
Theorem source_unit_keywords d :
  valid $_source_unit d = true ->
  exists t rest,
    yield d = t :: rest /\
    In t ["pragma"; "import"; "abstract"; "contract"; "interface";
          "library"; "struct"; "enum"; "function"].
Proof.
  intros V. inv_sym V;
    match goal with
    | V : valid (SYMBOL _) _ = true |- _ => inv_sym V
    end;
    match goal with
    | V : valid (SYMBOL _) _ = true |- _ => inv_sym V
    end;
    simpl; do 2 eexists; (split; [reflexivity|]); simpl; find_disjunct.
Qed.

Lemma source_unit_keywords_witness :
  exists t rest,
    yield (DSym (DAlt 0 (DSym (DAlt 0 Example.pragma_plain)))) = t :: rest /\
    In t ["pragma"; "import"; "abstract"; "contract"; "interface";
          "library"; "struct"; "enum"; "function"].
Proof. apply source_unit_keywords. reflexivity. Defined.

(** ** The shape of the trees *)




